(** * Time-domain EM simulation (SimPEG): forward stepping, sensitivities
      and the factorization cache

    A shallow embedding of
    [SimPEG/electromagnetics/time_domain/simulation.py] (classes
    [BaseTDEMSimulation], [Simulation3DMagneticFluxDensity],
    [Simulation3DElectricField], [Simulation3DMagneticField],
    [Simulation3DCurrentDensity]) and of the part of [receivers.py] that
    the sensitivity engines call.

    Conventions.
    - Floating-point step lengths, times and scalars are modelled by the
      canonical rationals [Qc]; comparisons are the exact ones.
    - Dense/sparse arrays are elements of an abstract linear-algebra
      signature [LinAlg]; the linear solver is its operation [solve].
    - The simulation object is split into its immutable attributes [Sim]
      and its mutable attributes [SimState]; every method that mutates the
      object or calls the solver lives in the state-and-exception monad [M].
    - Calls to the solver ([self.solver(A)], [factor.clean()]) are logged
      in [solver_log], the only ghost component of the state. *)

From Stdlib Require Import QArith Qcanon Qcabs Qround Lqa.
From stdpp Require Import base option list strings gmap numbers sorting.

Local Open Scope Z_scope.
Local Open Scope Qc_scope.

(** ** Python and numpy primitives *)

Module Py.

Inductive PyErr :=
| AssertionError
| NotImplementedError (msg : string)
| AttributeError
| KeyError
| IndexError
| TypeError
| ValueError
| UnboundLocalError.

Inductive Res (A : Type) :=
| Ok (a : A)
| Raise (e : PyErr).
Arguments Ok {A} a.
Arguments Raise {A} e.

Definition res_bind {A B} (r : Res A) (k : A → Res B) : Res B :=
  match r with
  | Ok a => k a
  | Raise e => Raise e
  end.

Definition of_option {A} (e : PyErr) (o : option A) : Res A :=
  match o with
  | Some a => Ok a
  | None => Raise e
  end.

Definition py_assert (b : bool) : Res () :=
  if b then Ok () else Raise AssertionError.

(** [l[i]] with Python's negative indices. *)
Definition py_index {A} (l : list A) (i : Z) : option A :=
  let n := Z.of_nat (length l) in
  if bool_decide (0 ≤ i < n)%Z then l !! Z.to_nat i
  else if bool_decide (- n ≤ i < 0)%Z then l !! Z.to_nat (n + i)
  else None.

(** [for x in l: acc = f(acc, x)] where the body may raise. *)
Fixpoint res_foldl {A B} (f : B → A → Res B) (acc : B) (l : list A) : Res B :=
  match l with
  | [] => Ok acc
  | x :: l' => res_bind (f acc x) (λ acc', res_foldl f acc' l')
  end.

Fixpoint res_map {A B} (f : A → Res B) (l : list A) : Res (list B) :=
  match l with
  | [] => Ok []
  | x :: l' =>
      res_bind (f x) (λ y, res_bind (res_map f l') (λ ys, Ok (y :: ys)))
  end.

End Py.
Import Py.

Global Instance Res_ret : MRet Res := @Ok.
Global Instance Res_bind : MBind Res := λ A B k r, res_bind r k.

Module Np.

Definition Qc_eqb (x y : Qc) : bool := Qeq_bool x y.
Definition Qc_leb (x y : Qc) : bool := Qle_bool x y.
Definition Qc_ltb (x y : Qc) : bool := negb (Qle_bool y x).

(** [np.round]: nearest integer, ties to the even one. *)
Definition round_half_even (x : Qc) : Z :=
  let f := Qfloor x in
  match Qccompare (x - Q2Qc (inject_Z f)) (Q2Qc (1 # 2)) with
  | Lt => f
  | Gt => (f + 1)%Z
  | Eq => if Z.even f then f else (f + 1)%Z
  end.

Definition round (x : Qc) : Qc := Q2Qc (inject_Z (round_half_even x)).

(** [np.unique(a).tolist()]: the distinct values in increasing order. *)
Fixpoint insert_sorted (x : Qc) (l : list Qc) : list Qc :=
  match l with
  | [] => [x]
  | y :: l' =>
      if Qc_eqb x y then l
      else if Qc_ltb x y then x :: l
      else y :: insert_sorted x l'
  end.

Definition unique (l : list Qc) : list Qc := foldr insert_sorted [] l.

(** [list.index(x)]: position of the first occurrence. *)
Fixpoint index (x : Qc) (l : list Qc) : option nat :=
  match l with
  | [] => None
  | y :: l' => if Qc_eqb x y then Some 0%nat else S <$> index x l'
  end.

(** Nodes of the time mesh: [t0, t0 + dt_0, t0 + dt_0 + dt_1, ...]. *)
Fixpoint nodes (t0 : Qc) (steps : list Qc) : list Qc :=
  match steps with
  | [] => [t0]
  | dt :: steps' => t0 :: nodes (t0 + dt) steps'
  end.

End Np.

(** ** Linear algebra signature

    The arrays of numpy/scipy and the solver are external collaborators.
    One carrier [vec] stands for the arrays of every length, one carrier
    [mat] for the (sparse) operators. *)

Class LinAlg := {
  vec : Type;
  mat : Type;
  vec_eq_dec :: EqDecision vec;
  vzero : vec;                       (* np.zeros(n) *)
  vadd : vec → vec → vec;
  vsub : vec → vec → vec;
  vneg : vec → vec;
  vscale : Qc → vec → vec;
  mT : mat → mat;                    (* A.T *)
  madd : mat → mat → mat;
  mmul : mat → mat → mat;
  mscale : Qc → mat → mat;
  mv : mat → vec → vec;              (* A * x *)
  mbump00 : mat → mat;               (* A[0, 0] = A[0, 0] + 1.0 *)
  solve : mat → vec → vec            (* solver(A) * b *)
}.

(** The solved fields, [f[:, ftype, tInd]]: one list of columns (one per
    source) for each node of the time mesh. *)
Abbreviation Fields := (list (list vec)).

Section WithLinAlg.
Context `{LA : LinAlg}.

(** *** The [Zero] sentinel of [SimPEG.utils]

    [Zero() + x = x], [x - Zero() = x], [Zero() - x = -x],
    [Zero() * x = Zero()], [-Zero() = Zero()], [mkvc(Zero()) = Zero()]. *)

Inductive val :=
| Zero
| Arr (x : vec).

Definition val_add (a b : val) : val :=
  match a, b with
  | Zero, _ => b
  | _, Zero => a
  | Arr x, Arr y => Arr (vadd x y)
  end.

Definition val_neg (a : val) : val :=
  match a with
  | Zero => Zero
  | Arr x => Arr (vneg x)
  end.

Definition val_sub (a b : val) : val :=
  match a, b with
  | _, Zero => a
  | Zero, Arr y => Arr (vneg y)
  | Arr x, Arr y => Arr (vsub x y)
  end.

Definition val_scale (q : Qc) (a : val) : val :=
  match a with
  | Zero => Zero
  | Arr x => Arr (vscale q x)
  end.

Definition val_mv (A : mat) (a : val) : val :=
  match a with
  | Zero => Zero
  | Arr x => Arr (mv A x)
  end.

Definition isinstance_Zero (a : val) : bool :=
  match a with
  | Zero => true
  | Arr _ => false
  end.

(** [x + a] for an array [x]: the result is an array. *)
Definition arr_add (x : vec) (a : val) : vec :=
  match a with
  | Zero => x
  | Arr y => vadd x y
  end.

(** [x - a] for an array [x]. *)
Definition arr_sub (x : vec) (a : val) : vec :=
  match a with
  | Zero => x
  | Arr y => vsub x y
  end.

(** [a - x] for an array [x]. *)
Definition sub_arr (a : val) (x : vec) : vec :=
  match a with
  | Zero => vneg x
  | Arr y => vsub y x
  end.

(** ** Collaborators: mesh, physical properties, survey *)

Record Mesh := {
  edge_curl : mat;
  nodal_gradient : mat;
  face_divergence : mat;
  sdiag_cell_volumes : mat;          (* sdiag(mesh.cell_volumes) *)
  eye_faces : mat                    (* speye(mesh.n_faces) *)
}.

(** Mass matrices and their derivatives; they depend on the current value
    of [self.model] ([None] before any model is set). *)
Record PhysProps := {
  MeSigma : option vec → mat;
  MeSigmaI : option vec → mat;
  MfMui : option vec → mat;
  MfRho : option vec → mat;
  MfRhoI : option vec → mat;
  MeMu : option vec → mat;
  MeMuI : option vec → mat;
  MeSigmaDeriv : option vec → vec → vec → bool → val;
  MeSigmaIDeriv : option vec → vec → vec → bool → val;
  MfRhoDeriv : option vec → vec → vec → bool → val
}.

Definition neg1 : Qc := Qcopp (Q2Qc 1).

(** Receivers ([receivers.py]): the projected field and the two factors of
    the projection [P = kron(Pt, Ps)]. [Pt] has one row per time channel
    and one column per node of the time mesh. *)
Record Rx := {
  projField : string;
  Ps : mat;
  Pt : list (list Qc)
}.

Inductive SrcType := inductive | galvanic.

Global Instance SrcType_eq_dec : EqDecision SrcType.
Proof. solve_decision. Defined.

(** Sources ([sources.py] is a collaborator): [src_eval m t] is
    [src.eval(sim, t)], [src_evalDeriv m t adjoint] is the pair of callables
    returned by [src.evalDeriv(sim, t, adjoint=adjoint)], [src_Initial ft]
    is [getattr(src, ft + "Initial", None)]. *)
Record Src := {
  srcType : SrcType;
  receiver_list : list Rx;
  src_eval : option vec → Qc → val * val;
  src_evalDeriv : option vec → Qc → bool → (vec → val) * (vec → val);
  src_Initial : string → option (option vec → val);
  src_InitialDeriv : string → option (option vec → vec → val)
}.


(** A derivative accessor [f._<projField>Deriv] of the fields object
    ([fields.py] is a collaborator). Forward mode:
    [acc_fwd f tInd isrc du v]; adjoint mode: [acc_adj f tInd isrc v]
    returns the pair [(cur[0], cur[1])]. *)
Record Accessor := {
  acc_fwd : Fields → nat → nat → vec → vec → val;
  acc_adj : Fields → nat → nat → vec → val * val
}.

(** ** The simulation object *)

Inductive Formulation :=
| Simulation3DMagneticFluxDensity
| Simulation3DElectricField
| Simulation3DMagneticField
| Simulation3DCurrentDensity.

Global Instance Formulation_eq_dec : EqDecision Formulation.
Proof. solve_decision. Defined.

Definition _fieldType (c : Formulation) : string :=
  match c with
  | Simulation3DMagneticFluxDensity => "b"
  | Simulation3DElectricField => "e"
  | Simulation3DMagneticField => "h"
  | Simulation3DCurrentDensity => "j"
  end.

(** Which call of the solver produced a factorization. *)
Inductive FKind :=
| KAdiag (tInd : nat)                (* solver(getAdiag(tInd)) *)
| KAdiagT (tInd : nat)               (* solver(getAdiag(tInd).T) *)
| KAdc.                              (* solver(getAdc()) *)

Global Instance FKind_eq_dec : EqDecision FKind.
Proof. solve_decision. Defined.

(** A factorization object returned by the solver. *)
Record Fact := {
  fid : nat;
  fkind : FKind;
  fmat : mat
}.

(** [Ainv * b] *)
Definition fact_apply (F : Fact) (b : vec) : vec := solve (fmat F) b.

Inductive Event :=
| EFactor (k : FKind) (id : nat)
| EClean (id : nat).

Global Instance Event_eq_dec : EqDecision Event.
Proof. solve_decision. Defined.

(** Immutable attributes. *)
Record Sim := {
  cls : Formulation;
  mesh : Mesh;
  props : PhysProps;
  _makeASymmetric : bool;
  forward_only : bool;
  dt_threshold : Qc;
  t0 : Qc;
  source_list : list Src;
  fields_Deriv : string → option Accessor
}.

(** Mutable attributes. [Ainv]/[ATinv] are [None] while the attribute does
    not exist ([hasattr] is false); otherwise a dict in insertion order. *)
Record SimState := {
  model : option vec;
  time_steps : list Qc;
  Ainv : option (list (Qc * option Fact));
  ATinv : option (list (Qc * option Fact));
  _Adcinv : option Fact;
  solver_log : list Event
}.

Definition nT (st : SimState) : Z := Z.of_nat (length (time_steps st)).
Definition times (S : Sim) (st : SimState) : list Qc :=
  Np.nodes (t0 S) (time_steps st).

(** ** Formulation strategy: the per-step operators

    These methods only read the object; they are functions of the
    immutable attributes [S] and of the current mutable attributes [st]. *)

Section Methods.
Context (S : Sim) (st : SimState).

Definition in_range (tInd : Z) : bool :=
  bool_decide (0 ≤ tInd)%Z && bool_decide (tInd < nT st)%Z.

Definition step_at (tInd : Z) : Res Qc :=
  of_option IndexError (py_index (time_steps st) tInd).

(** The operator that [getAdiag] assembles once it has read the step
    length [dt = self.time_steps[tInd]]. *)
Definition Adiag_matrix (dt : Qc) : mat :=
  let m := model st in
  let C := edge_curl (mesh S) in
  match cls S with
  | Simulation3DMagneticFluxDensity =>
      let MfMui := MfMui (props S) m in
      let A := madd (mscale (1 / dt) (eye_faces (mesh S)))
                    (mmul C (mmul (MeSigmaI (props S) m) (mmul (mT C) MfMui))) in
      if _makeASymmetric S then mmul (mT MfMui) A else A
  | Simulation3DElectricField =>
      madd (mmul (mT C) (mmul (MfMui (props S) m) C))
           (mscale (1 / dt) (MeSigma (props S) m))
  | Simulation3DMagneticField =>
      madd (mmul (mT C) (mmul (MfRho (props S) m) C))
           (mscale (1 / dt) (MeMu (props S) m))
  | Simulation3DCurrentDensity =>
      let MfRho := MfRho (props S) m in
      let A := madd (mmul C (mmul (MeMuI (props S) m) (mmul (mT C) MfRho)))
                    (mscale (1 / dt) (eye_faces (mesh S))) in
      if _makeASymmetric S then mmul (mT MfRho) A else A
  end.

(** [getAdiag]: the four classes open with the same two statements,
    [assert tInd >= 0 and tInd < self.nT] and [dt = self.time_steps[tInd]]. *)
Definition getAdiag (tInd : Z) : Res mat :=
  _ ← py_assert (in_range tInd);
  dt ← step_at tInd;
  Ok (Adiag_matrix dt).

Definition getAsubdiag (tInd : Z) : Res mat :=
  let m := model st in
  match cls S with
  | Simulation3DMagneticFluxDensity =>
      dt ← step_at tInd;
      let Asubdiag := mscale (neg1 / dt) (eye_faces (mesh S)) in
      if _makeASymmetric S then Ok (mmul (mT (MfMui (props S) m)) Asubdiag)
      else Ok Asubdiag
  | Simulation3DElectricField =>
      _ ← py_assert (in_range tInd);
      dt ← step_at tInd;
      Ok (mscale (neg1 / dt) (MeSigma (props S) m))
  | Simulation3DMagneticField =>
      _ ← py_assert (in_range tInd);
      dt ← step_at tInd;
      Ok (mscale (neg1 / dt) (MeMu (props S) m))
  | Simulation3DCurrentDensity =>
      _ ← py_assert (in_range tInd);
      dt ← step_at tInd;
      if _makeASymmetric S then Ok (mscale (neg1 / dt) (mT (MfRho (props S) m)))
      else Ok (mscale (neg1 / dt) (eye_faces (mesh S)))
  end.

Definition getAdiagDeriv (tInd : Z) (u v : vec) (adjoint : bool) : Res val :=
  let m := model st in
  let C := edge_curl (mesh S) in
  match cls S with
  | Simulation3DMagneticFluxDensity =>
      let MfMui := MfMui (props S) m in
      if adjoint then
        let v := if _makeASymmetric S then mv MfMui v else v in
        Ok (MeSigmaIDeriv (props S) m (mv (mT C) (mv MfMui u)) (mv (mT C) v) adjoint)
      else
        let ADeriv :=
          val_mv C (MeSigmaIDeriv (props S) m (mv (mT C) (mv MfMui u)) v adjoint) in
        if _makeASymmetric S then Ok (val_mv (mT MfMui) ADeriv) else Ok ADeriv
  | Simulation3DElectricField =>
      _ ← py_assert (in_range tInd);
      dt ← step_at tInd;
      if adjoint then Ok (val_scale (1 / dt) (MeSigmaDeriv (props S) m u v adjoint))
      else Ok (val_scale (1 / dt) (MeSigmaDeriv (props S) m u v adjoint))
  | Simulation3DMagneticField =>
      _ ← py_assert (in_range tInd);
      if adjoint then Ok (MfRhoDeriv (props S) m (mv C u) (mv C v) adjoint)
      else Ok (val_mv (mT C) (MfRhoDeriv (props S) m (mv C u) v adjoint))
  | Simulation3DCurrentDensity =>
      _ ← py_assert (in_range tInd);
      let MfRho := MfRho (props S) m in
      let MeMuI := MeMuI (props S) m in
      if adjoint then
        let v := if _makeASymmetric S then mv MfRho v else v in
        Ok (MfRhoDeriv (props S) m u (mv C (mv (mT MeMuI) (mv (mT C) v))) adjoint)
      else
        let ADeriv :=
          val_mv C (val_mv MeMuI (val_mv (mT C) (MfRhoDeriv (props S) m u v adjoint))) in
        if _makeASymmetric S then Ok (val_mv (mT MfRho) ADeriv) else Ok ADeriv
  end.

Definition getAsubdiagDeriv (tInd : Z) (u v : vec) (adjoint : bool) : Res val :=
  match cls S with
  | Simulation3DMagneticFluxDensity => Ok Zero          (* Zero() * v *)
  | Simulation3DElectricField =>
      dt ← step_at tInd;
      if adjoint
      then Ok (val_scale (neg1 / dt) (MeSigmaDeriv (props S) (model st) u v adjoint))
      else Ok (val_scale (neg1 / dt) (MeSigmaDeriv (props S) (model st) u v adjoint))
  | Simulation3DMagneticField => Ok Zero
  | Simulation3DCurrentDensity => Ok Zero
  end.

(** [self.times[tInd]] *)
Definition time_at (tInd : Z) : Res Qc :=
  of_option IndexError (py_index (times S st) tInd).

(** [getSourceTerm]: the columns of [s_m] and of [s_e], one per source. *)
Definition getSourceTerm (tInd : Z) : Res (list vec * list vec) :=
  cols ← res_map (λ src,
            t ← time_at tInd;
            let '(smi, sei) := src_eval src (model st) t in
            Ok (arr_add vzero smi, arr_add vzero sei)) (source_list S);
  Ok (cols.*1, cols.*2).

Definition getRHS (tInd : Z) : Res (list vec) :=
  let m := model st in
  let C := edge_curl (mesh S) in
  match cls S with
  | Simulation3DMagneticFluxDensity =>
      '(s_m, s_e) ← getSourceTerm tInd;
      let rhs := zip_with (λ se sm, vadd (mv C (mv (MeSigmaI (props S) m) se)) sm)
                          s_e s_m in
      if _makeASymmetric S then Ok (mv (mT (MfMui (props S) m)) <$> rhs) else Ok rhs
  | Simulation3DElectricField =>
      dt ← step_at (tInd - 1);
      '(s_m, s_e) ← getSourceTerm tInd;
      '(_, s_en1) ← getSourceTerm (tInd - 1);
      Ok (zip_with (λ d sm, vadd (vscale (neg1 / dt) d)
                                 (mv (mmul (mT C) (MfMui (props S) m)) sm))
                   (zip_with vsub s_e s_en1) s_m)
  | Simulation3DMagneticField =>
      '(s_m, s_e) ← getSourceTerm tInd;
      Ok (zip_with (λ se sm, vadd (mv (mT C) (mv (MfRho (props S) m) se)) sm) s_e s_m)
  | Simulation3DCurrentDensity =>
      let tInd := if bool_decide (tInd = nT st) then (tInd - 1)%Z else tInd in
      dt ← step_at tInd;
      '(s_m, s_e) ← getSourceTerm tInd;
      '(_, s_en1) ← getSourceTerm (tInd - 1);
      let rhs := zip_with (λ d sm, vadd (vscale (neg1 / dt) d)
                                        (mv (mmul C (MeMuI (props S) m)) sm))
                          (zip_with vsub s_e s_en1) s_m in
      if _makeASymmetric S then Ok (mv (mT (MfRho (props S) m)) <$> rhs) else Ok rhs
  end.

(** [Simulation3DMagneticFluxDensity.getRHSDeriv] *)
Definition getRHSDeriv_b (tInd : Z) (src : Src) (v : vec) (adjoint : bool) : Res val :=
  let m := model st in
  let C := edge_curl (mesh S) in
  let MeSigmaI := MeSigmaI (props S) m in
  t ← time_at tInd;
  let s_e := (src_eval src m t).2 in
  let '(s_mDeriv, s_eDeriv) := src_evalDeriv src m t adjoint in
  if adjoint then
    let v := if _makeASymmetric S then mv (MfMui (props S) m) v else v in
    let MeSigmaIDerivT_v :=
      match s_e with
      | Zero => Zero
      | Arr se => MeSigmaIDeriv (props S) m se (mv (mT C) v) adjoint
      end in
    Ok (val_add (val_add MeSigmaIDerivT_v (s_eDeriv (mv (mT MeSigmaI) (mv (mT C) v))))
                (s_mDeriv v))
  else
    let MeSigmaIDeriv_v :=
      match s_e with
      | Zero => Zero
      | Arr se => MeSigmaIDeriv (props S) m se v adjoint
      end in
    let RHSDeriv :=
      val_add (val_add (val_mv C MeSigmaIDeriv_v)
                       (val_mv (mmul C MeSigmaI) (s_eDeriv v)))
              (s_mDeriv v) in
    if _makeASymmetric S then Ok (val_mv (mT (MfMui (props S) m)) RHSDeriv)
    else Ok RHSDeriv.

(** The class body of [Simulation3DMagneticField] defines [getRHSDeriv]
    twice, in this order (in the first one a [Zero] source term is passed
    on as a zero array). *)
Definition getRHSDeriv_h_1 (tInd : Z) (src : Src) (v : vec) (adjoint : bool) : Res val :=
  let m := model st in
  let C := edge_curl (mesh S) in
  t ← time_at tInd;
  let s_e := arr_add vzero (src_eval src m t).2 in
  if adjoint then Ok (MfRhoDeriv (props S) m s_e (mv C v) adjoint)
  else Ok (val_mv (mT C) (MfRhoDeriv (props S) m s_e v adjoint)).

End Methods.

(** [Simulation3DElectricField.getRHSDeriv] *)
Definition getRHSDeriv_e (S : Sim) (st : SimState) (tInd : Z) (src : Src) (v : vec)
    (adjoint : bool) : Res val :=
  Ok Zero.

Definition getRHSDeriv_h_2 (S : Sim) (st : SimState) (tInd : Z) (src : Src) (v : vec)
    (adjoint : bool) : Res val :=
  Ok Zero.

(** [Simulation3DCurrentDensity.getRHSDeriv] *)
Definition getRHSDeriv_j (S : Sim) (st : SimState) (tInd : Z) (src : Src) (v : vec)
    (adjoint : bool) : Res val :=
  Ok Zero.


(** A Python class body executes its [def] statements in order; the name
    ends up bound to the last definition. *)
Definition class_attr {A} (defs : list A) : option A := head (reverse defs).

Definition getRHSDeriv_defs (c : Formulation)
  : list (Sim → SimState → Z → Src → vec → bool → Res val) :=
  match c with
  | Simulation3DMagneticFluxDensity => [getRHSDeriv_b]
  | Simulation3DElectricField => [getRHSDeriv_e]
  | Simulation3DMagneticField => [getRHSDeriv_h_1; getRHSDeriv_h_2]
  | Simulation3DCurrentDensity => [getRHSDeriv_j]
  end.

Definition getRHSDeriv (S : Sim) (st : SimState) (tInd : Z) (src : Src) (v : vec)
    (adjoint : bool) : Res val :=
  match class_attr (getRHSDeriv_defs (cls S)) with
  | Some method => method S st tInd src v adjoint
  | None => Raise AttributeError
  end.

(** [getAdc]; [None] for the class that does not define it. *)
Definition getAdc (S : Sim) (st : SimState) : option mat :=
  let m := model st in
  match cls S with
  | Simulation3DMagneticFluxDensity => None
  | Simulation3DElectricField =>
      let Grad := nodal_gradient (mesh S) in
      Some (mbump00 (mmul (mmul (mT Grad) (MeSigma (props S) m)) Grad))
  | Simulation3DMagneticField | Simulation3DCurrentDensity =>
      let D := mmul (sdiag_cell_volumes (mesh S)) (face_divergence (mesh S)) in
      let G := mT D in
      Some (mmul (mmul D (MfRhoI (props S) m)) G)
  end.

(** [getInitialFields]: one column per source. *)
Definition getInitialFields (S : Sim) (st : SimState) : Res (list vec) :=
  res_map (λ src,
     match src_Initial src (_fieldType (cls S)) with
     | Some init => Ok (arr_add vzero (init (model st)))
     | None => Raise TypeError
     end) (source_list S).

(** [getInitialFieldsDeriv(src, v, f=f)] with [adjoint=False], the only way
    the sensitivity engines call it. *)
Definition getInitialFieldsDeriv (S : Sim) (st : SimState) (src : Src) (v : vec)
  : Res vec :=
  match src_InitialDeriv src (_fieldType (cls S)) with
  | Some deriv =>
      match deriv (model st) v with
      | Zero => Ok vzero
      | Arr x => Ok (vadd x vzero)
      end
  | None => Raise TypeError
  end.

(** ** The state-and-exception monad of the simulation object *)

Definition M (A : Type) : Type := SimState → Res A * SimState.

Global Instance M_ret : MRet M := λ A a st, (Ok a, st).
Global Instance M_bind : MBind M := λ A B k c st,
  match c st with
  | (Ok a, st') => k a st'
  | (Raise e, st') => (Raise e, st')
  end.

Definition raise {A} (e : PyErr) : M A := λ st, (Raise e, st).
Definition get : M SimState := λ st, (Ok st, st).
Definition modify (g : SimState → SimState) : M () := λ st, (Ok (), g st).
(** Run a method that only reads the object. *)
Definition read {A} (r : SimState → Res A) : M A := λ st, (r st, st).

(** [try: body except AttributeError: handler] *)
Definition try_except_AttributeError {A} (body handler : M A) : M A := λ st,
  match body st with
  | (Raise AttributeError, st') => handler st'
  | r => r
  end.

Fixpoint M_map {A B} (g : A → M B) (l : list A) : M (list B) :=
  match l with
  | [] => mret []
  | x :: l' => y ← g x; ys ← M_map g l'; mret (y :: ys)
  end.

Fixpoint M_iter {A} (g : A → M ()) (l : list A) : M () :=
  match l with
  | [] => mret ()
  | x :: l' => g x;; M_iter g l'
  end.

Fixpoint M_foldl {A B} (g : B → A → M B) (acc : B) (l : list A) : M B :=
  match l with
  | [] => mret acc
  | x :: l' => acc' ← g acc x; M_foldl g acc' l'
  end.

Definition with_model (m : option vec) (st : SimState) : SimState :=
  {| model := m; time_steps := time_steps st; Ainv := Ainv st; ATinv := ATinv st;
     _Adcinv := _Adcinv st; solver_log := solver_log st |}.
Definition with_time_steps (ts : list Qc) (st : SimState) : SimState :=
  {| model := model st; time_steps := ts; Ainv := Ainv st; ATinv := ATinv st;
     _Adcinv := _Adcinv st; solver_log := solver_log st |}.
Definition with_Ainv (d : option (list (Qc * option Fact))) (st : SimState) : SimState :=
  {| model := model st; time_steps := time_steps st; Ainv := d; ATinv := ATinv st;
     _Adcinv := _Adcinv st; solver_log := solver_log st |}.
Definition with_ATinv (d : option (list (Qc * option Fact))) (st : SimState) : SimState :=
  {| model := model st; time_steps := time_steps st; Ainv := Ainv st; ATinv := d;
     _Adcinv := _Adcinv st; solver_log := solver_log st |}.
Definition with_Adcinv (F : option Fact) (st : SimState) : SimState :=
  {| model := model st; time_steps := time_steps st; Ainv := Ainv st; ATinv := ATinv st;
     _Adcinv := F; solver_log := solver_log st |}.
Definition with_log (l : list Event) (st : SimState) : SimState :=
  {| model := model st; time_steps := time_steps st; Ainv := Ainv st; ATinv := ATinv st;
     _Adcinv := _Adcinv st; solver_log := l |}.

(** [self.solver(A, **self.solver_opts)]: a new factorization object. *)
Definition solver (k : FKind) (A : mat) : M Fact := λ st,
  let F := {| fid := length (solver_log st); fkind := k; fmat := A |} in
  (Ok F, with_log (solver_log st ++ [EFactor k (fid F)]) st).

(** [F.clean()] *)
Definition clean (F : Fact) : M () :=
  modify (λ st, with_log (solver_log st ++ [EClean (fid F)]) st).

(** *** Dicts keyed by the step length *)

Definition Cache := list (Qc * option Fact).

Definition fromkeys (keys : list Qc) : Cache := (λ k, (k, None)) <$> keys.

Fixpoint dict_get (d : Cache) (k : Qc) : option (option Fact) :=
  match d with
  | [] => None
  | (k', v) :: d' => if Np.Qc_eqb k k' then Some v else dict_get d' k
  end.

Fixpoint dict_set (d : Cache) (k : Qc) (v : option Fact) : Cache :=
  match d with
  | [] => (k, v) :: []
  | (k', v') :: d' =>
      if Np.Qc_eqb k k' then (k', v) :: d' else (k', v') :: dict_set d' k v
  end.

(** [{k: v.clean() for k, v in d.items()}]: [clean] returns [None]; a
    [None] value has no [clean] attribute. *)
Definition clean_values (d : Cache) : M Cache :=
  M_map (λ kv : Qc * option Fact,
           match kv.2 with
           | Some F => clean F;; mret (kv.1, None)
           | None => raise AttributeError
           end) d.

(** Modelled from the spec: the model setter of the base simulation class
    is not part of this file. "The model vector is mutated only through a
    single setter that immediately invalidates dependent caches"; the
    caches it cleans are those of [clean_on_model_update], which this class
    extends with ["_Adcinv"] ("clear DC matrix factors on any model
    updates"). *)
Definition set_model (m : vec) : M () :=
  st ← get;
  if decide (model st = Some m) then mret ()
  else
    match _Adcinv st with
    | Some F => clean F;; modify (with_Adcinv None)
    | None => mret ()
    end;;
    modify (with_model (Some m)).

(** *** The [Adcinv] property *)

Definition Adcinv_message (S : Sim) : string :=
  "Support for galvanic sources has not been implemented for "
  +:+ _fieldType (cls S) +:+ "-formulation".

Definition Adcinv (S : Sim) : M Fact :=
  st ← get;
  match getAdc S st with
  | None => raise (NotImplementedError (Adcinv_message S))
  | Some Adc =>
      match _Adcinv st with
      | None =>
          F ← solver KAdc Adc;
          modify (with_Adcinv (Some F));;
          mret F
      | Some F => mret F
      end
  end.

(** ** Forward time-stepper: [fields] *)

(** Modelled from the spec: the fields container ([fields.py] is not part
    of this file) is "a mapping keyed by (source, field-tag, time-index) to
    a solution vector"; its storage is allocated for every source and every
    node of the time mesh, filled with zeros. *)
Definition new_fields (nSrc n : nat) : Fields :=
  replicate (Datatypes.S n) (replicate nSrc vzero).

Definition fields_get (f : Fields) (tInd : nat) : Res (list vec) :=
  of_option IndexError (f !! tInd).

Definition round_time_steps (S : Sim) (ts : list Qc) : list Qc :=
  (λ dt, dt_threshold S * Np.round (dt / dt_threshold S)) <$> ts.

(** The persistent cache a loop works on: [self.ATinv] or [self.Ainv]. *)
Definition cache_of (transposed : bool) (st : SimState) : option Cache :=
  if transposed then ATinv st else Ainv st.

Definition with_cache (transposed : bool) (d : option Cache) (st : SimState) : SimState :=
  if transposed then with_ATinv d st else with_Ainv d st.

(** The body of the loop [for dt in np.unique(self.time_steps).tolist()]
    that [fields] and [Jtvec] both contain:
    [tInd = self.time_steps.tolist().index(dt); A = self.getAdiag(tInd)]
    followed by [self.Ainv[dt] = self.solver(A, ...)] in [fields]
    ([transposed = false]) and by
    [self.ATinv[dt] = self.solver(A.T.tocsr(), ...)] in [Jtvec]
    ([transposed = true]). *)
Definition factor_step (S : Sim) (transposed : bool) (dt : Qc) : M () :=
  tInd ← read (λ st, of_option ValueError (Np.index dt (time_steps st)));
  A ← read (λ st, getAdiag S st (Z.of_nat tInd));
  F ← (if transposed then solver (KAdiagT tInd) (mT A) else solver (KAdiag tInd) A);
  st ← get;
  match cache_of transposed st with
  | Some d => modify (with_cache transposed (Some (dict_set d dt (Some F))))
  | None => raise AttributeError
  end.

(** The block under [if self.forward_only is False]. *)
Definition store_factorizations (S : Sim) : M () :=
  st ← get;
  match Ainv st with
  | Some d => d' ← clean_values d; modify (with_Ainv (Some d'))
  | None =>
      modify (λ st, with_time_steps (round_time_steps S (time_steps st)) st);;
      modify (λ st, with_Ainv (Some (fromkeys (Np.unique (time_steps st)))) st)
  end;;
  try_except_AttributeError
    (st ← get;
     match ATinv st with
     | Some d => d' ← clean_values d; modify (with_ATinv (Some d'))
     | None => raise AttributeError
     end)
    (modify (λ st, with_ATinv (Some (fromkeys (Np.unique (time_steps st)))) st));;
  st ← get;
  M_iter (factor_step S false) (Np.unique (time_steps st)).

(** [self.Ainv[dt]] *)
Definition lookup_cache (sel : SimState → option Cache) (dt : Qc) : M (option Fact) :=
  st ← get;
  match sel st with
  | None => raise AttributeError
  | Some d =>
      match dict_get d dt with
      | Some v => mret v
      | None => raise KeyError
      end
  end.

(** [abs(dt - prev) > self.dt_threshold] *)
Definition step_changed (S : Sim) (dt prev : Qc) : bool :=
  Np.Qc_ltb (dt_threshold S) (Qcabs (dt - prev)).

(** One pass of the body of [for tInd, dt in enumerate(self.time_steps)];
    [cur] is the local variable [Ainv], the factorization in flight. *)
Definition fields_step (S : Sim) (tInd : nat) (dt : Qc) (cur : option Fact) (f : Fields)
  : M (option Fact * Fields) :=
  (* Clean current factorization if step length changes *)
  cur ← match cur with
         | Some F =>
             changed ← (if bool_decide (0 < tInd)%nat then
                          prev ← read (λ st, step_at st (Z.of_nat tInd - 1));
                          mret (step_changed S dt prev)
                        else mret false);
             if changed : bool then
               (if forward_only S then clean F else mret ());;
               mret None
             else mret (Some F)
         | None => mret None
         end;
  (* Factoring Ainv *)
  cur ← match cur with
         | Some F => mret (Some F)
         | None =>
             if forward_only S then
               A ← read (λ st, getAdiag S st (Z.of_nat tInd));
               F ← solver (KAdiag tInd) A;
               mret (Some F)
             else lookup_cache Ainv dt
         end;
  rhs ← read (λ st, getRHS S st (Z.of_nat tInd + 1));
  Asubdiag ← read (λ st, getAsubdiag S st (Z.of_nat tInd));
  u ← read (λ _, fields_get f tInd);
  match cur with
  | Some F =>
      let sol := zip_with (λ r u, fact_apply F (vsub r (mv Asubdiag u))) rhs u in
      mret (Some F, <[Datatypes.S tInd := sol]> f)
  | None => raise TypeError
  end.

Fixpoint fields_loop (S : Sim) (tInd : nat) (steps : list Qc) (cur : option Fact)
    (f : Fields) : M (option Fact * Fields) :=
  match steps with
  | [] => mret (cur, f)
  | dt :: steps' =>
      '(cur, f) ← fields_step S tInd dt cur f;
      fields_loop S (Datatypes.S tInd) steps' cur f
  end.

Definition fields (S : Sim) (m : vec) : M Fields :=
  set_model m;;
  st ← get;
  let f := new_fields (length (source_list S)) (length (time_steps st)) in
  u0 ← read (getInitialFields S);
  let f := <[0%nat := u0]> f in
  (if forward_only S then mret () else store_factorizations S);;
  st ← get;
  '(cur, f) ← fields_loop S 0 (time_steps st) None f;
  match forward_only S, cur with
  | true, Some F => clean F
  | true, None => raise AttributeError
  | false, _ => mret ()
  end;;
  mret f.

(** ** Receivers: [BaseRx.evalDeriv]

    [P = kron(Pt, Ps)] acts on the fields of all time nodes stacked in one
    vector; block [r] of [P * mkvc(F)] is [sum_t Pt[r][t] * (Ps * F[t])], and
    block [t] of [P.T * d] is [sum_r Pt[r][t] * (Ps.T * d[r])]. *)

Definition vsum (l : list vec) : vec := foldr vadd vzero l.

Definition rx_evalDeriv (rx : Rx) (F : list vec) : list vec :=
  (λ row, vsum (zip_with (λ w Ft, vscale w (mv (Ps rx) Ft)) row F)) <$> Pt rx.

Definition rx_evalDeriv_adjoint (rx : Rx) (n_nodes : nat) (d : list vec) : list vec :=
  (λ t, vsum (zip_with (λ row dr, vscale (default 0 (row !! t)) (mv (mT (Ps rx)) dr))
                       (Pt rx) d)) <$> seq 0 n_nodes.

(** ** Forward sensitivity: [Jvec] *)

(** Modelled from the spec: the container of field derivatives
    ([self.Fields_Derivs(self)]; [fields.py] is not part of this file),
    "reused transiently to hold per-time-index derivative vectors"; like the
    fields container its storage starts out as zeros. *)
Definition DerivStore := gmap (nat * string * nat) vec.

Definition store_row (d : DerivStore) (isrc : nat) (name : string) (n_nodes : nat)
  : list vec :=
  (λ t, default vzero (d !! (isrc, name, t))) <$> seq 0 n_nodes.

Definition field_at (f : Fields) (tInd isrc : nat) : Res vec :=
  cols ← fields_get f tInd;
  of_option IndexError (cols !! isrc).

(** [dt != prev] *)
Definition step_differs (dt prev : Qc) : bool := negb (Np.Qc_eqb dt prev).

(** [tInd != len(self.time_steps + 1)]: numpy adds 1 to every step length;
    the length of the array is unchanged. *)
Definition Jvec_guard (st : SimState) (tInd : nat) : bool :=
  negb (bool_decide (tInd = length ((λ dt, dt + 1) <$> time_steps st))).

(** The body of [for i, src in enumerate(self.survey.source_list)] inside
    the time loop of [Jvec]. With [use_guard = false] the test
    [tInd != len(self.time_steps + 1)] is left out. *)
Definition Jvec_source (S : Sim) (use_guard : bool) (f : Fields) (v : vec) (tInd : nat)
    (Adiaginv : option Fact) (Asubdiag : mat) (acc : DerivStore * list vec)
    (isrc : nat * Src) : M (DerivStore * list vec) :=
  let '(df_dm_v, dun_dm_v) := acc in
  let '(i, src) := isrc in
  df_dm_v ← read (λ _,
      res_foldl (λ d pf,
          match fields_Deriv S pf with
          | Some a =>
              du ← of_option IndexError (dun_dm_v !! i);
              Ok (<[(i, pf +:+ "Deriv", tInd) := arr_add vzero (acc_fwd a f tInd i du v)]> d)
          | None => Raise TypeError
          end)
        df_dm_v (remove_dups (projField <$> receiver_list src)));
  un_src ← read (λ _, field_at f (Datatypes.S tInd) i);
  dA_dm_v ← read (λ st, getAdiagDeriv S st (Z.of_nat tInd) un_src v false);
  dRHS_dm_v ← read (λ st, getRHSDeriv S st (Z.of_nat tInd + 1) src v false);
  u_src ← read (λ _, field_at f tInd i);
  dAsubdiag_dm_v ← read (λ st, getAsubdiagDeriv S st (Z.of_nat tInd) u_src v false);
  let JRHS := val_sub (val_sub dRHS_dm_v dAsubdiag_dm_v) dA_dm_v in
  st ← get;
  if (if use_guard then Jvec_guard st tInd else true) then
    du ← read (λ _, of_option IndexError (dun_dm_v !! i));
    match Adiaginv with
    | Some F =>
        mret (df_dm_v, <[i := fact_apply F (sub_arr JRHS (mv Asubdiag du))]> dun_dm_v)
    | None => raise TypeError
    end
  else mret (df_dm_v, dun_dm_v).

(** One pass of [for tInd, dt in zip(range(self.nT), self.time_steps)]. *)
Definition Jvec_step (S : Sim) (use_guard : bool) (f : Fields) (v : vec) (tInd : nat)
    (dt : Qc) (loc : option Fact * DerivStore * list vec)
  : M (option Fact * DerivStore * list vec) :=
  let '(Adiaginv, df_dm_v, dun_dm_v) := loc in
  (* Clean current factorization if step length changes *)
  Adiaginv ← match Adiaginv with
             | Some F =>
                 changed ← (if bool_decide (0 < tInd)%nat then
                              prev ← read (λ st, step_at st (Z.of_nat tInd - 1));
                              mret (step_differs dt prev)
                            else mret false);
                 if changed : bool then
                   (if forward_only S then clean F else mret ());;
                   mret None
                 else mret (Some F)
             | None => mret None
             end;
  Adiaginv ← match Adiaginv with
             | Some F => mret (Some F)
             | None =>
                 if forward_only S then
                   A ← read (λ st, getAdiag S st (Z.of_nat tInd));
                   F ← solver (KAdiag tInd) A;
                   mret (Some F)
                 else lookup_cache Ainv dt
             end;
  Asubdiag ← read (λ st, getAsubdiag S st (Z.of_nat tInd));
  '(df_dm_v, dun_dm_v) ←
     M_foldl (Jvec_source S use_guard f v tInd Adiaginv Asubdiag)
             (df_dm_v, dun_dm_v) (imap pair (source_list S));
  mret (Adiaginv, df_dm_v, dun_dm_v).

Fixpoint Jvec_loop (S : Sim) (use_guard : bool) (f : Fields) (v : vec) (tInd : nat)
    (steps : list Qc) (loc : option Fact * DerivStore * list vec)
  : M (option Fact * DerivStore * list vec) :=
  match steps with
  | [] => mret loc
  | dt :: steps' =>
      loc ← Jvec_step S use_guard f v tInd dt loc;
      Jvec_loop S use_guard f v (Datatypes.S tInd) steps' loc
  end.

(** [np.hstack] refuses an empty list of arrays. *)
Definition hstack {A} (l : list (list A)) : Res (list A) :=
  match l with
  | [] => Raise ValueError
  | _ => Ok (concat l)
  end.

(** [np.hstack] of column vectors: the columns side by side. *)
Definition hstack_columns (cols : list vec) : Res (list vec) :=
  match cols with
  | [] => Raise ValueError
  | _ => Ok cols
  end.

Definition Jvec_gen (S : Sim) (use_guard : bool) (m v : vec) (f : option Fields)
  : M (list vec) :=
  f ← match f with
      | None => fields S m
      | Some f => mret f
      end;
  set_model m;;
  dun_dm_v ← read (λ st,
      cols ← res_map (λ src, getInitialFieldsDeriv S st src v) (source_list S);
      hstack_columns cols);
  st ← get;
  '(Adiaginv, df_dm_v, dun_dm_v) ←
     Jvec_loop S use_guard f v 0 (time_steps st) (None, ∅, dun_dm_v);
  match forward_only S, Adiaginv with
  | true, Some F => clean F
  | true, None => raise AttributeError
  | false, _ => mret ()
  end;;
  st ← get;
  read (λ _, hstack
     (mjoin (imap (λ i src,
         (λ rx, rx_evalDeriv rx
                  (store_row df_dm_v i (projField rx +:+ "Deriv")
                             (Datatypes.S (length (time_steps st)))))
         <$> receiver_list src) (source_list S)))).

Definition Jvec (S : Sim) (m v : vec) (f : option Fields) : M (list vec) :=
  Jvec_gen S true m v f.

(** [Jvec] with the test [tInd != len(self.time_steps + 1)] removed. *)
Definition Jvec_unguarded (S : Sim) (m v : vec) (f : option Fields) : M (list vec) :=
  Jvec_gen S false m v f.

(** ** Adjoint sensitivity: [Jtvec] *)

(** [a + x] for an array [x]. *)
Definition add_arr (a : val) (x : vec) : vec :=
  match a with
  | Zero => x
  | Arr y => vadd y x
  end.

(** The block "Compute new factorizations". *)
Definition Jtvec_refactor (S : Sim) : M () :=
  if forward_only S then mret ()
  else
    st ← get;
    match ATinv st with
    | None => raise AttributeError
    | Some d =>
        if existsb (λ kv : Qc * option Fact, bool_decide (kv.2 = None)) d
        then M_iter (factor_step S true) (Np.unique (time_steps st))
        else mret ()
    end.

(** Receiver back-projection for one receiver of source [i]: [row] is
    [df_duT_v[src, ftDeriv, :]], [rest] the part of the data vector not yet
    consumed ([v[src, rx]] is its first [len(rx.times)] blocks). *)
Definition Jtvec_rx (S : Sim) (f : Fields) (n_nodes i : nat)
    (acc : list vec * vec * list vec) (rx : Rx) : Res (list vec * vec * list vec) :=
  let '(row, JTv, rest) := acc in
  let PT_v := rx_evalDeriv_adjoint rx n_nodes (take (length (Pt rx)) rest) in
  '(row, JTv) ← res_foldl (λ (rj : list vec * vec) tInd,
      match fields_Deriv S (projField rx) with
      | Some a =>
          pt ← of_option IndexError (PT_v !! tInd);
          let cur := acc_adj a f tInd i pt in
          old ← of_option IndexError (rj.1 !! tInd);
          Ok (<[tInd := arr_add old cur.1]> rj.1, add_arr cur.2 rj.2)
      | None => Raise TypeError
      end) (row, JTv) (seq 0 n_nodes);
  Ok (row, JTv, drop (length (Pt rx)) rest).

(** The loop "for src in self.survey.source_list" that fills [df_duT_v]. *)
Definition Jtvec_backproject (S : Sim) (st : SimState) (f : Fields) (v : list vec)
    (JTv : vec) : Res (list (list vec) * vec) :=
  let n_nodes := Datatypes.S (length (time_steps st)) in
  '(rows, JTv, _) ← res_foldl (λ (acc : list (list vec) * vec * list vec) isrc,
      let '(rows, JTv, rest) := acc in
      let '(i, src) := isrc in
      let row := replicate (length f) vzero in
      '(row, JTv, rest) ← res_foldl (Jtvec_rx S f n_nodes i) (row, JTv, rest)
                                     (receiver_list src);
      Ok (rows ++ [row], JTv, rest)) ([], JTv, v) (imap pair (source_list S));
  Ok (rows, JTv).

Definition deriv_at (df_duT_v : list (list vec)) (isrc tInd : nat) : Res vec :=
  row ← of_option IndexError (df_duT_v !! isrc);
  of_option IndexError (row !! tInd).

(** Local variables of the back-solve: [AdiagTinv], [Asubdiag] ([None]
    while unbound), [ATinv_df_duT_v], [JTv]. *)
Definition JtLocals : Type := option Fact * option mat * list vec * vec.

(** The body of [for isrc, src in enumerate(...)] inside the back-solve. *)
Definition Jtvec_source (S : Sim) (f : Fields) (df_duT_v : list (list vec)) (tInd : nat)
    (AdiagTinv : option Fact) (Asubdiag : option mat) (acc : list vec * vec)
    (isrc : nat * Src) : M (list vec * vec) :=
  let '(ATinv_df_duT_v, JTv) := acc in
  let '(i, src) := isrc in
  st ← get;
  new ← read (λ _,
      if bool_decide (nT st - 1 ≤ Z.of_nat tInd)%Z then
        x ← deriv_at df_duT_v i (Datatypes.S tInd);
        F ← of_option TypeError AdiagTinv;
        Ok (fact_apply F x)
      else
        x ← deriv_at df_duT_v i (Datatypes.S tInd);
        As ← of_option UnboundLocalError Asubdiag;
        old ← of_option IndexError (ATinv_df_duT_v !! i);
        F ← of_option TypeError AdiagTinv;
        Ok (fact_apply F (vsub x (mv (mT As) old))));
  let ATinv_df_duT_v := <[i := new]> ATinv_df_duT_v in
  u_src ← read (λ _, field_at f tInd i);
  dAsubdiagT_dm_v ← read (λ st, getAsubdiagDeriv S st (Z.of_nat tInd) u_src new true);
  dRHST_dm_v ← read (λ st, getRHSDeriv S st (Z.of_nat tInd + 1) src new true);
  un_src ← read (λ _, field_at f (Datatypes.S tInd) i);
  dAT_dm_v ← read (λ st, getAdiagDeriv S st (Z.of_nat tInd) un_src new true);
  mret (ATinv_df_duT_v,
        arr_add JTv (val_add (val_sub (val_neg dAT_dm_v) dAsubdiagT_dm_v) dRHST_dm_v)).

(** One pass of [for tInd in reversed(range(self.nT))]. *)
Definition Jtvec_step (S : Sim) (f : Fields) (df_duT_v : list (list vec)) (tInd : nat)
    (loc : JtLocals) : M JtLocals :=
  let '(AdiagTinv, Asubdiag, ATinv_df_duT_v, JTv) := loc in
  AdiagTinv ← match AdiagTinv with
              | Some F =>
                  st ← get;
                  changed ← (if bool_decide (Z.of_nat tInd ≤ nT st)%Z then
                               a ← read (λ st, step_at st (Z.of_nat tInd));
                               b ← read (λ st, step_at st (Z.of_nat tInd + 1));
                               mret (step_differs a b)
                             else mret false);
                  if changed : bool then
                    (if forward_only S then clean F else mret ());;
                    mret None
                  else mret (Some F)
              | None => mret None
              end;
  (* refactor if we need to *)
  AdiagTinv ← match AdiagTinv with
              | Some F => mret (Some F)
              | None =>
                  if forward_only S then
                    Adiag ← read (λ st, getAdiag S st (Z.of_nat tInd));
                    F ← solver (KAdiagT tInd) (mT Adiag);
                    mret (Some F)
                  else
                    dt ← read (λ st, step_at st (Z.of_nat tInd));
                    lookup_cache ATinv dt
              end;
  st ← get;
  Asubdiag ← (if bool_decide (Z.of_nat tInd < nT st - 1)%Z then
                A ← read (λ st, getAsubdiag S st (Z.of_nat tInd + 1));
                mret (Some A)
              else mret Asubdiag);
  '(ATinv_df_duT_v, JTv) ←
     M_foldl (Jtvec_source S f df_duT_v tInd AdiagTinv Asubdiag)
             (ATinv_df_duT_v, JTv) (imap pair (source_list S));
  mret (AdiagTinv, Asubdiag, ATinv_df_duT_v, JTv).

(** The part that [BaseTDEMSimulation.Jtvec] and
    [Simulation3DElectricField.Jtvec] have in common (the two texts differ
    only in [Adiag.T.tocsr()] against [Adiag.T], a storage format): from the
    entry of the method to the release of [AdiagTinv]. It returns the
    local variables that the galvanic correction goes on to use. *)
Definition Jtvec_adjoint_pass (S : Sim) (m : vec) (v : list vec) (f : option Fields)
  : M (Fields * list (list vec) * JtLocals) :=
  f ← match f with
      | None => fields S m
      | Some f => mret f
      end;
  set_model m;;
  Jtvec_refactor S;;
  ATinv_df_duT_v ← read (λ _,
      match source_list S with
      | [] => Raise IndexError
      | _ => _ ← field_at f 0 0; Ok (replicate (length (source_list S)) vzero)
      end);
  let JTv := vzero in
  '(df_duT_v, JTv) ← read (λ st, Jtvec_backproject S st f v JTv);
  st ← get;
  '(AdiagTinv, Asubdiag, ATinv_df_duT_v, JTv) ←
     M_foldl (λ loc tInd, Jtvec_step S f df_duT_v tInd loc)
             (None, None, ATinv_df_duT_v, JTv)
             (reverse (seq 0 (length (time_steps st))));
  match AdiagTinv with
  | Some F => if forward_only S then clean F else mret ()
  | None => mret ()
  end;;
  mret (f, df_duT_v, (AdiagTinv, Asubdiag, ATinv_df_duT_v, JTv)).

(** [BaseTDEMSimulation.Jtvec] *)
Definition Jtvec_base (S : Sim) (m : vec) (v : list vec) (f : option Fields) : M vec :=
  '(_, _, (_, _, _, JTv)) ← Jtvec_adjoint_pass S m v f;
  mret JTv.

(** "Treating initial condition when a galvanic source is included": the
    body of the last loop of [Simulation3DElectricField.Jtvec]. *)
Definition Jtvec_galvanic (S : Sim) (f : Fields) (df_duT_v : list (list vec))
    (Asubdiag : option mat) (acc : list vec * vec) (isrc : nat * Src)
  : M (list vec * vec) :=
  let '(ATinv_df_duT_v, JTv) := acc in
  let '(i, src) := isrc in
  if bool_decide (srcType src = galvanic) then
    let Grad := nodal_gradient (mesh S) in
    F ← Adcinv S;
    x ← read (λ _, deriv_at df_duT_v i 0);
    As ← read (λ _, of_option UnboundLocalError Asubdiag);
    old ← read (λ _, of_option IndexError (ATinv_df_duT_v !! i));
    let new := mv Grad (fact_apply F (mv (mT Grad) (vsub x (mv (mT As) old)))) in
    dRHST_dm_v ← read (λ st, getRHSDeriv S st 0 src new true);
    un_src ← read (λ _, field_at f 0 i);
    st ← get;
    let dAT_dm_v := MeSigmaDeriv (props S) (model st) un_src new true in
    mret (<[i := new]> ATinv_df_duT_v,
          arr_add JTv (val_add (val_neg dAT_dm_v) dRHST_dm_v))
  else mret (ATinv_df_duT_v, JTv).

(** [Simulation3DElectricField.Jtvec] *)
Definition Jtvec_e (S : Sim) (m : vec) (v : list vec) (f : option Fields) : M vec :=
  '(f, df_duT_v, (_, Asubdiag, ATinv_df_duT_v, JTv)) ← Jtvec_adjoint_pass S m v f;
  '(_, JTv) ← M_foldl (Jtvec_galvanic S f df_duT_v Asubdiag)
                       (ATinv_df_duT_v, JTv) (imap pair (source_list S));
  mret JTv.

(** Method resolution: only the electric-field class overrides [Jtvec]. *)
Definition Jtvec (S : Sim) (m : vec) (v : list vec) (f : option Fields) : M vec :=
  match cls S with
  | Simulation3DElectricField => Jtvec_e S m v f
  | _ => Jtvec_base S m v f
  end.

(** ** The time loop seen through its operators

    [fields_step_spec] is [fields_step] with every factorization object
    replaced by the operator it factorizes; it neither calls the solver nor
    touches the cache, and loads the operator of the current step whenever
    [fields_step] obtains a factorization. *)

Definition fields_step_spec (S : Sim) (st : SimState) (tInd : nat) (dt : Qc)
    (cur : option mat) (f : Fields) : Res (option mat * Fields) :=
  cur ← match cur with
        | Some A =>
            changed ← (if bool_decide (0 < tInd)%nat then
                         prev ← step_at st (Z.of_nat tInd - 1);
                         Ok (step_changed S dt prev)
                       else Ok false);
            Ok (if changed : bool then None else Some A)
        | None => Ok None
        end;
  A ← match cur with
      | Some A => Ok A
      | None => getAdiag S st (Z.of_nat tInd)
      end;
  rhs ← getRHS S st (Z.of_nat tInd + 1);
  Asubdiag ← getAsubdiag S st (Z.of_nat tInd);
  u ← fields_get f tInd;
  Ok (Some A, <[Datatypes.S tInd := zip_with (λ r u, solve A (vsub r (mv Asubdiag u))) rhs u]> f).

Fixpoint fields_loop_spec (S : Sim) (st : SimState) (tInd : nat) (steps : list Qc)
    (cur : option mat) (f : Fields) : Res (option mat * Fields) :=
  match steps with
  | [] => Ok (cur, f)
  | dt :: steps' =>
      '(cur, f) ← fields_step_spec S st tInd dt cur f;
      fields_loop_spec S st (Datatypes.S tInd) steps' cur f
  end.

(** Forget the identity of the factorization in flight. *)
Definition erase (r : Res (option Fact * Fields)) : Res (option mat * Fields) :=
  match r with
  | Ok (cur, f) => Ok (fmat <$> cur, f)
  | Raise e => Raise e
  end.

(** The cache [d] holds, for every step length in use, a factorization of
    [op] applied to the operator of that step length. *)
Definition cache_holds (S : Sim) (st : SimState) (op : mat → mat) (d : Cache) : Prop :=
  ∀ dt, dt ∈ time_steps st →
    ∃ F, dict_get d dt = Some (Some F) ∧ fmat F = op (Adiag_matrix S st dt).

(** Two states of the object that the formulation methods cannot tell
    apart. *)
Definition same_view (st st' : SimState) : Prop :=
  model st' = model st ∧ time_steps st' = time_steps st.

(** ** What the persistent caches hold *)

(** The factorization that [factor_step] makes for the step length [dt]
    when the solver hands out the identity [id]. *)
Definition new_fact (S : Sim) (st : SimState) (transposed : bool) (id : nat) (dt : Qc)
  : Fact :=
  let tInd := default 0%nat (Np.index dt (time_steps st)) in
  {| fid := id;
     fkind := if transposed then KAdiagT tInd else KAdiag tInd;
     fmat := if transposed then mT (Adiag_matrix S st dt) else Adiag_matrix S st dt |}.

(** One new factorization per key, numbered from [base] on. *)
Definition new_cache (S : Sim) (st : SimState) (transposed : bool) (base : nat)
    (keys : list Qc) : Cache :=
  imap (λ i dt, (dt, Some (new_fact S st transposed (base + i) dt))) keys.

(** The factorizations a cache holds, and the log entries of their making
    and of their release. *)
Definition cache_facts (d : Cache) : list Fact := omap snd d.

Definition factor_events (d : Cache) : list Event :=
  (λ F, EFactor (fkind F) (fid F)) <$> cache_facts d.

Definition clean_events (d : Cache) : list Event :=
  (λ F, EClean (fid F)) <$> cache_facts d.

Definition is_clean (e : Event) : Prop :=
  match e with
  | EClean _ => True
  | EFactor _ _ => False
  end.

(** The caches as [fields] and [Jtvec] leave them and expect to find them:
    they do not exist yet, or they are keyed by the distinct step lengths,
    [Ainv] holds a factorization for each key, and [ATinv] holds either a
    factorization for each key or none at all. *)
Definition cache_wf (st : SimState) : Prop :=
  match Ainv st with
  | None => ATinv st = None
  | Some d =>
      d.*1 = Np.unique (time_steps st)
      ∧ Forall (λ kv, is_Some kv.2) d
      ∧ match ATinv st with
        | None => True
        | Some d' =>
            d'.*1 = Np.unique (time_steps st)
            ∧ (Forall (λ kv, is_Some kv.2) d' ∨ Forall (λ kv, kv.2 = None) d')
        end
  end.

(** Every source has an initial-field accessor for the solved field. *)
Definition sources_have_initial (S : Sim) : Prop :=
  Forall (λ src, is_Some (src_Initial src (_fieldType (cls S)))) (source_list S).

(** ** What one pass of the time loop establishes *)

(** In the fields [f], the columns at node [k + 1] are the solver's answer,
    through the one operator [A], to the right-hand sides
    [RHS(k + 1) - Asubdiag(k) * u_k] of all the sources. *)
Definition step_solved_with (S : Sim) (st : SimState) (f : Fields) (k : nat) (A : mat)
  : Prop :=
  ∃ rhs Asubdiag u,
    getRHS S st (Z.of_nat k + 1) = Ok rhs
    ∧ getAsubdiag S st (Z.of_nat k) = Ok Asubdiag
    ∧ length rhs = length (source_list S)
    ∧ f !! k = Some u
    ∧ f !! Datatypes.S k
      = Some (zip_with (λ r u, solve A (vsub r (mv Asubdiag u))) rhs u).

(** Consecutive step lengths are equal or differ by more than
    [dt_threshold]. *)
Definition steps_separated (S : Sim) (ts : list Qc) : Prop :=
  ∀ k prev dt,
    ts !! k = Some prev → ts !! Datatypes.S k = Some dt →
    step_changed S dt prev = false → dt = prev.

(** What a run of the time loop leaves alone. *)
Definition loop_frame (st st' : SimState) : Prop :=
  same_view st st' ∧ Ainv st' = Ainv st ∧ ATinv st' = ATinv st
  ∧ _Adcinv st' = _Adcinv st.

(** The two columns a source contributes to [s_m] and [s_e]. *)
Definition source_columns (st : SimState) (t : Qc) (src : Src) : vec * vec :=
  let '(smi, sei) := src_eval src (model st) t in
  (arr_add vzero smi, arr_add vzero sei).

(** Any operator may be in flight. *)
Definition any_operator (k : nat) (A : mat) : Prop := True.

(** The factorization in flight at step [k] was obtained at step [j]: the
    loop starts at [j] or the step length changes there by more than
    [dt_threshold], and from [j] to [k] no two consecutive step lengths
    differ by more than [dt_threshold]. *)
Definition run_start (S : Sim) (st : SimState) (j k : nat) : Prop :=
  (j ≤ k)%nat
  ∧ match j with
    | 0%nat => True
    | Datatypes.S j' =>
        ∃ prev dt, time_steps st !! j' = Some prev ∧ time_steps st !! j = Some dt
                   ∧ step_changed S dt prev = true
    end
  ∧ ∀ i prev dt, (j ≤ i < k)%nat →
      time_steps st !! i = Some prev → time_steps st !! Datatypes.S i = Some dt →
      step_changed S dt prev = false.

(** The operator in flight at step [k]: that of the step that starts the
    run of [k]. *)
Definition operator_in_flight (S : Sim) (st : SimState) (k : nat) (A : mat) : Prop :=
  ∃ j, run_start S st j k ∧ getAdiag S st (Z.of_nat j) = Ok A.

(** In the fields [f], the columns at node [k + 1] satisfy the equations
    [A * u_{k+1} = RHS(k + 1) - Asubdiag(k) * u_k], one per source. *)
Definition step_equation (S : Sim) (st : SimState) (f : Fields) (k : nat) (A : mat)
  : Prop :=
  ∃ rhs Asubdiag u u',
    getRHS S st (Z.of_nat k + 1) = Ok rhs
    ∧ getAsubdiag S st (Z.of_nat k) = Ok Asubdiag
    ∧ f !! k = Some u ∧ f !! Datatypes.S k = Some u'
    ∧ length u' = length (source_list S)
    ∧ ∀ i r ui u'i, rhs !! i = Some r → u !! i = Some ui → u' !! i = Some u'i →
        mv A u'i = vsub r (mv Asubdiag ui).

(** What [fields] needs to find: a step to take when the factorization in
    flight is released at the end, caches in order when they persist. *)
Definition fields_ready (S : Sim) (st : SimState) : Prop :=
  if forward_only S then time_steps st ≠ [] else cache_wf st.

(** The step lengths the time loop of [fields] goes through. *)
Definition stepping_steps (S : Sim) (st : SimState) : list Qc :=
  if forward_only S then time_steps st
  else match Ainv st with
       | Some _ => time_steps st
       | None => round_time_steps S (time_steps st)
       end.

(** The laws of the zero array that the array library and a direct solver
    obey. *)
Definition zero_laws : Prop :=
  vadd vzero vzero = vzero ∧ vsub vzero vzero = vzero
  ∧ (∀ q, vscale q vzero = vzero) ∧ (∀ A, mv A vzero = vzero)
  ∧ (∀ A, solve A vzero = vzero).

Definition is_zero (a : val) : Prop := a = Zero ∨ a = Arr vzero.

(** Every source term and every initial field is zero. *)
Definition silent (S : Sim) : Prop :=
  Forall (λ src,
    (∀ m t, is_zero (src_eval src m t).1 ∧ is_zero (src_eval src m t).2)
    ∧ ∀ init m, src_Initial src (_fieldType (cls S)) = Some init → is_zero (init m))
    (source_list S).

(** Once [_Adcinv] is set, the galvanic correction leaves the object as it
    is. *)
Definition Adc_settled : relation SimState :=
  λ st st', is_Some (_Adcinv st) → st' = st.

(** No factorization of the steady-state operator is made. *)
Definition no_Adc_factor (e : Event) : Prop :=
  match e with
  | EFactor KAdc _ => False
  | _ => True
  end.

(** ** Frame conditions

    [respects R c]: running [c] moves the object from a state to an
    [R]-related one, whether or not [c] raises. *)

Definition respects (R : relation SimState) {A} (c : M A) : Prop :=
  ∀ st, R st (c st).2.

(** The step lengths are not reassigned. *)
Definition same_steps : relation SimState :=
  λ st st', time_steps st' = time_steps st.

(** The solver log grows by events that satisfy [P]. *)
Definition log_extends (P : Event → Prop) : relation SimState :=
  λ st st', ∃ evs, solver_log st' = solver_log st ++ evs ∧ Forall P evs.

End WithLinAlg.

(** ** A one-cell instance

    Every array has one entry and every operator is a 1 x 1 matrix over
    [Qc]; the solver divides. The conductivity is the model parameter:
    [MeSigma = m], [MeSigmaI = 1/m], [MfRho = 1/m], [MfRhoI = m], the
    magnetic mass matrices are 1. It is the stage for the concrete runs. *)

Module Scalar.

#[export] Instance QcLA : LinAlg := {|
  vec := Qc; mat := Qc;
  vzero := 0; vadd := Qcplus; vsub := Qcminus; vneg := Qcopp; vscale := Qcmult;
  mT := id; madd := Qcplus; mmul := Qcmult; mscale := Qcmult; mv := Qcmult;
  mbump00 := λ a, a + 1;
  solve := λ A b, b / A
|}.

(** Inner product of two one-entry arrays. *)
Definition dot (x y : Qc) : Qc := x * y.

Definition mesh1 (curl : Qc) : Mesh := {|
  edge_curl := curl; nodal_gradient := 1; face_divergence := 1;
  sdiag_cell_volumes := 1; eye_faces := 1
|}.

Definition sigma (m : option Qc) : Qc := default 1 m.

Definition props1 : PhysProps := {|
  MeSigma := sigma;
  MeSigmaI := λ m, / sigma m;
  MfMui := λ _, 1;
  MfRho := λ m, / sigma m;
  MfRhoI := sigma;
  MeMu := λ _, 1;
  MeMuI := λ _, 1;
  MeSigmaDeriv := λ _ u v _, Arr (u * v);
  MeSigmaIDeriv := λ m u v _, Arr (- (u * v) / (sigma m * sigma m));
  MfRhoDeriv := λ m u v _, Arr (- (u * v) / (sigma m * sigma m))
|}.

(** A point receiver of the solved field with the given time projection. *)
Definition rx1 (c : Formulation) (pt : list (list Qc)) : Rx :=
  {| projField := _fieldType c; Ps := 1; Pt := pt |}.

(** A source with initial field [u0], no source term, and one receiver. *)
Definition src1 (c : Formulation) (ty : SrcType) (u0 : Qc) (pt : list (list Qc)) : Src := {|
  srcType := ty;
  receiver_list := [rx1 c pt];
  src_eval := λ _ _, (Zero, Zero);
  src_evalDeriv := λ _ _ _, (λ _, Zero, λ _, Zero);
  src_Initial := λ _, Some (λ _, Arr u0);
  src_InitialDeriv := λ _, Some (λ _ _, Zero)
|}.

(** The solved field is its own projected field: the accessor is the
    identity on the field derivative and has no direct model part. *)
Definition identity_accessor : Accessor := {|
  acc_fwd := λ _ _ _ du _, Arr du;
  acc_adj := λ _ _ _ w, (Arr w, Zero)
|}.

Definition sim1 (c : Formulation) (curl : Qc) (fo : bool) (thr : Qc) (srcs : list Src)
  : Sim := {|
  cls := c; mesh := mesh1 curl; props := props1; _makeASymmetric := false;
  forward_only := fo; dt_threshold := thr; t0 := 0; source_list := srcs;
  fields_Deriv := λ name, if decide (name = _fieldType c) then Some identity_accessor
                          else None
|}.

(** A simulation object on which no method has run yet. *)
Definition new_state (steps : list Qc) : SimState := {|
  model := None; time_steps := steps; Ainv := None; ATinv := None;
  _Adcinv := None; solver_log := []
|}.

Definition half : Qc := Q2Qc (1 # 2).
Definition three_halves : Qc := Q2Qc (3 # 2).

(** One source with one receiver whose only time channel reads the node
    [node] of a time mesh with [n] steps ([Pt] has a single row, zero
    except for a one in column [node]). *)
Definition reads_node (n node : nat) : list (list Qc) :=
  [(λ t, if decide (t = node) then 1 else 0) <$> seq 0 (Datatypes.S n)].

Definition survey1 (c : Formulation) (ty : SrcType) (n node : nat) : list Src :=
  [src1 c ty 1 (reads_node n node)].

(** The default threshold of the constructor, [1e-10], and two step
    lengths [1e-5] and [1e-5 + 5e-11] less than the threshold apart. *)
Definition thr_default : Qc := Q2Qc (1 # 10000000000).
Definition dt_a : Qc := Q2Qc (1 # 100000).
Definition dt_b : Qc := Q2Qc (1 # 100000) + Q2Qc (5 # 100000000000).

End Scalar.

(** * Further properties of the code: vocabulary *)

(** ** Adjoint pairs

    The derivative methods come in pairs: with [adjoint=False] they map a
    model-space vector to a field-space one, with [adjoint=True] they go
    the other way. [dot] is the inner product of the array library. *)

Section AdjointPairs.
Context `{LA : LinAlg}.

Definition inner_product (dot : vec → vec → Qc) : Prop :=
  (∀ x y, dot x y = dot y x)
  ∧ (∀ x y z, dot (vadd x y) z = dot x z + dot y z)
  ∧ (∀ q x y, dot (vscale q x) y = q * dot x y)
  ∧ (∀ A x y, dot (mv A x) y = dot x (mv (mT A) y))
  ∧ (∀ A B x, mv (mmul A B) x = mv A (mv B x)).

(** The inner product with a value that may be the [Zero] sentinel. *)
Definition dot_val (dot : vec → vec → Qc) (a : val) (y : vec) : Qc :=
  match a with
  | Zero => 0
  | Arr x => dot x y
  end.

(** The derivatives of the mass matrices are adjoint pairs. *)
Definition derivs_adjoint (dot : vec → vec → Qc) (P : PhysProps) : Prop :=
  ∀ m u v w,
    dot_val dot (MeSigmaDeriv P m u v false) w = dot_val dot (MeSigmaDeriv P m u w true) v
    ∧ dot_val dot (MeSigmaIDeriv P m u v false) w
      = dot_val dot (MeSigmaIDeriv P m u w true) v
    ∧ dot_val dot (MfRhoDeriv P m u v false) w = dot_val dot (MfRhoDeriv P m u w true) v.

(** The derivatives of the source terms are adjoint pairs. *)
Definition source_adjoint (dot : vec → vec → Qc) (src : Src) : Prop :=
  ∀ m t v w,
    dot_val dot ((src_evalDeriv src m t false).1 v) w
    = dot_val dot ((src_evalDeriv src m t true).1 w) v
    ∧ dot_val dot ((src_evalDeriv src m t false).2 v) w
      = dot_val dot ((src_evalDeriv src m t true).2 w) v.

(** A method called with [adjoint=False] on [v] and with [adjoint=True] on
    [w]: the two calls fail together, with the same exception, or return
    [a] and [b] with [<a, w> = <b, v>]. *)
Definition adjoint_results (dot : vec → vec → Qc) (fwd adj : Res val) (v w : vec)
  : Prop :=
  match fwd, adj with
  | Ok a, Ok b => dot_val dot a w = dot_val dot b v
  | Raise e, Raise e' => e = e'
  | _, _ => False
  end.

End AdjointPairs.

(** ** The solver log of a forward-only run *)

Section SolverLog.
Context `{LA : LinAlg}.

(** Step [k] starts a run: it is the first step, or its length differs
    from the one before by more than [dt_threshold]. *)
Definition starts_run (S : Sim) (ts : list Qc) (k : nat) : bool :=
  match k with
  | 0%nat => true
  | Datatypes.S k' =>
      match ts !! k', ts !! k with
      | Some prev, Some dt => step_changed S dt prev
      | _, _ => false
      end
  end.

Definition run_starts (S : Sim) (ts : list Qc) (from n : nat) : list nat :=
  filter (λ k, starts_run S ts k = true) (seq from n).

(** One factorization per run, released before the next one is made; the
    solver numbers them [base], [base + 2], ... *)
Fixpoint forward_events (base : nat) (starts : list nat) : list Event :=
  match starts with
  | [] => []
  | j :: rest => EFactor (KAdiag j) base :: EClean base :: forward_events (base + 2) rest
  end.

(** The release of the factorization in flight, if there is one. *)
Definition release_events (cur : option Fact) : list Event :=
  match cur with
  | Some F => [EClean (fid F)]
  | None => []
  end.

End SolverLog.

(** ** What the sensitivities leave alone when factorizations persist *)

Section Kept.
Context `{LA : LinAlg}.

(** No factorization of a direct per-step operator is made. *)
Definition no_direct_factor (e : Event) : Prop :=
  match e with
  | EFactor (KAdiag _) _ => False
  | _ => True
  end.

(** The step lengths and the cache [Ainv] stay as they are, and the solver
    is not asked for a direct per-step factorization. *)
Definition Ainv_kept : relation SimState :=
  λ st st', time_steps st' = time_steps st ∧ Ainv st' = Ainv st
            ∧ log_extends no_direct_factor st st'.

(** Both caches stay as they are and the solver is not called; the only
    events are releases. *)
Definition caches_kept : relation SimState :=
  λ st st', time_steps st' = time_steps st ∧ Ainv st' = Ainv st
            ∧ ATinv st' = ATinv st ∧ log_extends is_clean st st'.

End Kept.

(** Every source has an initial-field derivative for the solved field. *)
Definition sources_have_initial_deriv `{LA : LinAlg} (S : Sim) : Prop :=
  Forall (λ src, is_Some (src_InitialDeriv src (_fieldType (cls S)))) (source_list S).

(** The number of data blocks of the survey: one per time channel of
    every receiver of every source. *)
Definition nD `{LA : LinAlg} (S : Sim) : nat :=
  list_sum ((λ src, list_sum ((λ rx, length (Pt rx)) <$> receiver_list src))
            <$> source_list S).

(** ** [getAdcDeriv]

    The derivative of the steady-state operator; the magnetic-flux-density
    class has no such method. [MfRhoIDeriv] is a collaborator like the other
    derivatives of the mass matrices. *)
Definition getAdcDeriv `{LA : LinAlg} (S : Sim)
    (MfRhoIDeriv : option vec → vec → vec → bool → val) (st : SimState) (u v : vec)
    (adjoint : bool) : Res val :=
  let m := model st in
  match cls S with
  | Simulation3DMagneticFluxDensity => Raise AttributeError
  | Simulation3DElectricField =>
      let Grad := nodal_gradient (mesh S) in
      if negb adjoint
      then Ok (val_mv (mT Grad) (MeSigmaDeriv (props S) m (vneg u) v adjoint))
      else Ok (MeSigmaDeriv (props S) m (vneg u) (mv Grad v) adjoint)
  | Simulation3DMagneticField | Simulation3DCurrentDensity =>
      let D := mmul (sdiag_cell_volumes (mesh S)) (face_divergence (mesh S)) in
      let G := mT D in
      if adjoint then Ok (MfRhoIDeriv m (mv G u) (mv G v) true)
      else Ok (val_mv D (MfRhoIDeriv m (mv G u) v false))
  end.

(** ** Inner product of block vectors *)

Definition qsum (l : list Qc) : Qc := foldr Qcplus 0 l.

(** The inner product of two vectors given by their blocks. *)
Definition dots `{LA : LinAlg} (dot : vec → vec → Qc) (xs ys : list vec) : Qc :=
  qsum (zip_with dot xs ys).

(** ** The solver log of a forward-only [Jvec] *)

Section SolverLogExact.
Context `{LA : LinAlg}.

(** Step [k] starts a run of equal step lengths: it is the first step, or
    its length is not equal to the one before. *)
Definition starts_run_exact (ts : list Qc) (k : nat) : bool :=
  match k with
  | 0%nat => true
  | Datatypes.S k' =>
      match ts !! k', ts !! k with
      | Some prev, Some dt => step_differs dt prev
      | _, _ => false
      end
  end.

Definition run_starts_exact (ts : list Qc) (from n : nat) : list nat :=
  filter (λ k, starts_run_exact ts k = true) (seq from n).

(** The object is left exactly as it was. *)
Definition unchanged : relation SimState := λ st st', st' = st.

(** Step [k] ends a run of equal step lengths: it is the last step, or its
    length is not equal to the one after. *)
Definition ends_run_exact (ts : list Qc) (k : nat) : bool :=
  match ts !! k, ts !! Datatypes.S k with
  | Some dt, Some next => step_differs dt next
  | Some _, None => true
  | None, _ => false
  end.

Definition run_ends_exact (ts : list Qc) (from n : nat) : list nat :=
  filter (λ k, ends_run_exact ts k = true) (seq from n).

(** One factorization of the transposed operator per run, made at the
    step the back-solve meets first, released before the next one. *)
Fixpoint backward_events (base : nat) (ends : list nat) : list Event :=
  match ends with
  | [] => []
  | j :: rest => EFactor (KAdiagT j) base :: EClean base :: backward_events (base + 2) rest
  end.

End SolverLogExact.

(** ** Receivers: the stored projections ([BaseRx.getP])

    [self._Ps] is a dict keyed by the pair [(mesh, time_mesh)] (objects,
    compared by identity: here their identities are numbers);
    [self.storeProjections] says whether a new projection is stored. The
    projection itself, [sp.kron(self.getTimeP(time_mesh, f),
    self.getSpatialP(mesh, f))], is the collaborator [project]; it depends
    on the fields object [f] through [f._TLoc] and [f._GLoc]. *)

Module RxP.

Record Receiver (P : Type) := {
  storeProjections : bool;
  _Ps : gmap (nat * nat) P
}.
Arguments storeProjections {P} _.
Arguments _Ps {P} _.

Definition getP {P F : Type} (project : nat → nat → F → P) (mesh time_mesh : nat) (f : F)
    (rx : Receiver P) : P * Receiver P :=
  match _Ps rx !! (mesh, time_mesh) with
  | Some P0 => (P0, rx)
  | None =>
      let P1 := project mesh time_mesh f in
      if storeProjections rx
      then (P1, {| storeProjections := storeProjections rx;
                   _Ps := <[(mesh, time_mesh) := P1]> (_Ps rx) |})
      else (P1, rx)
  end.

End RxP.

(** ** What [Jvec] needs in order to return *)

Section JvecNeeds.
Context `{LA : LinAlg}.

(** The fields object has a derivative accessor for the field every
    receiver projects. *)
Definition accessors_defined (S : Sim) : Prop :=
  Forall (λ src, Forall (λ rx, is_Some (fields_Deriv S (projField rx)))
                        (receiver_list src))
         (source_list S).

(** The fields [f] have the shape [fields] gives them: one entry per node
    of the time mesh, one column per source in each. *)
Definition fields_shaped (S : Sim) (st : SimState) (f : Fields) : Prop :=
  length f = Datatypes.S (length (time_steps st))
  ∧ Forall (λ cols, length cols = length (source_list S)) f.

(** The rows of [df_duT_v]: one per source, one entry per node. *)
Definition rows_shaped (S : Sim) (st : SimState) (rows : list (list vec)) : Prop :=
  length rows = length (source_list S)
  ∧ Forall (λ row, length row = Datatypes.S (length (time_steps st))) rows.

(** Some source has a receiver. *)
Definition has_receiver (S : Sim) : Prop :=
  Exists (λ src, receiver_list src ≠ []) (source_list S).

End JvecNeeds.

(** ** Fields containers of the one-cell instance

    [fields3]: three time nodes, one source, every entry 1; [fields0]: two
    time nodes, no source. *)
Definition fields3 : list (list Qc) := (1 :: []) :: (1 :: []) :: (1 :: []) :: [].
Definition fields0 : list (list Qc) := [] :: [] :: [].

(** * Lemmas *)

Section Frame.
Context `{LA : LinAlg} (R : relation SimState) `{!PreOrder R}.

Lemma respects_ret {A} (a : A) : respects R (mret a).
Proof. intros st. simpl. reflexivity. Qed.

Lemma respects_raise {A} e : respects R (raise (A:=A) e).
Proof. intros st. simpl. reflexivity. Qed.

Lemma respects_get : respects R get.
Proof. intros st. simpl. reflexivity. Qed.

Lemma respects_read {A} (r : SimState → Res A) : respects R (read r).
Proof. intros st. simpl. reflexivity. Qed.

Lemma respects_bind {A B} (c : M A) (k : A → M B) :
  respects R c → (∀ a, respects R (k a)) → respects R (c ≫= k).
Proof.
  intros Hc Hk st. unfold mbind, M_bind. specialize (Hc st).
  destruct (c st) as [[a|e] st1]; simpl in *; [|done].
  etrans; [exact Hc|apply Hk].
Qed.

Lemma respects_try {A} (body handler : M A) :
  respects R body → respects R handler →
  respects R (try_except_AttributeError body handler).
Proof.
  intros Hb Hh st. unfold try_except_AttributeError. specialize (Hb st).
  destruct (body st) as [[a|e] st1]; simpl in *; [done|].
  destruct e; simpl; try done. etrans; [exact Hb|apply Hh].
Qed.

Lemma respects_M_map {A B} (g : A → M B) l :
  (∀ x, respects R (g x)) → respects R (M_map g l).
Proof.
  intros Hg. induction l as [|x l IH]; simpl.
  - apply respects_ret.
  - apply respects_bind; [done|]. intros y.
    apply respects_bind; [done|]. intros ys. apply respects_ret.
Qed.

Lemma respects_M_iter {A} (g : A → M ()) l :
  (∀ x, respects R (g x)) → respects R (M_iter g l).
Proof.
  intros Hg. induction l as [|x l IH]; simpl.
  - apply respects_ret.
  - apply respects_bind; [done|]. intros _. done.
Qed.

Lemma respects_M_foldl {A B} (g : B → A → M B) l acc :
  (∀ b x, respects R (g b x)) → respects R (M_foldl g acc l).
Proof.
  intros Hg. revert acc. induction l as [|x l IH]; intros acc; simpl.
  - apply respects_ret.
  - apply respects_bind; [done|]. intros b. apply IH.
Qed.

(** Two continuations that agree on every state the first computation can
    lead to give the same run. *)
Lemma bind_ext_respects {A B} (c : M A) (k1 k2 : A → M B) st :
  respects R c →
  (∀ a st', R st st' → k1 a st' = k2 a st') →
  (c ≫= k1) st = (c ≫= k2) st.
Proof.
  intros Hc Hk. unfold mbind, M_bind. specialize (Hc st).
  destruct (c st) as [[a|e] st1]; simpl in *; [|done]. by apply Hk.
Qed.

End Frame.

(** *** The step lengths are only reassigned by [store_factorizations] *)

Section SameSteps.
Context `{LA : LinAlg}.

Global Instance same_steps_preorder : PreOrder same_steps.
Proof.
  split; [done|]. intros x y z Hxy Hyz. unfold same_steps in *. congruence.
Qed.

Lemma same_steps_solver k A : respects same_steps (solver k A).
Proof. done. Qed.

Lemma same_steps_clean F : respects same_steps (clean F).
Proof. done. Qed.

Lemma same_steps_modify g :
  (∀ st, time_steps (g st) = time_steps st) → respects same_steps (modify g).
Proof. intros Hg st. apply Hg. Qed.

End SameSteps.

Ltac frame_class :=
  lazymatch goal with
  | |- PreOrder _ => apply _
  end.

Ltac frame_step :=
  lazymatch goal with
  | |- respects _ (@mbind _ _ _ _ _ _) =>
      apply respects_bind; try frame_class; [|intros ?]
  | |- respects _ (@mret _ _ _ _) => apply respects_ret; try frame_class
  | |- respects _ (raise _) => apply respects_raise; try frame_class
  | |- respects _ (read _) => apply respects_read; try frame_class
  | |- respects _ get => apply respects_get; try frame_class
  | |- respects _ (M_map _ _) => apply respects_M_map; try frame_class; intros ?
  | |- respects _ (M_iter _ _) => apply respects_M_iter; try frame_class; intros ?
  | |- respects _ (M_foldl _ _ _) =>
      apply respects_M_foldl; try frame_class; intros ? ?
  | |- respects _ (try_except_AttributeError _ _) =>
      apply respects_try; try frame_class
  | |- respects same_steps (solver _ _) => apply same_steps_solver
  | |- respects same_steps (clean _) => apply same_steps_clean
  | |- respects same_steps (modify _) => apply same_steps_modify; done
  | |- respects _ (match ?x with _ => _ end) => destruct x
  end.

Ltac frame := repeat frame_step.

Section Guard.
Context `{LA : LinAlg}.

Lemma same_steps_lookup_cache sel dt : respects same_steps (lookup_cache sel dt).
Proof. unfold lookup_cache. frame. Qed.

Lemma same_steps_set_model m : respects same_steps (set_model m).
Proof. unfold set_model. frame. Qed.

Lemma same_steps_Jvec_source S g f v tInd Ad As acc isrc :
  respects same_steps (Jvec_source S g f v tInd Ad As acc isrc).
Proof. unfold Jvec_source. frame. Qed.

Lemma same_steps_Jvec_step S g f v tInd dt loc :
  respects same_steps (Jvec_step S g f v tInd dt loc).
Proof.
  unfold Jvec_step. frame; try apply same_steps_lookup_cache.
  apply same_steps_Jvec_source.
Qed.

End Guard.

Section GuardProofs.
Context `{LA : LinAlg}.

Lemma Jvec_guard_in_range st tInd :
  (tInd < length (time_steps st))%nat → Jvec_guard st tInd = true.
Proof.
  intros Hlt. unfold Jvec_guard. rewrite length_fmap.
  rewrite bool_decide_eq_false_2 by lia. done.
Qed.

Lemma bind_ext {A B} (c : M A) (k1 k2 : A → M B) st :
  (∀ a st', k1 a st' = k2 a st') → (c ≫= k1) st = (c ≫= k2) st.
Proof.
  intros Hk. unfold mbind, M_bind. destruct (c st) as [[a|e] st1]; [apply Hk|done].
Qed.

Lemma M_foldl_ext_same_steps {A B} (g1 g2 : B → A → M B) l acc st :
  (∀ b x, respects same_steps (g1 b x)) →
  (∀ b x st', same_steps st st' → g1 b x st' = g2 b x st') →
  M_foldl g1 acc l st = M_foldl g2 acc l st.
Proof.
  intros Hr Hg. revert acc st Hg.
  induction l as [|x l IH]; intros acc st Hg; simpl; [done|].
  pose proof (Hr acc x st) as Hst. unfold mbind, M_bind.
  rewrite <- (Hg acc x st) by done.
  destruct (g1 acc x st) as [[b|e] st1]; simpl in *; [|done].
  apply IH. intros b' x' st' Hst'. apply Hg. by etrans.
Qed.

Ltac guard_ext :=
  apply (bind_ext_respects same_steps);
  [ frame |
    let H := fresh in
    intros ? ? H; unfold same_steps in H; rewrite <- H in *; clear H ].

Lemma Jvec_source_guard S f v tInd Ad As acc isrc st :
  (tInd < length (time_steps st))%nat →
  Jvec_source S true f v tInd Ad As acc isrc st
  = Jvec_source S false f v tInd Ad As acc isrc st.
Proof.
  intros Hlt. unfold Jvec_source. destruct acc as [df du], isrc as [i src].
  do 6 guard_ext.
  unfold mbind, M_bind, get. rewrite Jvec_guard_in_range by done. done.
Qed.

Lemma Jvec_step_guard S f v tInd dt loc st :
  (tInd < length (time_steps st))%nat →
  Jvec_step S true f v tInd dt loc st = Jvec_step S false f v tInd dt loc st.
Proof.
  intros Hlt. unfold Jvec_step. destruct loc as [[Ad df] du].
  guard_ext.
  guard_ext; [by apply same_steps_lookup_cache|].
  guard_ext.
  unfold mbind, M_bind.
  rewrite (M_foldl_ext_same_steps _ (Jvec_source S false f v tInd a0 a1)); [done|..].
  - intros. apply same_steps_Jvec_source.
  - intros b x st2 Hst2. apply Jvec_source_guard. unfold same_steps in Hst2. congruence.
Qed.

Lemma Jvec_loop_guard S f v steps tInd loc st :
  (tInd + length steps ≤ length (time_steps st))%nat →
  Jvec_loop S true f v tInd steps loc st = Jvec_loop S false f v tInd steps loc st.
Proof.
  revert tInd loc st. induction steps as [|dt steps IH]; intros tInd loc st Hle; [done|].
  simpl in *. rewrite (bind_ext_respects same_steps _ _
    (λ loc, Jvec_loop S false f v (Datatypes.S tInd) steps loc)).
  - unfold mbind, M_bind. rewrite Jvec_step_guard by lia. done.
  - intros st1. apply same_steps_Jvec_step.
  - intros loc' st' Hst'. apply IH. unfold same_steps in Hst'. rewrite Hst'. lia.
Qed.

Lemma Jvec_gen_guard S m v f st : Jvec_gen S true m v f st = Jvec_gen S false m v f st.
Proof.
  unfold Jvec_gen. do 3 (apply bind_ext; intros ? ?).
  unfold mbind, M_bind, get. by rewrite Jvec_loop_guard by (simpl; lia).
Qed.

End GuardProofs.

(** ** Facts about the Python and numpy primitives *)

Section Primitives.

Lemma py_index_in_range {A} (l : list A) (i : nat) :
  (i < length l)%nat → py_index l (Z.of_nat i) = l !! i.
Proof.
  intros Hlt. unfold py_index. rewrite bool_decide_eq_true_2 by lia.
  by rewrite Nat2Z.id.
Qed.

Lemma py_index_in_range_Some {A} (l : list A) (i : nat) :
  (i < length l)%nat → ∃ x, py_index l (Z.of_nat i) = Some x ∧ l !! i = Some x.
Proof.
  intros Hlt. rewrite py_index_in_range by done.
  destruct (lookup_lt_is_Some_2 l i Hlt) as [x Hx]. eauto.
Qed.

Lemma py_index_minus_one {A} (l : list A) :
  (0 < length l)%nat → is_Some (py_index l (-1)).
Proof.
  intros Hlt. unfold py_index. rewrite bool_decide_eq_false_2 by lia.
  rewrite bool_decide_eq_true_2 by lia. apply lookup_lt_is_Some_2. lia.
Qed.

Lemma Qc_eqb_eq (x y : Qc) : Np.Qc_eqb x y = true ↔ x = y.
Proof.
  unfold Np.Qc_eqb. rewrite Qeq_bool_iff. split.
  - apply Qc_is_canon.
  - by intros ->.
Qed.

Lemma Qc_eqb_refl (x : Qc) : Np.Qc_eqb x x = true.
Proof. by apply Qc_eqb_eq. Qed.

Lemma Qc_eqb_neq (x y : Qc) : Np.Qc_eqb x y = false ↔ x ≠ y.
Proof. rewrite <- Qc_eqb_eq. destruct (Np.Qc_eqb x y); split; congruence. Qed.

Lemma Qc_ltb_lt (x y : Qc) : Np.Qc_ltb x y = true ↔ (x < y)%Qc.
Proof.
  unfold Np.Qc_ltb. rewrite negb_true_iff. split.
  - intros H. apply Qcnot_le_lt. intros Hle. apply Qle_bool_iff in Hle. congruence.
  - intros Hlt. destruct (Qle_bool y x) eqn:E; [|done].
    apply Qle_bool_iff in E. by apply Qclt_not_le in Hlt.
Qed.

Lemma index_Some (x : Qc) (l : list Qc) :
  x ∈ l → ∃ i, Np.index x l = Some i ∧ l !! i = Some x.
Proof.
  induction l as [|y l IH]; intros Hin; [by apply elem_of_nil in Hin|].
  simpl. destruct (Np.Qc_eqb x y) eqn:E.
  - apply Qc_eqb_eq in E as ->. by exists 0%nat.
  - apply Qc_eqb_neq in E. apply elem_of_cons in Hin as [?|Hin]; [done|].
    destruct (IH Hin) as (i & -> & Hi). by exists (Datatypes.S i).
Qed.

Lemma elem_of_insert_sorted (x y : Qc) (l : list Qc) :
  y ∈ Np.insert_sorted x l ↔ y = x ∨ y ∈ l.
Proof.
  induction l as [|z l IH]; simpl.
  - rewrite list_elem_of_singleton, elem_of_nil. tauto.
  - destruct (Np.Qc_eqb x z) eqn:E.
    + apply Qc_eqb_eq in E as ->. rewrite elem_of_cons. tauto.
    + destruct (Np.Qc_ltb x z); rewrite !elem_of_cons; [done|].
      rewrite IH. tauto.
Qed.

Lemma elem_of_unique (y : Qc) (l : list Qc) : y ∈ Np.unique l ↔ y ∈ l.
Proof.
  unfold Np.unique. induction l as [|x l IH]; simpl; [done|].
  rewrite elem_of_insert_sorted, elem_of_cons, IH. done.
Qed.

Lemma insert_sorted_sorted (x : Qc) (l : list Qc) :
  StronglySorted Qclt l → StronglySorted Qclt (Np.insert_sorted x l).
Proof.
  induction 1 as [|z l Hs IH Hz]; simpl.
  - repeat constructor.
  - destruct (Np.Qc_eqb x z) eqn:E; [by constructor|].
    destruct (Np.Qc_ltb x z) eqn:E2.
    + apply Qc_ltb_lt in E2. constructor; [by constructor|].
      constructor; [done|]. eapply Forall_impl; [exact Hz|].
      intros w Hw. simpl in Hw. by etrans.
    + constructor; [done|]. apply Forall_forall. intros w Hw.
      apply elem_of_insert_sorted in Hw as [->|Hw].
      * apply Qc_eqb_neq in E.
        destruct (Qclt_le_dec z x) as [?|Hle]; [done|].
        apply Qcle_lt_or_eq in Hle as [Hlt|?]; [|done].
        apply Qc_ltb_lt in Hlt. congruence.
      * by eapply Forall_forall in Hz.
Qed.

Lemma unique_sorted (l : list Qc) : StronglySorted Qclt (Np.unique l).
Proof.
  unfold Np.unique. induction l; simpl; [constructor|by apply insert_sorted_sorted].
Qed.

Lemma unique_NoDup (l : list Qc) : NoDup (Np.unique l).
Proof.
  pose proof (unique_sorted l) as Hs.
  induction Hs as [|x k Hs IH Hx]; constructor; [|done].
  intros Hin. eapply Forall_forall in Hx; [|done].
  by apply Qclt_not_eq in Hx.
Qed.

End Primitives.

(** ** The formulation methods read the model and the step lengths only *)

Section View.
Context `{LA : LinAlg}.

Global Instance same_view_preorder : PreOrder same_view.
Proof.
  split; [done|]. intros x y z [? ?] [? ?]. split; congruence.
Qed.

Ltac view_tac st st' H :=
  destruct H as [Hm Ht]; destruct st, st'; simpl in *; subst; reflexivity.

Lemma getAdiag_view S st st' tInd :
  same_view st st' → getAdiag S st' tInd = getAdiag S st tInd.
Proof. intros H. view_tac st st' H. Qed.

Lemma Adiag_matrix_view S st st' dt :
  same_view st st' → Adiag_matrix S st' dt = Adiag_matrix S st dt.
Proof. intros H. view_tac st st' H. Qed.

Lemma getAsubdiag_view S st st' tInd :
  same_view st st' → getAsubdiag S st' tInd = getAsubdiag S st tInd.
Proof. intros H. view_tac st st' H. Qed.

Lemma getRHS_view S st st' tInd :
  same_view st st' → getRHS S st' tInd = getRHS S st tInd.
Proof. intros H. view_tac st st' H. Qed.

Lemma step_at_view st st' tInd :
  same_view st st' → step_at st' tInd = step_at st tInd.
Proof. intros H. view_tac st st' H. Qed.

Lemma getInitialFields_view S st st' :
  model st' = model st → getInitialFields S st' = getInitialFields S st.
Proof. intros H. unfold getInitialFields. by rewrite H. Qed.

Lemma fields_step_spec_view S st st' tInd dt cur f :
  same_view st st' →
  fields_step_spec S st' tInd dt cur f = fields_step_spec S st tInd dt cur f.
Proof. intros H. view_tac st st' H. Qed.

Lemma fields_loop_spec_view S st st' tInd steps cur f :
  same_view st st' →
  fields_loop_spec S st' tInd steps cur f = fields_loop_spec S st tInd steps cur f.
Proof.
  intros H. revert tInd cur f. induction steps as [|dt steps IH]; intros; simpl; [done|].
  rewrite (fields_step_spec_view _ _ _ _ _ _ _ H).
  destruct (fields_step_spec S st tInd dt cur f) as [[c f']|]; simpl; [apply IH|done].
Qed.

End View.

(** ** The time loop of [fields] refines [fields_loop_spec] *)

Section Refinement.
Context `{LA : LinAlg}.

Global Instance loop_frame_preorder : PreOrder loop_frame.
Proof.
  split; [done|]. intros x y z (Hv & ? & ? & ?) (Hv' & ? & ? & ?).
  split; [by etrans|]. repeat split; congruence.
Qed.

Ltac run_M :=
  unfold lookup_cache;
  unfold mbind, M_bind, read, get, raise, mret, M_ret, modify, solver, clean; simpl.

Lemma with_log_view l st : same_view st (with_log l st).
Proof. done. Qed.

Ltac case_inner :=
  match goal with
  | |- context [match ?x with _ => _ end] =>
      lazymatch x with
      | context [match _ with _ => _ end] => fail
      | _ => destruct x eqn:?; simpl
      end
  end.

Ltac norm_view :=
  rewrite ?(getRHS_view _ _ _ _ (with_log_view _ _)),
          ?(getAsubdiag_view _ _ _ _ (with_log_view _ _)),
          ?(getAdiag_view _ _ _ _ (with_log_view _ _)),
          ?(step_at_view _ _ _ (with_log_view _ _)).

Lemma fields_step_forward S tInd dt cur f st :
  forward_only S = true →
  loop_frame st (fields_step S tInd dt cur f st).2
  ∧ erase (fields_step S tInd dt cur f st).1
    = fields_step_spec S st tInd dt (fmat <$> cur) f.
Proof.
  intros Hfo. unfold fields_step, fields_step_spec. rewrite Hfo. run_M.
  unfold mbind, Res_bind, res_bind.
  destruct cur as [F|]; simpl.
  - destruct (bool_decide (0 < tInd)%nat); simpl.
    + destruct (step_at st (Z.of_nat tInd - 1)) as [prev|e]; simpl; [|done].
      destruct (step_changed S dt prev); simpl; norm_view;
        repeat (case_inner; norm_view); done.
    + repeat (case_inner; norm_view); done.
  - repeat (case_inner; norm_view); done.
Qed.

Lemma fields_loop_forward S steps tInd cur f st :
  forward_only S = true →
  loop_frame st (fields_loop S tInd steps cur f st).2
  ∧ erase (fields_loop S tInd steps cur f st).1
    = fields_loop_spec S st tInd steps (fmat <$> cur) f.
Proof.
  intros Hfo. revert tInd cur f st.
  induction steps as [|dt steps IH]; intros tInd cur f st; simpl; [done|].
  destruct (fields_step_forward S tInd dt cur f st Hfo) as [Hfr Hres].
  unfold mbind, M_bind, Res_bind. rewrite <- Hres.
  destruct (fields_step S tInd dt cur f st) as [[[cur1 f1]|e] st1]; simpl in *; [|done].
  destruct (IH (Datatypes.S tInd) cur1 f1 st1) as [Hfr' Hres'].
  split; [by etrans|]. rewrite Hres'.
  apply fields_loop_spec_view. by destruct Hfr.
Qed.

Lemma getAdiag_in_range S st tInd dt :
  time_steps st !! tInd = Some dt →
  getAdiag S st (Z.of_nat tInd) = Ok (Adiag_matrix S st dt).
Proof.
  intros Hdt. pose proof (lookup_lt_Some _ _ _ Hdt) as Hlt.
  unfold getAdiag, in_range, step_at, nT.
  rewrite !bool_decide_eq_true_2 by lia. simpl.
  by rewrite py_index_in_range, Hdt.
Qed.

Lemma fields_step_persistent S tInd dt cur f st d :
  forward_only S = false → Ainv st = Some d → cache_holds S st id d →
  time_steps st !! tInd = Some dt →
  (fields_step S tInd dt cur f st).2 = st
  ∧ erase (fields_step S tInd dt cur f st).1
    = fields_step_spec S st tInd dt (fmat <$> cur) f.
Proof.
  intros Hfo Hd Hc Hdt. unfold fields_step, fields_step_spec. rewrite Hfo. run_M.
  rewrite (getAdiag_in_range _ _ _ _ Hdt).
  destruct (Hc dt) as (F & HdF & HF); [by eapply list_elem_of_lookup_2|].
  unfold mbind, Res_bind, res_bind. simpl in HF.
  destruct cur as [F0|]; simpl.
  - destruct (bool_decide (0 < tInd)%nat); simpl.
    + destruct (step_at st (Z.of_nat tInd - 1)) as [prev|e]; simpl; [|done].
      destruct (step_changed S dt prev); simpl; rewrite ?Hd, ?HdF; simpl;
        repeat case_inner; unfold fact_apply; rewrite ?HF; done.
    + repeat case_inner; done.
  - rewrite ?Hd, ?HdF; simpl. repeat case_inner; unfold fact_apply; rewrite ?HF; done.
Qed.

Lemma fields_loop_persistent S steps tInd cur f st d :
  forward_only S = false → Ainv st = Some d → cache_holds S st id d →
  drop tInd (time_steps st) = steps →
  (fields_loop S tInd steps cur f st).2 = st
  ∧ erase (fields_loop S tInd steps cur f st).1
    = fields_loop_spec S st tInd steps (fmat <$> cur) f.
Proof.
  intros Hfo Hd Hc. revert tInd cur f.
  induction steps as [|dt steps IH]; intros tInd cur f Hdrop; simpl; [done|].
  assert (time_steps st !! tInd = Some dt) as Hdt.
  { rewrite <- (Nat.add_0_r tInd), <- lookup_drop, Hdrop. done. }
  destruct (fields_step_persistent S tInd dt cur f st d Hfo Hd Hc Hdt) as [Hst Hres].
  unfold mbind, M_bind, Res_bind. rewrite <- Hres.
  destruct (fields_step S tInd dt cur f st) as [[[cur1 f1]|e] st1]; simpl in *; [|done].
  subst st1. apply IH.
  replace (Datatypes.S tInd) with (tInd + 1)%nat by lia.
  by rewrite <- drop_drop, Hdrop.
Qed.

End Refinement.

(** ** The persistent caches *)

Section Caches.
Context `{LA : LinAlg}.

Lemma fromkeys_keys (keys : list Qc) : (fromkeys keys).*1 = keys.
Proof.
  unfold fromkeys. induction keys as [|k keys IH]; [done|].
  rewrite !fmap_cons. simpl. by rewrite IH.
Qed.

Lemma cache_facts_fromkeys keys : cache_facts (fromkeys keys) = [].
Proof. unfold cache_facts, fromkeys. by induction keys. Qed.

Lemma cache_facts_app d1 d2 : cache_facts (d1 ++ d2) = cache_facts d1 ++ cache_facts d2.
Proof. unfold cache_facts. apply omap_app. Qed.

Lemma dict_set_app_notin (pre rest : Cache) k v v0 :
  k ∉ pre.*1 → dict_set (pre ++ (k, v0) :: rest) k v = pre ++ (k, v) :: rest.
Proof.
  induction pre as [|[k' v'] pre IH]; intros Hnotin; simpl.
  - by rewrite Qc_eqb_refl.
  - rewrite fmap_cons, not_elem_of_cons in Hnotin. destruct Hnotin as [Hne Hnotin].
    simpl in Hne. apply Qc_eqb_neq in Hne. rewrite Hne. by rewrite IH.
Qed.

Lemma dict_get_app_notin (pre rest : Cache) k :
  k ∉ pre.*1 → dict_get (pre ++ rest) k = dict_get rest k.
Proof.
  induction pre as [|[k' v'] pre IH]; intros Hnotin; simpl; [done|].
  rewrite fmap_cons, not_elem_of_cons in Hnotin. destruct Hnotin as [Hne Hnotin].
  simpl in Hne. apply Qc_eqb_neq in Hne. by rewrite Hne, IH.
Qed.

Lemma new_cache_cons S st tr base dt keys :
  new_cache S st tr base (dt :: keys)
  = (dt, Some (new_fact S st tr base dt))
      :: new_cache S st tr (Datatypes.S base) keys.
Proof.
  unfold new_cache. simpl. rewrite Nat.add_0_r. f_equal.
  apply imap_ext. intros i x _. simpl. do 3 f_equal. lia.
Qed.

Lemma new_cache_keys S st tr base keys : (new_cache S st tr base keys).*1 = keys.
Proof.
  revert base. induction keys as [|dt keys IH]; intros base; [done|].
  rewrite new_cache_cons, fmap_cons, IH. done.
Qed.

Lemma new_cache_length S st tr base keys :
  length (new_cache S st tr base keys) = length keys.
Proof. unfold new_cache. by rewrite length_imap. Qed.

Lemma new_cache_all_Some S st tr base keys :
  Forall (λ kv, is_Some kv.2) (new_cache S st tr base keys).
Proof.
  revert base. induction keys as [|dt keys IH]; intros base; [constructor|].
  rewrite new_cache_cons. constructor; [by eexists|apply IH].
Qed.

Lemma new_cache_view S st st' tr base keys :
  same_view st st' → new_cache S st' tr base keys = new_cache S st tr base keys.
Proof.
  intros Hv. unfold new_cache, new_fact. apply imap_ext. intros i x _. simpl.
  rewrite (Adiag_matrix_view _ _ _ _ Hv). destruct Hv as [_ ->]. done.
Qed.

Lemma dict_get_new_cache S st tr base keys dt :
  dt ∈ keys →
  ∃ i, dict_get (new_cache S st tr base keys) dt
       = Some (Some (new_fact S st tr (base + i) dt)).
Proof.
  revert base. induction keys as [|k keys IH]; intros base Hin.
  { by apply elem_of_nil in Hin. }
  rewrite new_cache_cons. simpl. destruct (Np.Qc_eqb dt k) eqn:E.
  - apply Qc_eqb_eq in E as ->. exists 0%nat. by rewrite Nat.add_0_r.
  - apply Qc_eqb_neq in E. apply elem_of_cons in Hin as [?|Hin]; [done|].
    destruct (IH (Datatypes.S base) Hin) as [i Hi]. exists (Datatypes.S i).
    rewrite Hi. do 3 f_equal. lia.
Qed.

(** A cache freshly filled by [factor_step] holds what the time loops
    look up. *)
Lemma new_cache_holds S st (tr : bool) base :
  cache_holds S st (if tr then mT else id)
    (new_cache S st tr base (Np.unique (time_steps st))).
Proof.
  intros dt Hdt. apply elem_of_unique in Hdt.
  destruct (dict_get_new_cache S st tr base _ dt Hdt) as [i Hi].
  eexists. split; [exact Hi|]. by destruct tr.
Qed.

Lemma clean_events_clean d : Forall is_clean (clean_events d).
Proof. unfold clean_events. apply Forall_fmap, Forall_true. done. Qed.

Lemma M_map_cons {A B} (g : A → M B) x l st :
  M_map g (x :: l) st
  = match g x st with
    | (Ok y, st1) =>
        match M_map g l st1 with
        | (Ok ys, st2) => (Ok (y :: ys), st2)
        | (Raise e, st2) => (Raise e, st2)
        end
    | (Raise e, st1) => (Raise e, st1)
    end.
Proof.
  simpl. unfold mbind, M_bind. destruct (g x st) as [[y|e] st1]; [|done].
  by destruct (M_map g l st1) as [[ys|e] st2].
Qed.

Lemma clean_values_all_Some (d : Cache) st :
  Forall (λ kv, is_Some kv.2) d →
  clean_values d st
  = (Ok (fromkeys d.*1), with_log (solver_log st ++ clean_events d) st).
Proof.
  unfold clean_values, clean_events, cache_facts. revert st.
  induction d as [|[k v] d IH]; intros st Hall; simpl.
  - rewrite app_nil_r. by destruct st.
  - apply Forall_cons in Hall as [[F HF] Hall]. simpl in HF. subst v. simpl.
    unfold mbind, M_bind, clean, modify, mret, M_ret. simpl.
    rewrite IH by done. simpl. rewrite <- app_assoc. done.
Qed.

Lemma clean_values_any (d : Cache) st :
  ∃ evs r, clean_values d st = (r, with_log (solver_log st ++ evs) st)
           ∧ Forall is_clean evs
           ∧ (r = Raise AttributeError ∨ r = Ok (fromkeys d.*1)).
Proof.
  unfold clean_values. revert st. induction d as [|[k v] d IH]; intros st.
  - exists [], (Ok []). simpl. rewrite app_nil_r. destruct st; auto.
  - rewrite M_map_cons. destruct v as [F|]; simpl.
    + destruct (IH (with_log (solver_log st ++ [EClean (fid F)]) st))
        as (evs & r & Hrun & Hevs & Hr).
      change ((clean F ≫= λ _, mret (k, None)) st)
        with (Ok (k, @None Fact), with_log (solver_log st ++ [EClean (fid F)]) st).
      simpl. rewrite Hrun. simpl.
      exists (EClean (fid F) :: evs). rewrite <- app_assoc. simpl.
      destruct Hr as [->| ->]; eexists; (split; [done|]); split;
        try (constructor; done); auto.
    + exists [], (Raise AttributeError). rewrite app_nil_r.
      unfold raise. destruct st; auto.
Qed.

Lemma factor_step_run S (tr : bool) st (pre : Cache) dt rest :
  cache_of tr st = Some (pre ++ fromkeys (dt :: rest)) →
  dt ∉ pre.*1 → dt ∈ time_steps st →
  let F := new_fact S st tr (length (solver_log st)) dt in
  factor_step S tr dt st
  = (Ok (), with_cache tr (Some (pre ++ (dt, Some F) :: fromkeys rest))
               (with_log (solver_log st ++ [EFactor (fkind F) (fid F)]) st)).
Proof.
  intros Hc Hpre Hin F. subst F. unfold factor_step, new_fact.
  destruct (index_Some dt _ Hin) as (i & Hi & Hlook).
  unfold mbind, M_bind, read, get, modify. rewrite Hi. simpl.
  rewrite (getAdiag_in_range _ _ _ _ Hlook).
  destruct tr; simpl in *; rewrite Hc; simpl; rewrite dict_set_app_notin by done; done.
Qed.

Lemma factor_all S (tr : bool) todo (pre : Cache) st :
  cache_of tr st = Some (pre ++ fromkeys todo) →
  NoDup todo → (∀ dt, dt ∈ todo → dt ∉ pre.*1) →
  (∀ dt, dt ∈ todo → dt ∈ time_steps st) →
  ∃ st', M_iter (factor_step S tr) todo st = (Ok (), st')
    ∧ same_view st st'
    ∧ cache_of tr st'
      = Some (pre ++ new_cache S st tr (length (solver_log st)) todo)
    ∧ cache_of (negb tr) st' = cache_of (negb tr) st
    ∧ _Adcinv st' = _Adcinv st
    ∧ solver_log st'
      = solver_log st ++ factor_events (new_cache S st tr (length (solver_log st)) todo).
Proof.
  revert pre st. induction todo as [|dt todo IH]; intros pre st Hc Hnd Hpre Hin.
  { exists st. unfold factor_events, new_cache in *. simpl in *.
    rewrite app_nil_r in *. rewrite app_nil_r. done. }
  apply NoDup_cons in Hnd as [Hdt Hnd].
  assert (dt ∈ dt :: todo) as Hhd by left.
  pose proof (factor_step_run S tr st pre dt todo Hc (Hpre dt Hhd) (Hin dt Hhd)) as Hrun.
  simpl in Hrun.
  set (F := new_fact S st tr (length (solver_log st)) dt) in *.
  set (st1 := with_cache tr (Some (pre ++ (dt, Some F) :: fromkeys todo))
                (with_log (solver_log st ++ [EFactor (fkind F) (fid F)]) st)) in *.
  assert (same_view st st1) as Hv by (by destruct tr).
  destruct (IH (pre ++ [(dt, Some F)]) st1) as (st' & Hrun' & Hv' & Hc' & Ho' & Ha' & Hl').
  - subst st1. rewrite <- app_assoc. by destruct tr.
  - done.
  - intros k Hk. rewrite fmap_app, elem_of_app. simpl.
    rewrite list_elem_of_singleton. intros [Hk'|Hk'].
    + eapply Hpre; [|exact Hk']. by right.
    + by subst k.
  - intros k Hk. destruct Hv as [_ ->]. apply Hin. by right.
  - exists st'. simpl. unfold mbind, M_bind. rewrite Hrun. cbv beta iota.
    assert (length (solver_log st1) = Datatypes.S (length (solver_log st))) as Hlen.
    { subst st1. destruct tr; simpl; rewrite length_app; simpl; lia. }
    rewrite Hlen, (new_cache_view _ _ _ _ _ _ Hv) in Hc', Hl'.
    rewrite new_cache_cons. fold F.
    split; [exact Hrun'|]. split; [by etrans|].
    split; [by rewrite Hc', <- app_assoc|].
    split; [rewrite Ho'; by destruct tr|].
    split; [rewrite Ha'; by destruct tr|].
    rewrite Hl'. unfold factor_events, cache_facts. simpl.
    subst st1. destruct tr; simpl; by rewrite <- app_assoc.
Qed.

Lemma cache_facts_all_None (d : Cache) :
  Forall (λ kv, kv.2 = None) d → cache_facts d = [].
Proof.
  unfold cache_facts. induction 1 as [|[k v] d Hv _ IH]; [done|].
  simpl in *. subst v. simpl. exact IH.
Qed.

(** The [try]/[except] around the release of the transposed factors:
    whatever [self.ATinv] was, it ends up as the empty cache over the keys
    [keys], provided it was keyed by [keys] if it existed; the transposed
    factorizations it held are released. *)
Lemma release_ATinv_run st keys :
  match ATinv st with
  | None => True
  | Some d' =>
      d'.*1 = keys
      ∧ (Forall (λ kv, is_Some kv.2) d' ∨ Forall (λ kv, kv.2 = None) d')
  end →
  Np.unique (time_steps st) = keys →
  ∃ evs,
    try_except_AttributeError
      (st ← get;
       match ATinv st with
       | Some d => d' ← clean_values d; modify (with_ATinv (Some d'))
       | None => raise AttributeError
       end)
      (modify (λ st, with_ATinv (Some (fromkeys (Np.unique (time_steps st)))) st)) st
    = (Ok (), with_ATinv (Some (fromkeys keys)) (with_log (solver_log st ++ evs) st))
    ∧ Forall is_clean evs
    ∧ ∀ F, F ∈ cache_facts (default [] (ATinv st)) → EClean (fid F) ∈ evs.
Proof.
  intros Hk Hu. unfold try_except_AttributeError, mbind, M_bind, get.
  destruct (ATinv st) as [d'|] eqn:Hd; simpl.
  - destruct Hk as [Hk [Hall|Hnone]].
    + rewrite clean_values_all_Some by done. simpl.
      exists (clean_events d'). unfold modify. simpl. rewrite Hk.
      split; [done|]. split; [apply clean_events_clean|].
      intros F HF. unfold clean_events.
      by apply (list_elem_of_fmap_2 (λ F, EClean (fid F))).
    + destruct (clean_values_any d' st) as (evs & r & -> & Hevs & [->| ->]); simpl;
        exists evs; unfold modify; simpl; rewrite ?Hu, ?Hk;
        (split; [done|]); (split; [done|]);
        rewrite cache_facts_all_None by done; intros F HF; by apply elem_of_nil in HF.
  - exists []. unfold modify, raise. simpl. rewrite app_nil_r, Hu.
    split; [by destruct st|]. split; [constructor|].
    intros F HF. by apply elem_of_nil in HF.
Qed.

Lemma store_factorizations_run S st :
  cache_wf st →
  ∃ st' cleans,
    store_factorizations S st = (Ok (), st')
    ∧ model st' = model st ∧ _Adcinv st' = _Adcinv st
    ∧ time_steps st'
      = match Ainv st with
        | Some _ => time_steps st
        | None => round_time_steps S (time_steps st)
        end
    ∧ Forall is_clean cleans
    ∧ (∀ F, F ∈ cache_facts (default [] (Ainv st)) ++ cache_facts (default [] (ATinv st)) →
         EClean (fid F) ∈ cleans)
    ∧ let stored := new_cache S st' false (length (solver_log st ++ cleans))
                      (Np.unique (time_steps st')) in
      Ainv st' = Some stored
      ∧ ATinv st' = Some (fromkeys (Np.unique (time_steps st')))
      ∧ solver_log st' = solver_log st ++ cleans ++ factor_events stored.
Proof.
  intros Hwf. unfold cache_wf in Hwf. unfold store_factorizations.
  unfold mbind at 1, M_bind at 1, get at 1. cbv beta iota.
  destruct (Ainv st) as [d|] eqn:Hd.
  - destruct Hwf as (Hkeys & Hall & HAT).
    unfold mbind at 1, M_bind at 1. unfold mbind at 1, M_bind at 1.
    rewrite clean_values_all_Some by done. unfold modify at 1. cbv beta iota.
    set (st1 := with_Ainv _ _).
    destruct (release_ATinv_run st1 (Np.unique (time_steps st)))
      as (evs & Hrel & Hevs & HATc); [exact HAT|done|].
    unfold mbind at 1, M_bind at 1. rewrite Hrel. cbv beta iota.
    unfold mbind at 1, M_bind at 1, get at 1. cbv beta iota.
    set (st2 := with_ATinv _ _).
    destruct (factor_all S false (Np.unique (time_steps st2)) [] st2)
      as (st' & Hrun & Hv & Hc & Ho & Ha & Hl).
    + simpl. by rewrite Hkeys.
    + apply unique_NoDup.
    + intros dt _. apply not_elem_of_nil.
    + intros dt Hdt. exact (proj1 (elem_of_unique _ _) Hdt).
    + exists st', (clean_events d ++ evs). rewrite Hrun.
      pose proof Hv as [Hm Ht]. simpl in *.
      rewrite (new_cache_view _ _ _ _ _ _ Hv).
      split; [done|]. split; [by rewrite Hm|]. split; [by rewrite Ha|].
      split; [by rewrite Ht|].
      split; [apply Forall_app; split; [apply clean_events_clean|done]|].
      split.
      { intros F HF. apply elem_of_app in HF as [HF|HF]; apply elem_of_app.
        - left. unfold clean_events.
          by apply (list_elem_of_fmap_2 (λ F, EClean (fid F))).
        - right. by apply HATc. }
      rewrite Ht. rewrite <- !app_assoc in *.
      split; [exact Hc|]. split; [by rewrite Ho|]. by rewrite Hl.
  - unfold mbind at 1, M_bind at 1. unfold mbind at 1, M_bind at 1.
    unfold modify at 1 2. cbv beta iota.
    set (st1 := with_Ainv _ _).
    destruct (release_ATinv_run st1 (Np.unique (time_steps st1)))
      as (evs & Hrel & Hevs & _); [subst st1; simpl; by rewrite Hwf|done|].
    unfold mbind at 1, M_bind at 1. rewrite Hrel. cbv beta iota.
    unfold mbind at 1, M_bind at 1, get at 1. cbv beta iota.
    set (st2 := with_ATinv _ _).
    destruct (factor_all S false (Np.unique (time_steps st2)) [] st2)
      as (st' & Hrun & Hv & Hc & Ho & Ha & Hl).
    + done.
    + apply unique_NoDup.
    + intros dt _. apply not_elem_of_nil.
    + intros dt Hdt. exact (proj1 (elem_of_unique _ _) Hdt).
    + exists st', evs. rewrite Hrun.
      pose proof Hv as [Hm Ht]. simpl in *.
      rewrite (new_cache_view _ _ _ _ _ _ Hv).
      split; [done|]. split; [by rewrite Hm|]. split; [by rewrite Ha|].
      split; [by rewrite Ht|]. split; [done|].
      split; [rewrite Hwf; intros F HF; by apply elem_of_nil in HF|].
      rewrite Ht.
      split; [exact Hc|]. split; [by rewrite Ho|]. by rewrite Hl, <- app_assoc.
Qed.

End Caches.

(** ** The formulation methods succeed on the time indices of the loops *)

Section MethodsTotal.
Context `{LA : LinAlg}.

Lemma nodes_length (t : Qc) steps : length (Np.nodes t steps) = Datatypes.S (length steps).
Proof. revert t. induction steps as [|dt steps IH]; intros t; simpl; [done|]. by rewrite IH. Qed.

Lemma py_index_valid {A} (l : list A) (i : Z) :
  (- Z.of_nat (length l) ≤ i < Z.of_nat (length l))%Z → is_Some (py_index l i).
Proof.
  intros Hi. unfold py_index.
  destruct (bool_decide (0 ≤ i < Z.of_nat (length l))%Z) eqn:E.
  - apply bool_decide_eq_true_1 in E. apply lookup_lt_is_Some_2. lia.
  - apply bool_decide_eq_false_1 in E. rewrite bool_decide_eq_true_2 by lia.
    apply lookup_lt_is_Some_2. lia.
Qed.

Lemma res_map_Ok_fmap {A B} (g : A → Res B) (h : A → B) (l : list A) :
  (∀ x, g x = Ok (h x)) → res_map g l = Ok (h <$> l).
Proof.
  intros Hg. induction l as [|x l IH]; simpl; [done|]. by rewrite Hg, IH.
Qed.

Lemma getSourceTerm_ok S st (k : Z) :
  (- nT st - 1 ≤ k ≤ nT st)%Z →
  ∃ t, time_at S st k = Ok t
       ∧ getSourceTerm S st k
         = Ok ((source_columns st t <$> source_list S).*1,
               (source_columns st t <$> source_list S).*2).
Proof.
  intros Hk. unfold getSourceTerm, time_at, times.
  destruct (py_index_valid (Np.nodes (t0 S) (time_steps st)) k) as [t Ht].
  { rewrite nodes_length. unfold nT in Hk. lia. }
  exists t. rewrite Ht. simpl. split; [done|].
  rewrite (res_map_Ok_fmap _ (source_columns st t)); [done|].
  intros src. unfold source_columns. simpl. by destruct (src_eval src (model st) t).
Qed.

Lemma step_at_ok st (k : nat) :
  (k < length (time_steps st))%nat →
  ∃ dt, step_at st (Z.of_nat k) = Ok dt ∧ time_steps st !! k = Some dt.
Proof.
  intros Hk. unfold step_at.
  destruct (py_index_in_range_Some (time_steps st) k Hk) as (dt & -> & Hdt). eauto.
Qed.

Lemma in_range_nat st (k : nat) :
  (k < length (time_steps st))%nat → in_range st (Z.of_nat k) = true.
Proof.
  intros Hk. unfold in_range, nT. rewrite !bool_decide_eq_true_2 by lia. done.
Qed.

Lemma getAsubdiag_ok S st (k : nat) :
  (k < length (time_steps st))%nat → ∃ A, getAsubdiag S st (Z.of_nat k) = Ok A.
Proof.
  intros Hk. unfold getAsubdiag. rewrite (in_range_nat _ _ Hk).
  destruct (step_at_ok st k Hk) as (dt & -> & _). simpl.
  destruct (cls S), (_makeASymmetric S); eauto.
Qed.

Lemma getRHS_ok S st (k : nat) :
  (k < length (time_steps st))%nat →
  ∃ rhs, getRHS S st (Z.of_nat k + 1) = Ok rhs ∧ length rhs = length (source_list S).
Proof.
  intros Hk. unfold getRHS.
  assert (∀ j : Z, (-1 ≤ j ≤ Z.of_nat k + 1)%Z →
    ∃ sm se, getSourceTerm S st j = Ok (sm, se)
             ∧ length sm = length (source_list S) ∧ length se = length (source_list S))
    as Hsrc.
  { intros j Hj. destruct (getSourceTerm_ok S st j) as (t & _ & ->).
    { unfold nT. lia. }
    do 2 eexists. split; [done|]. by rewrite !length_fmap. }
  destruct (cls S).
  - destruct (Hsrc (Z.of_nat k + 1)%Z) as (sm & se & -> & Hm & He); [lia|]. simpl.
    destruct (_makeASymmetric S); eexists; (split; [done|]);
      rewrite ?length_fmap, length_zip_with; lia.
  - replace (Z.of_nat k + 1 - 1)%Z with (Z.of_nat k) by lia.
    destruct (step_at_ok st k Hk) as (dt & -> & _). simpl.
    destruct (Hsrc (Z.of_nat k + 1)%Z) as (sm & se & -> & Hm & He); [lia|]. simpl.
    destruct (Hsrc (Z.of_nat k)) as (sm' & se' & -> & Hm' & He'); [lia|]. simpl.
    eexists. split; [done|]. rewrite !length_zip_with. lia.
  - destruct (Hsrc (Z.of_nat k + 1)%Z) as (sm & se & -> & Hm & He); [lia|]. simpl.
    eexists. split; [done|]. rewrite length_zip_with. lia.
  - destruct (bool_decide (Z.of_nat k + 1 = nT st)%Z) eqn:E.
    + replace (Z.of_nat k + 1 - 1)%Z with (Z.of_nat k) by lia.
      destruct (step_at_ok st k Hk) as (dt & -> & _). simpl.
      destruct (Hsrc (Z.of_nat k)) as (sm & se & -> & Hm & He); [lia|]. simpl.
      destruct (Hsrc (Z.of_nat k - 1)%Z) as (sm' & se' & -> & Hm' & He'); [lia|]. simpl.
      destruct (_makeASymmetric S); eexists; (split; [done|]);
        rewrite ?length_fmap, !length_zip_with; lia.
    + apply bool_decide_eq_false_1 in E. unfold nT in E.
      replace (Z.of_nat k + 1)%Z with (Z.of_nat (Datatypes.S k)) by lia.
      destruct (step_at_ok st (Datatypes.S k)) as (dt & -> & _); [lia|]. simpl.
      destruct (Hsrc (Z.of_nat (Datatypes.S k))) as (sm & se & -> & Hm & He); [lia|].
      simpl.
      destruct (Hsrc (Z.of_nat (Datatypes.S k) - 1)%Z) as (sm' & se' & -> & Hm' & He');
        [lia|]. simpl.
      destruct (_makeASymmetric S); eexists; (split; [done|]);
        rewrite ?length_fmap, !length_zip_with; lia.
Qed.

End MethodsTotal.

(** ** The time loop, step by step *)

Section LoopSpec.
Context `{LA : LinAlg} (S : Sim) (st : SimState).

(** [I k A]: the operator [A] may be in flight at step [k]. *)
Context (I : nat → mat → Prop).
Hypothesis I_load : ∀ k dt,
  time_steps st !! k = Some dt →
  match k with
  | 0%nat => True
  | Datatypes.S k' =>
      ∃ prev, time_steps st !! k' = Some prev ∧ step_changed S dt prev = true
  end →
  I k (Adiag_matrix S st dt).
Hypothesis I_keep : ∀ k A prev dt,
  I k A → time_steps st !! k = Some prev → time_steps st !! Datatypes.S k = Some dt →
  step_changed S dt prev = false → I (Datatypes.S k) A.

Lemma fields_loop_spec_run steps tInd cur f :
  drop tInd (time_steps st) = steps →
  length f = Datatypes.S (length (time_steps st)) →
  match cur with
  | None => tInd = 0%nat
  | Some A => ∃ k, tInd = Datatypes.S k ∧ I k A
  end →
  ∃ cur' f',
    fields_loop_spec S st tInd steps cur f = Ok (cur', f')
    ∧ length f' = length f
    ∧ (∀ k, (k ≤ tInd)%nat → f' !! k = f !! k)
    ∧ (steps ≠ [] → is_Some cur')
    ∧ ∀ k, (tInd ≤ k < length (time_steps st))%nat →
        ∃ A, I k A ∧ step_solved_with S st f' k A.
Proof.
  revert tInd cur f. induction steps as [|dt steps IH]; intros tInd cur f Hdrop Hlen Hcur.
  { exists cur, f. simpl. repeat split; try done.
    intros k Hk. apply (f_equal length) in Hdrop. rewrite length_drop in Hdrop.
    simpl in Hdrop. lia. }
  assert (time_steps st !! tInd = Some dt) as Hdt.
  { rewrite <- (Nat.add_0_r tInd), <- lookup_drop, Hdrop. done. }
  pose proof (lookup_lt_Some _ _ _ Hdt) as Hlt.
  assert (drop (Datatypes.S tInd) (time_steps st) = steps) as Hdrop'.
  { replace (Datatypes.S tInd) with (tInd + 1)%nat by lia.
    by rewrite <- drop_drop, Hdrop. }
  destruct (getRHS_ok S st tInd Hlt) as (rhs & Hrhs & Hrlen).
  destruct (getAsubdiag_ok S st tInd Hlt) as (Asub & HAsub).
  destruct (lookup_lt_is_Some_2 f tInd) as [u Hu]; [lia|].
  (* the operator this step solves with *)
  assert (∃ A, I tInd A ∧
    fields_step_spec S st tInd dt cur f
    = Ok (Some A, <[Datatypes.S tInd :=
                      zip_with (λ r u, solve A (vsub r (mv Asub u))) rhs u]> f))
    as (A & HIA & Hstep).
  { unfold fields_step_spec, fields_get. rewrite Hrhs, HAsub, Hu.
    rewrite (getAdiag_in_range _ _ _ _ Hdt). simpl.
    destruct cur as [A0|]; simpl.
    2:{ subst tInd. eexists. split; [by apply (I_load 0%nat dt)|done]. }
    destruct Hcur as (k & -> & HI0).
    rewrite bool_decide_eq_true_2 by lia.
    replace (Z.of_nat (Datatypes.S k) - 1)%Z with (Z.of_nat k) by lia.
    destruct (step_at_ok st k) as (prev & -> & Hprev); [lia|]. simpl.
    destruct (step_changed S dt prev) eqn:Hch; simpl; [|eauto].
    eexists. split; [|done]. apply (I_load (Datatypes.S k) dt Hdt). eauto. }
  simpl. rewrite Hstep. simpl.
  set (sol := zip_with (λ r u, solve A (vsub r (mv Asub u))) rhs u) in *.
  destruct (IH (Datatypes.S tInd) (Some A) (<[Datatypes.S tInd := sol]> f) Hdrop')
    as (cur' & f' & Hrun & Hlen' & Hpre & Hsome & Hsolved).
  { by rewrite length_insert. }
  { eauto. }
  exists cur', f'. rewrite length_insert in Hlen'.
  split; [done|]. split; [done|]. split.
  { intros k Hk. rewrite Hpre by lia. apply list_lookup_insert_ne. lia. }
  split.
  { intros _. destruct steps; [|by apply Hsome]. simpl in Hrun. by simplify_eq. }
  intros k Hk. destruct (decide (k = tInd)) as [->|Hne].
  - exists A. split; [done|]. exists rhs, Asub, u. repeat split; try done.
    + rewrite Hpre by lia. rewrite list_lookup_insert_ne by lia. done.
    + rewrite Hpre by lia. apply list_lookup_insert_eq. lia.
  - apply Hsolved. lia.
Qed.

End LoopSpec.

(** ** Runs of [fields] *)

Section FieldsRuns.
Context `{LA : LinAlg}.

Lemma set_model_run m st :
  ∃ st' evs,
    set_model m st = (Ok (), st')
    ∧ model st' = Some m ∧ time_steps st' = time_steps st
    ∧ Ainv st' = Ainv st ∧ ATinv st' = ATinv st
    ∧ _Adcinv st' = (if decide (model st = Some m) then _Adcinv st else None)
    ∧ solver_log st' = solver_log st ++ evs ∧ Forall is_clean evs.
Proof.
  unfold set_model, mbind, M_bind, get, modify, clean, mret, M_ret. simpl.
  destruct (decide (model st = Some m)) as [Hm|Hm].
  - exists st, []. rewrite app_nil_r. by repeat split.
  - destruct (_Adcinv st) as [F|] eqn:HA; simpl.
    + eexists _, [EClean (fid F)]%list. repeat split; simpl; try done.
      by repeat constructor.
    + exists (with_model (Some m) st), []%list. simpl. rewrite app_nil_r.
      by repeat split.
Qed.

Lemma res_map_ok {A B} (g : A → Res B) (l : list A) :
  Forall (λ x, ∃ y, g x = Ok y) l →
  ∃ ys, res_map g l = Ok ys ∧ length ys = length l.
Proof.
  induction 1 as [|x l [y Hy] _ (ys & IH & Hlen)]; simpl; [by exists []|].
  rewrite Hy, IH. simpl. exists (y :: ys). simpl. by rewrite Hlen.
Qed.

Lemma getInitialFields_ok S st :
  sources_have_initial S →
  ∃ u0, getInitialFields S st = Ok u0 ∧ length u0 = length (source_list S).
Proof.
  intros Hs. apply res_map_ok. eapply Forall_impl; [exact Hs|].
  intros src [init ->]. simpl. eauto.
Qed.

Lemma new_fields_length nSrc n u0 :
  length (<[0%nat := u0]> (new_fields nSrc n)) = Datatypes.S n.
Proof. unfold new_fields. by rewrite length_insert, length_replicate. Qed.

Lemma fields_run_forward S m st :
  forward_only S = true → sources_have_initial S → time_steps st ≠ [] →
  ∃ f st' u0 cur',
    fields S m st = (Ok f, st')
    ∧ model st' = Some m ∧ time_steps st' = time_steps st
    ∧ getInitialFields S st' = Ok u0
    ∧ fields_loop_spec S st' 0 (time_steps st') None
        (<[0%nat := u0]> (new_fields (length (source_list S)) (length (time_steps st'))))
      = Ok (cur', f).
Proof.
  intros Hfo Hsrc Hne. unfold fields.
  destruct (set_model_run m st) as (sta & evs & Hset & Hm & Ht & _).
  unfold mbind at 1, M_bind at 1. rewrite Hset. cbv beta iota.
  unfold mbind at 1, M_bind at 1, get at 1. cbv beta iota.
  destruct (getInitialFields_ok S sta Hsrc) as (u0 & Hu0 & Hu0len).
  unfold mbind at 1, M_bind at 1, read at 1. rewrite Hu0. cbv beta iota.
  rewrite Hfo. unfold mbind at 1, M_bind at 1, mret at 1, M_ret at 1. cbv beta iota.
  unfold mbind at 1, M_bind at 1, get at 1. cbv beta iota.
  set (f1 := <[0%nat := u0]> _).
  destruct (fields_loop_forward S (time_steps sta) 0 None f1 sta Hfo) as [Hfr Hres].
  destruct (fields_loop_spec_run S sta any_operator) with
    (steps := time_steps sta) (tInd := 0%nat) (cur := @None mat) (f := f1)
    as (cur' & f' & Hspec & Hlen & _ & Hsome & _); try done.
  { subst f1. apply new_fields_length. }
  change (fmat <$> None) with (@None mat) in Hres.
  rewrite Hspec in Hres. unfold mbind at 1, M_bind at 1.
  destruct (fields_loop S 0 (time_steps sta) None f1 sta) as [[[cur f2]|e] stb];
    simpl in Hres, Hfr; [|done].
  simplify_eq. destruct Hsome as [A HA]; [by rewrite Ht|].
  destruct cur as [F|]; [|done]. cbv beta iota.
  destruct Hfr as ([Hm' Ht'] & _).
  exists f', (with_log (solver_log stb ++ [EClean (fid F)]) stb), u0, (Some (fmat F)).
  split; [done|]. simpl. split; [congruence|]. split; [congruence|].
  assert (same_view sta (with_log (solver_log stb ++ [EClean (fid F)]) stb)) as Hv.
  { by split. }
  split.
  { rewrite (getInitialFields_view S sta); [done|]. by destruct Hv. }
  rewrite (fields_loop_spec_view _ _ _ _ _ _ _ Hv). rewrite Ht'. exact Hspec.
Qed.

Lemma fields_run_persistent S m st :
  forward_only S = false → cache_wf st → sources_have_initial S →
  ∃ f st' u0 cur' cleans,
    fields S m st = (Ok f, st')
    ∧ model st' = Some m
    ∧ time_steps st'
      = match Ainv st with
        | Some _ => time_steps st
        | None => round_time_steps S (time_steps st)
        end
    ∧ getInitialFields S st' = Ok u0
    ∧ fields_loop_spec S st' 0 (time_steps st') None
        (<[0%nat := u0]> (new_fields (length (source_list S)) (length (time_steps st'))))
      = Ok (cur', f)
    ∧ Forall is_clean cleans
    ∧ (∀ F, F ∈ cache_facts (default [] (Ainv st)) ++ cache_facts (default [] (ATinv st)) →
         EClean (fid F) ∈ cleans)
    ∧ let stored := new_cache S st' false (length (solver_log st ++ cleans))
                      (Np.unique (time_steps st')) in
      Ainv st' = Some stored
      ∧ ATinv st' = Some (fromkeys (Np.unique (time_steps st')))
      ∧ solver_log st' = solver_log st ++ cleans ++ factor_events stored.
Proof.
  intros Hfo Hwf Hsrc. unfold fields.
  destruct (set_model_run m st) as (sta & evs & Hset & Hm & Ht & HA & HAT & _ & Hlog & Hevs).
  unfold mbind at 1, M_bind at 1. rewrite Hset. cbv beta iota.
  unfold mbind at 1, M_bind at 1, get at 1. cbv beta iota.
  destruct (getInitialFields_ok S sta Hsrc) as (u0 & Hu0 & Hu0len).
  unfold mbind at 1, M_bind at 1, read at 1. rewrite Hu0. cbv beta iota.
  rewrite Hfo.
  assert (cache_wf sta) as Hwfa.
  { unfold cache_wf in *. by rewrite HA, HAT, Ht. }
  destruct (store_factorizations_run S sta Hwfa)
    as (stb & cleans & Hstore & Hmb & _ & Htb & Hcleans & Hold & Hstored).
  simpl in Hstored. destruct Hstored as (HAb & HATb & Hlogb).
  unfold mbind at 1, M_bind at 1. rewrite Hstore. cbv beta iota.
  unfold mbind at 1, M_bind at 1, get at 1. cbv beta iota.
  assert (length (time_steps stb) = length (time_steps sta)) as Hlen.
  { rewrite Htb. destruct (Ainv sta); [done|]. unfold round_time_steps.
    by rewrite length_fmap. }
  rewrite <- Hlen.
  set (f1 := <[0%nat := u0]> _).
  destruct (fields_loop_persistent S (time_steps stb) 0 None f1 stb _ Hfo HAb)
    as [Hst Hres]; [apply new_cache_holds|done|].
  destruct (fields_loop_spec_run S stb any_operator) with
    (steps := time_steps stb) (tInd := 0%nat) (cur := @None mat) (f := f1)
    as (cur' & f' & Hspec & _); try done.
  { subst f1. apply new_fields_length. }
  change (fmat <$> None) with (@None mat) in Hres.
  rewrite Hspec in Hres. unfold mbind at 1, M_bind at 1.
  destruct (fields_loop S 0 (time_steps stb) None f1 stb) as [[[cur f2]|e] stc];
    simpl in Hres, Hst; [|done].
  simplify_eq. cbv beta iota.
  exists f', stb, u0, (fmat <$> cur), (evs ++ cleans).
  unfold mbind, M_bind, mret, M_ret.
  split; [done|]. split; [congruence|].
  split; [by rewrite Htb, HA, Ht|].
  split; [rewrite (getInitialFields_view S sta); done|].
  split; [done|]. split; [by apply Forall_app|].
  split.
  { intros F HF. apply elem_of_app. right. apply Hold. by rewrite HA, HAT. }
  simpl. rewrite Hlog in HAb, Hlogb. rewrite <- !app_assoc in *. done.
Qed.

End FieldsRuns.

(** ** The operator each step is solved with *)

Section InFlight.
Context `{LA : LinAlg}.

Lemma fields_run S m st :
  sources_have_initial S → fields_ready S st →
  ∃ f st' u0 cur',
    fields S m st = (Ok f, st')
    ∧ model st' = Some m ∧ time_steps st' = stepping_steps S st
    ∧ getInitialFields S st' = Ok u0
    ∧ fields_loop_spec S st' 0 (time_steps st') None
        (<[0%nat := u0]> (new_fields (length (source_list S)) (length (time_steps st'))))
      = Ok (cur', f).
Proof.
  intros Hsrc Hready. unfold fields_ready, stepping_steps in *.
  destruct (forward_only S) eqn:Hfo.
  - destruct (fields_run_forward S m st Hfo Hsrc Hready)
      as (f & st' & u0 & cur' & H1 & H2 & H3 & H4 & H5).
    by exists f, st', u0, cur'.
  - destruct (fields_run_persistent S m st Hfo Hready Hsrc)
      as (f & st' & u0 & cur' & cleans & H1 & H2 & H3 & H4 & H5 & _).
    by exists f, st', u0, cur'.
Qed.

Lemma in_flight_load S st k dt :
  time_steps st !! k = Some dt →
  match k with
  | 0%nat => True
  | Datatypes.S k' =>
      ∃ prev, time_steps st !! k' = Some prev ∧ step_changed S dt prev = true
  end →
  operator_in_flight S st k (Adiag_matrix S st dt).
Proof.
  intros Hdt Hk. exists k. split; [|by apply getAdiag_in_range].
  split; [done|]. split.
  - destruct k as [|k']; [done|]. destruct Hk as (prev & Hp & Hc). eauto.
  - intros i prev' dt' Hi. lia.
Qed.

Lemma in_flight_keep S st k A prev dt :
  operator_in_flight S st k A →
  time_steps st !! k = Some prev → time_steps st !! Datatypes.S k = Some dt →
  step_changed S dt prev = false →
  operator_in_flight S st (Datatypes.S k) A.
Proof.
  intros (j & (Hj & Hstart & Hrun) & HA) Hp Hd Hc. exists j. split; [|done].
  split; [lia|]. split; [done|].
  intros i prev' dt' Hi Hp' Hd'. destruct (decide (i = k)) as [->|Hne].
  - congruence.
  - apply (Hrun i prev' dt'); [lia|done..].
Qed.

Lemma fields_loop_spec_in_flight S st f1 cur' f :
  length f1 = Datatypes.S (length (time_steps st)) →
  fields_loop_spec S st 0 (time_steps st) None f1 = Ok (cur', f) →
  f !! 0%nat = f1 !! 0%nat
  ∧ ∀ k, (k < length (time_steps st))%nat →
      ∃ A, operator_in_flight S st k A ∧ step_solved_with S st f k A.
Proof.
  intros Hlen Hrun.
  destruct (fields_loop_spec_run S st (operator_in_flight S st)
              (in_flight_load S st) (in_flight_keep S st) (time_steps st) 0%nat None f1)
    as (c & f' & Hrun' & _ & Hpre & _ & Hsolved); [done..|].
  rewrite Hrun in Hrun'. simplify_eq. split; [by apply Hpre|].
  intros k Hk. apply Hsolved. lia.
Qed.

(** Every node holds one column per source. *)
Lemma solved_columns S st f u0 :
  f !! 0%nat = Some u0 → length u0 = length (source_list S) →
  (∀ k, (k < length (time_steps st))%nat → ∃ A, step_solved_with S st f k A) →
  ∀ k u, (k ≤ length (time_steps st))%nat → f !! k = Some u →
    length u = length (source_list S).
Proof.
  intros H0 Hlen0 Hsolved. induction k as [|k IH]; intros u Hk Hu.
  - congruence.
  - destruct (Hsolved k) as (A & rhs & Asub & uk & _ & _ & Hrlen & Huk & Hnext); [lia|].
    rewrite Hnext in Hu. simplify_eq. rewrite length_zip_with, Hrlen.
    rewrite (IH uk) by (done || lia). lia.
Qed.

Lemma step_solved_equation S st f k A :
  (∀ u, f !! k = Some u → length u = length (source_list S)) →
  step_solved_with S st f k A → (∀ b, mv A (solve A b) = b) →
  step_equation S st f k A.
Proof.
  intros Hcols (rhs & Asub & u & Hrhs & HAsub & Hrlen & Hu & Hnext) Hexact.
  exists rhs, Asub, u, (zip_with (λ r u, solve A (vsub r (mv Asub u))) rhs u).
  split; [done|]. split; [done|]. split; [done|]. split; [done|]. split.
  { rewrite length_zip_with, Hrlen, (Hcols u Hu). lia. }
  intros i r ui u'i Hr Hui Hu'i. rewrite lookup_zip_with, Hr, Hui in Hu'i.
  simpl in Hu'i. simplify_eq. apply Hexact.
Qed.

End InFlight.

(** ** Zero sources, zero fields *)

Section Silent.
Context `{LA : LinAlg}.

Lemma res_map_constant {A B} (g : A → Res B) (z : B) (l : list A) (ys : list B) :
  Forall (λ x, ∀ y, g x = Ok y → y = z) l →
  res_map g l = Ok ys → ys = replicate (length l) z.
Proof.
  intros Hl. revert ys. induction Hl as [|x l Hx _ IH]; intros ys Hrun; simpl in *.
  - by simplify_eq.
  - destruct (g x) as [y|e] eqn:Hy; simpl in Hrun; [|done].
    destruct (res_map g l) as [ys'|e] eqn:Hys; simpl in Hrun; [|done].
    simplify_eq. rewrite (Hx y eq_refl), (IH ys' eq_refl). done.
Qed.

Lemma arr_add_is_zero (a : val) :
  zero_laws → is_zero a → arr_add vzero a = vzero.
Proof. intros (Hadd & _) [->| ->]; simpl; done. Qed.

Lemma getSourceTerm_silent S st k sm se :
  zero_laws → silent S → getSourceTerm S st k = Ok (sm, se) →
  sm = replicate (length (source_list S)) vzero
  ∧ se = replicate (length (source_list S)) vzero.
Proof.
  intros Hz Hs Hrun. unfold getSourceTerm in Hrun.
  match type of Hrun with
  | context [res_map ?g ?l] => destruct (res_map g l) as [cols|e] eqn:Hcols
  end; simpl in Hrun; [|done].
  apply (res_map_constant _ (vzero, vzero)) in Hcols.
  - simplify_eq. rewrite !fmap_replicate. done.
  - eapply Forall_impl; [exact Hs|]. intros src [Hsrc _] y Hy.
    destruct (time_at S st k) as [t|e]; simpl in Hy; [|done].
    specialize (Hsrc (model st) t). destruct (src_eval src (model st) t) as [smi sei].
    simpl in Hsrc. destruct Hsrc as [Hm He]. simplify_eq.
    by rewrite !arr_add_is_zero.
Qed.

Lemma getInitialFields_silent S st u0 :
  zero_laws → silent S → getInitialFields S st = Ok u0 →
  u0 = replicate (length (source_list S)) vzero.
Proof.
  intros Hz Hs Hrun. apply (res_map_constant _ vzero) in Hrun; [done|].
  eapply Forall_impl; [exact Hs|]. intros src [_ Hinit] y Hy. simpl in Hy.
  destruct (src_Initial src (_fieldType (cls S))) as [init|] eqn:Hi; [|done].
  simplify_eq. apply arr_add_is_zero; [done|]. by apply Hinit.
Qed.

Ltac rhs_case H :=
  repeat match type of H with
  | context [mbind _ ?x] =>
      let E := fresh "E" in destruct x as [?|?] eqn:E; simpl in H; [|done]
  | context [let '(_, _) := ?p in _] => destruct p
  end.

Lemma getRHS_silent S st k rhs :
  zero_laws → silent S → getRHS S st k = Ok rhs →
  rhs = replicate (length (source_list S)) vzero.
Proof.
  intros Hz Hs Hrun. unfold getRHS in Hrun.
  pose proof Hz as (Hadd & Hsub & Hscale & Hmv & _).
  destruct (cls S); rhs_case Hrun.
  all: repeat match goal with
       | E : getSourceTerm _ _ _ = Ok _ |- _ =>
           apply (getSourceTerm_silent _ _ _ _ _ Hz Hs) in E; destruct E as [-> ->]
       end.
  all: try (destruct (_makeASymmetric S)); simpl in Hrun; simplify_eq.
  all: repeat first [rewrite zip_with_replicate | rewrite fmap_replicate
                    | rewrite Hsub | rewrite Hscale | rewrite Hmv | rewrite Hadd].
  all: done.
Qed.

End Silent.

(** ** What the solver log can gain *)

Section LogFrame.
Context `{LA : LinAlg} (P : Event → Prop).

Global Instance log_extends_preorder : PreOrder (log_extends P).
Proof.
  split.
  - intros st. exists []. by rewrite app_nil_r.
  - intros x y z (e1 & H1 & HP1) (e2 & H2 & HP2). exists (e1 ++ e2).
    rewrite H2, H1, app_assoc. split; [done|by apply Forall_app].
Qed.

Lemma log_extends_solver k A :
  (∀ id, P (EFactor k id)) → respects (log_extends P) (solver k A).
Proof.
  intros HP st. eexists. simpl. split; [done|]. by repeat constructor.
Qed.

Lemma log_extends_clean F :
  (∀ id, P (EClean id)) → respects (log_extends P) (clean F).
Proof.
  intros HP st. eexists. simpl. split; [done|]. by repeat constructor.
Qed.

Lemma log_extends_modify g :
  (∀ st, solver_log (g st) = solver_log st) → respects (log_extends P) (modify g).
Proof. intros Hg st. exists []. simpl. by rewrite Hg, app_nil_r. Qed.

End LogFrame.

Ltac log_frame_step :=
  lazymatch goal with
  | |- respects (log_extends _) (solver _ _) => apply log_extends_solver; done
  | |- respects (log_extends _) (clean _) => apply log_extends_clean; done
  | |- respects (log_extends _) (modify _) =>
      apply log_extends_modify; intros ?; try done
  | _ => frame_step
  end.

Ltac log_frame := repeat log_frame_step.

Section NoAdc.
Context `{LA : LinAlg}.

Abbreviation R := (log_extends no_Adc_factor).

Lemma no_Adc_set_model m : respects R (set_model m).
Proof. unfold set_model. log_frame. Qed.

Lemma no_Adc_lookup_cache sel dt : respects R (lookup_cache sel dt).
Proof. unfold lookup_cache. log_frame. Qed.

Lemma no_Adc_factor_step S tr dt : respects R (factor_step S tr dt).
Proof. unfold factor_step. log_frame; by destruct tr. Qed.

Lemma no_Adc_store_factorizations S : respects R (store_factorizations S).
Proof.
  unfold store_factorizations, clean_values. log_frame.
  all: try apply no_Adc_factor_step.
Qed.

Lemma no_Adc_fields_step S tInd dt cur f : respects R (fields_step S tInd dt cur f).
Proof. unfold fields_step. log_frame; apply no_Adc_lookup_cache. Qed.

Lemma no_Adc_fields_loop S steps tInd cur f : respects R (fields_loop S tInd steps cur f).
Proof.
  revert tInd cur f. induction steps as [|dt steps IH]; intros; simpl; log_frame.
  - apply no_Adc_fields_step.
  - apply IH.
Qed.

Lemma no_Adc_fields S m : respects R (fields S m).
Proof.
  unfold fields. log_frame.
  - apply no_Adc_set_model.
  - apply no_Adc_store_factorizations.
  - apply no_Adc_fields_loop.
Qed.

Lemma no_Adc_Jtvec_refactor S : respects R (Jtvec_refactor S).
Proof.
  unfold Jtvec_refactor. log_frame. all: apply no_Adc_factor_step.
Qed.

Lemma no_Adc_Jtvec_source S f df tInd Ad As acc isrc :
  respects R (Jtvec_source S f df tInd Ad As acc isrc).
Proof. unfold Jtvec_source. log_frame. Qed.

Lemma no_Adc_Jtvec_step S f df tInd loc : respects R (Jtvec_step S f df tInd loc).
Proof.
  unfold Jtvec_step. log_frame.
  all: try apply no_Adc_lookup_cache.
  all: try apply no_Adc_Jtvec_source.
Qed.

Lemma no_Adc_Jtvec_adjoint_pass S m v f : respects R (Jtvec_adjoint_pass S m v f).
Proof.
  unfold Jtvec_adjoint_pass. log_frame.
  all: try apply no_Adc_fields.
  all: try apply no_Adc_set_model.
  all: try apply no_Adc_Jtvec_refactor.
  all: try apply no_Adc_Jtvec_step.
Qed.

Lemma no_Adc_Jtvec_base S m v f : respects R (Jtvec_base S m v f).
Proof. unfold Jtvec_base. log_frame. apply no_Adc_Jtvec_adjoint_pass. Qed.

End NoAdc.

(** ** Runs of the block "Compute new factorizations" of [Jtvec] *)

Section RefactorRuns.
Context `{LA : LinAlg}.

Lemma existsb_None_fromkeys (keys : list Qc) :
  existsb (λ kv : Qc * option Fact, bool_decide (kv.2 = None)) (fromkeys keys)
  = negb (bool_decide (keys = [])).
Proof. by destruct keys. Qed.

Lemma existsb_None_all_Some (d : Cache) :
  Forall (λ kv, is_Some kv.2) d →
  existsb (λ kv : Qc * option Fact, bool_decide (kv.2 = None)) d = false.
Proof.
  induction 1 as [|[k v] d [F HF] _ IH]; [done|]. simpl in *. subst v. simpl.
  exact IH.
Qed.

Lemma factor_events_new_cache S st tr base keys :
  factor_events (new_cache S st tr base keys)
  = imap (λ i dt, EFactor (fkind (new_fact S st tr 0 dt)) (base + i)) keys.
Proof.
  revert base. induction keys as [|dt keys IH]; intros base; [done|].
  rewrite new_cache_cons. unfold factor_events, cache_facts in *. simpl.
  rewrite Nat.add_0_r. f_equal. rewrite IH. apply imap_ext. intros i x _. simpl.
  f_equal. lia.
Qed.

Lemma new_cache_fid S st tr base keys F :
  F ∈ cache_facts (new_cache S st tr base keys) →
  (base ≤ fid F < base + length keys)%nat.
Proof.
  revert base. induction keys as [|dt keys IH]; intros base HF.
  { by apply elem_of_nil in HF. }
  rewrite new_cache_cons in HF. unfold cache_facts in *. simpl in HF.
  apply elem_of_cons in HF as [->|HF]; simpl; [lia|].
  apply IH in HF. lia.
Qed.

Lemma factor_events_length S st tr base keys :
  length (factor_events (new_cache S st tr base keys)) = length keys.
Proof. by rewrite factor_events_new_cache, length_imap. Qed.

Lemma cache_facts_new_cache_length S st tr base keys :
  length (cache_facts (new_cache S st tr base keys)) = length keys.
Proof.
  rewrite <- (factor_events_length S st tr base keys). unfold factor_events.
  by rewrite length_fmap.
Qed.

Lemma Jtvec_refactor_run S st :
  forward_only S = false →
  ATinv st = Some (fromkeys (Np.unique (time_steps st))) →
  ∃ st2,
    Jtvec_refactor S st = (Ok (), st2)
    ∧ same_view st st2
    ∧ ATinv st2
      = Some (new_cache S st true (length (solver_log st)) (Np.unique (time_steps st)))
    ∧ Ainv st2 = Ainv st ∧ _Adcinv st2 = _Adcinv st
    ∧ solver_log st2
      = solver_log st
        ++ factor_events
             (new_cache S st true (length (solver_log st)) (Np.unique (time_steps st)))
    ∧ Jtvec_refactor S st2 = (Ok (), st2).
Proof.
  intros Hfo HAT. unfold Jtvec_refactor. rewrite Hfo.
  unfold mbind, M_bind, get. rewrite HAT, existsb_None_fromkeys.
  destruct (bool_decide (Np.unique (time_steps st) = [])) eqn:E; simpl.
  - apply bool_decide_eq_true_1 in E. rewrite E in *. exists st.
    unfold factor_events, new_cache. simpl. rewrite app_nil_r, HAT. simpl.
    by repeat split.
  - destruct (factor_all S true (Np.unique (time_steps st)) [] st)
      as (st2 & Hrun & Hv & Hc & Ho & Ha & Hl); simpl; try done.
    + apply unique_NoDup.
    + intros dt _. apply not_elem_of_nil.
    + intros dt Hdt. exact (proj1 (elem_of_unique _ _) Hdt).
    + exists st2. simpl in *. rewrite Hrun, Hc.
      rewrite existsb_None_all_Some by apply new_cache_all_Some.
      destruct Hv as [Hm Ht]. by repeat split.
Qed.

End RefactorRuns.

(** ** The galvanic correction of the electric-field [Jtvec] *)

Section Galvanic.
Context `{LA : LinAlg}.

Lemma Adcinv_run S st :
  cls S ≠ Simulation3DMagneticFluxDensity →
  ∃ F st',
    Adcinv S st = (Ok F, st')
    ∧ _Adcinv st' = Some F ∧ model st' = model st
    ∧ solver_log st'
      = solver_log st ++ match _Adcinv st with
                         | Some _ => []
                         | None => [EFactor KAdc (length (solver_log st))]
                         end
    ∧ match _Adcinv st with
      | Some F0 => F = F0 ∧ st' = st
      | None => fkind F = KAdc ∧ fid F = length (solver_log st)
                ∧ getAdc S st = Some (fmat F)
      end.
Proof.
  intros Hcls.
  assert (∃ Adc, getAdc S st = Some Adc) as [Adc HAdc].
  { unfold getAdc. destruct (cls S); [done|eauto..]. }
  unfold Adcinv, mbind, M_bind, get, solver, modify, mret, M_ret. rewrite HAdc.
  destruct (_Adcinv st) as [F|] eqn:HF; simpl.
  - exists F, st. rewrite app_nil_r. by repeat split.
  - eexists _, _. split; [done|]. simpl. by repeat split.
Qed.

Global Instance Adc_settled_preorder : PreOrder Adc_settled.
Proof.
  split.
  - by intros st _.
  - intros x y z Hxy Hyz Hx. rewrite <- (Hxy Hx). apply Hyz. by rewrite (Hxy Hx).
Qed.

Lemma Adc_settled_Adcinv S : respects Adc_settled (Adcinv S).
Proof.
  intros st [F HF]. unfold Adcinv, mbind, M_bind, get, raise, mret, M_ret.
  destruct (getAdc S st); [|done]. by rewrite HF.
Qed.

Lemma Adc_settled_Jtvec_galvanic S f df As acc isrc :
  respects Adc_settled (Jtvec_galvanic S f df As acc isrc).
Proof.
  unfold Jtvec_galvanic. destruct acc, isrc. frame. apply Adc_settled_Adcinv.
Qed.

Lemma Jtvec_galvanic_inductive S f df As acc i src st :
  srcType src = inductive →
  Jtvec_galvanic S f df As acc (i, src) st = (Ok acc, st).
Proof.
  intros Hty. unfold Jtvec_galvanic. destruct acc. by rewrite Hty.
Qed.

Lemma galvanic_fold_inductive S f df As (l : list (nat * Src)) acc st :
  Forall (λ isrc, srcType isrc.2 = inductive) l →
  M_foldl (Jtvec_galvanic S f df As) acc l st = (Ok acc, st).
Proof.
  induction 1 as [|[i src] l Hsrc _ IH]; simpl; [done|].
  unfold mbind, M_bind. by rewrite Jtvec_galvanic_inductive.
Qed.

Lemma galvanic_fold_state S f df As (l : list (nat * Src)) acc st :
  cls S ≠ Simulation3DMagneticFluxDensity →
  Exists (λ isrc, srcType isrc.2 = galvanic) l →
  ∃ F st', Adcinv S st = (Ok F, st')
           ∧ (M_foldl (Jtvec_galvanic S f df As) acc l st).2 = st'.
Proof.
  intros Hcls Hex. revert acc.
  induction l as [|[i src] l IH]; intros acc; [by apply Exists_nil in Hex|].
  destruct (Adcinv_run S st Hcls) as (F & st' & Hrun & HF & _).
  exists F, st'. split; [done|]. simpl. unfold mbind at 1, M_bind at 1.
  destruct (srcType src) eqn:Hty.
  - rewrite Jtvec_galvanic_inductive by done.
    apply Exists_cons in Hex as [Hex|Hex]; [simpl in Hex; congruence|].
    destruct (IH Hex acc) as (F' & st'' & Hrun' & Hst). congruence.
  - assert ((Jtvec_galvanic S f df As acc (i, src) st).2 = st') as Hhead.
    { unfold Jtvec_galvanic. destruct acc as [X JTv]. rewrite Hty. simpl.
      unfold mbind at 1, M_bind at 1. rewrite Hrun.
      match goal with
      | |- (?k st').2 = st' =>
          assert (respects Adc_settled k) as Hk by frame; apply (Hk st'); eauto
      end. }
    destruct (Jtvec_galvanic S f df As acc (i, src) st) as [[acc'|e] st1];
      simpl in Hhead; subst st1; [|done].
    apply (respects_M_foldl Adc_settled); [|eauto].
    intros. apply Adc_settled_Jtvec_galvanic.
Qed.

Lemma val_add_Zero_r (a : val) : val_add a Zero = a.
Proof. by destruct a. Qed.

Lemma Jtvec_galvanic_galvanic S f df As X JTv i src st x old un :
  cls S = Simulation3DElectricField → srcType src = galvanic →
  deriv_at df i 0 = Ok x → X !! i = Some old → field_at f 0 i = Ok un →
  ∃ F st',
    Adcinv S st = (Ok F, st')
    ∧ (Jtvec_galvanic S f df None (X, JTv) (i, src) st = (Raise UnboundLocalError, st'))
    ∧ let Grad := nodal_gradient (mesh S) in
      let new := mv Grad (fact_apply F (mv (mT Grad) (vsub x (mv (mT As) old)))) in
      Jtvec_galvanic S f df (Some As) (X, JTv) (i, src) st
      = (Ok (<[i := new]> X,
             arr_add JTv (val_neg (MeSigmaDeriv (props S) (model st) un new true))),
         st').
Proof.
  intros Hcls Hty Hx Hold Hun.
  destruct (Adcinv_run S st) as (F & st' & Hrun & _ & Hm & _); [congruence|].
  exists F, st'. split; [done|].
  unfold Jtvec_galvanic. rewrite Hty. simpl.
  unfold mbind, M_bind, read, get, mret, M_ret. rewrite Hrun, Hx. simpl.
  split; [done|]. rewrite Hold, Hun. simpl.
  unfold getRHSDeriv, getRHSDeriv_defs, class_attr. rewrite Hcls. simpl.
  by rewrite val_add_Zero_r, Hm.
Qed.

End Galvanic.

(** * The claims *)

Section ClaimsGeneral.
Context `{LA : LinAlg}.

(** C7. For the electric-field, magnetic-field and current-density
    formulations, [getRHSDeriv(tInd, src, v, adjoint)] returns the [Zero]
    sentinel for every time index, every source, every vector and both
    values of the adjoint flag. (The magnetic-field class defines the method
    twice; the later definition is the one in force.) *)
Theorem C7_getRHSDeriv_is_Zero (S : Sim) (st : SimState) (tInd : Z) (src : Src)
    (v : vec) (adjoint : bool) :
  cls S ≠ Simulation3DMagneticFluxDensity →
  getRHSDeriv S st tInd src v adjoint = Ok Zero.
Proof.
  intros Hcls. unfold getRHSDeriv, getRHSDeriv_defs, class_attr.
  destruct (cls S); simpl; done.
Qed.

(** C8. Accessing [Adcinv] on the formulation that does not define
    [getAdc] (the magnetic-flux-density one) raises [NotImplementedError]
    with a message naming the formulation and leaves the object as it was;
    on a formulation that defines [getAdc], the first access factorizes
    [getAdc()] (one entry in the solver log) and stores the factorization in
    [_Adcinv], and an access that finds [_Adcinv] set returns it without
    calling the solver. *)
Theorem C8_Adcinv_capability (S : Sim) (st : SimState) :
  (cls S = Simulation3DMagneticFluxDensity →
   Adcinv S st
   = (Raise (NotImplementedError
        "Support for galvanic sources has not been implemented for b-formulation"),
      st))
  ∧ (cls S ≠ Simulation3DMagneticFluxDensity →
     ∃ Adc, getAdc S st = Some Adc
       ∧ match _Adcinv st with
         | Some F => Adcinv S st = (Ok F, st)
         | None =>
             let F := {| fid := length (solver_log st); fkind := KAdc; fmat := Adc |} in
             let st' := with_Adcinv (Some F)
                          (with_log (solver_log st ++ [EFactor KAdc (fid F)]) st) in
             Adcinv S st = (Ok F, st') ∧ Adcinv S st' = (Ok F, st')
         end).
Proof.
  split.
  - intros Hcls. unfold Adcinv, Adcinv_message, getAdc, mbind, M_bind, get, raise.
    by rewrite Hcls.
  - intros Hcls.
    assert (∃ Adc, getAdc S st = Some Adc) as [Adc HAdc].
    { unfold getAdc. destruct (cls S); [done|eauto..]. }
    exists Adc. split; [done|].
    unfold Adcinv, mbind, M_bind, get, solver, modify, mret, M_ret. rewrite HAdc.
    destruct (_Adcinv st) as [F|] eqn:HF; simpl; [done|].
    split; [done|].
    assert (getAdc S (with_Adcinv
              (Some {| fid := length (solver_log st); fkind := KAdc; fmat := Adc |})
              (with_log (solver_log st ++ [EFactor KAdc (length (solver_log st))]) st))
            = Some Adc) as ->; [|done].
    rewrite <- HAdc. unfold getAdc. done.
Qed.

(** C9. For each of the four formulations, [getAdiag(k)] returns the
    per-step system operator, assembled for the step length
    [time_steps[k]], exactly when [0 <= k < nT], and fails its assertion for
    every other [k]. *)
Theorem C9_getAdiag_range (S : Sim) (st : SimState) (k : Z) :
  ((0 ≤ k < nT st)%Z →
   ∃ dt, time_steps st !! Z.to_nat k = Some dt
         ∧ getAdiag S st k = Ok (Adiag_matrix S st dt))
  ∧ (¬ (0 ≤ k < nT st)%Z → getAdiag S st k = Raise AssertionError).
Proof.
  split.
  - intros Hk. unfold nT in Hk.
    destruct (lookup_lt_is_Some_2 (time_steps st) (Z.to_nat k)) as [dt Hdt]; [lia|].
    exists dt. split; [done|].
    rewrite <- (Z2Nat.id k) by lia. by apply getAdiag_in_range.
  - intros Hk. unfold getAdiag, in_range.
    destruct (bool_decide (0 ≤ k)%Z) eqn:E1; simpl; [|done].
    destruct (bool_decide (k < nT st)%Z) eqn:E2; simpl; [|done].
    apply bool_decide_eq_true_1 in E1, E2. lia.
Qed.



(** C4, amended. With [forward_only = False], two consecutive calls of
    [fields(m)] with the same model return the same fields, but the second
    call does not reuse the persistent factorizations of the first: like a
    call with any other model, it releases every one of them before its
    solves and makes a new factorization for every distinct step length. *)
Theorem C4_fields_repeatable_but_rebuilding (S : Sim) (m : vec) (st : SimState) :
  forward_only S = false → cache_wf st → sources_have_initial S →
  ∃ f st1,
    fields S m st = (Ok f, st1)
    ∧ ∀ m', ∃ f' st2 evs,
        fields S m' st1 = (Ok f', st2)
        ∧ (m' = m → f' = f)
        ∧ solver_log st2 = solver_log st1 ++ evs
        ∧ (∀ F, F ∈ cache_facts (default [] (Ainv st1)) →
             EClean (fid F) ∈ evs ∧ F ∉ cache_facts (default [] (Ainv st2)))
        ∧ length (cache_facts (default [] (Ainv st2)))
          = length (Np.unique (time_steps st1))
        ∧ Forall (λ F, EFactor (fkind F) (fid F) ∈ evs)
                 (cache_facts (default [] (Ainv st2))).
Proof.
  intros Hfo Hwf Hsrc.
  destruct (fields_run_persistent S m st Hfo Hwf Hsrc)
    as (f & st1 & u0 & cur1 & cleans & Hrun & Hm1 & Ht1 & Hu0 & Hspec & Hcl & Hold & Hst).
  simpl in Hst. destruct Hst as (HA & HAT & Hlog).
  exists f, st1. split; [done|]. intros m'.
  assert (cache_wf st1) as Hwf1.
  { unfold cache_wf. rewrite HA, HAT. rewrite new_cache_keys, fromkeys_keys.
    split; [done|]. split; [apply new_cache_all_Some|]. split; [done|].
    right. unfold fromkeys. apply Forall_fmap, Forall_true. intros x. reflexivity. }
  destruct (fields_run_persistent S m' st1 Hfo Hwf1 Hsrc)
    as (f' & st2 & u0' & cur2 & cleans2 & Hrun2 & Hm2 & Ht2 & Hu0' & Hspec2 & Hcl2
        & Hold2 & Hst2).
  simpl in Hst2. destruct Hst2 as (HA2 & HAT2 & Hlog2).
  rewrite HA in Ht2. simpl in Ht2.
  exists f', st2, (cleans2 ++ factor_events
    (new_cache S st2 false (length (solver_log st1 ++ cleans2))
       (Np.unique (time_steps st2)))).
  split; [done|]. split.
  { intros ->. assert (same_view st1 st2) as Hv by (split; congruence).
    rewrite (fields_loop_spec_view _ _ _ _ _ _ _ Hv) in Hspec2.
    rewrite (getInitialFields_view S st1 st2) in Hu0' by congruence.
    rewrite Ht2 in Hspec2. congruence. }
  split; [done|]. rewrite HA2, HA. simpl. split.
  { intros F HF. split.
    - apply elem_of_app. left. apply Hold2. apply elem_of_app. left.
      by rewrite HA.
    - intros HF2. apply new_cache_fid in HF, HF2.
      rewrite Hlog, !length_app, factor_events_length in HF2.
      rewrite length_app in HF. lia. }
  split.
  { rewrite cache_facts_new_cache_length. by rewrite Ht2. }
  apply Forall_forall. intros F HF. apply elem_of_app. right.
  unfold factor_events. by apply (list_elem_of_fmap_2 (λ F, EFactor (fkind F) (fid F))).
Qed.

(** C2, amended. [fields(m)] returns, and for every time index [k] in
    [0, nT) the columns it stores at node [k + 1] are the solver's answers,
    through one operator [A] shared by all the sources, to the right-hand
    sides [RHS(k + 1) - Asubdiag(k) * u_k]; when the solver is exact on [A]
    they satisfy [A * u_{k+1} = RHS(k + 1) - Asubdiag(k) * u_k]. The operator
    [A] is [Adiag(j)], where [j <= k] is the step at which the factorization
    in flight was obtained: the first step of the run of [k], inside which
    consecutive step lengths differ by at most [dt_threshold]. It is
    [Adiag(k)] when steps [j] and [k] have the same length. For a
    single-step simulation whose source terms and initial fields are all
    zero, the field at [t_1] is zero for every source. *)
Theorem C2_fields_steps_with_operator_in_flight (S : Sim) (m : vec) (st : SimState) :
  sources_have_initial S → fields_ready S st →
  ∃ f st',
    fields S m st = (Ok f, st')
    ∧ model st' = Some m
    ∧ time_steps st' = stepping_steps S st
    ∧ (∀ k, (k < length (time_steps st'))%nat →
        ∃ j A,
          run_start S st' j k
          ∧ getAdiag S st' (Z.of_nat j) = Ok A
          ∧ (time_steps st' !! j = time_steps st' !! k →
             getAdiag S st' (Z.of_nat k) = Ok A)
          ∧ step_solved_with S st' f k A
          ∧ ((∀ b, mv A (solve A b) = b) → step_equation S st' f k A))
    ∧ (zero_laws → silent S → length (time_steps st') = 1%nat →
       f !! 1%nat = Some (replicate (length (source_list S)) vzero)).
Proof.
  intros Hsrc Hready.
  destruct (fields_run S m st Hsrc Hready)
    as (f & st' & u0 & cur' & Hrun & Hm & Ht & Hu0 & Hspec).
  exists f, st'. split; [done|]. split; [done|]. split; [done|].
  destruct (getInitialFields_ok S st' Hsrc) as (u0' & Hu0' & Hlen0).
  rewrite Hu0 in Hu0'. simplify_eq.
  apply fields_loop_spec_in_flight in Hspec as [H0 Hsolved];
    [|apply new_fields_length].
  rewrite list_lookup_insert_eq in H0
    by (unfold new_fields; rewrite length_replicate; lia).
  assert (∀ k u, (k ≤ length (time_steps st'))%nat → f !! k = Some u →
            length u = length (source_list S)) as Hcols.
  { apply (solved_columns S st' f u0'); [done..|].
    intros k Hk. destruct (Hsolved k Hk) as (A & _ & HA). eauto. }
  split.
  - intros k Hk. destruct (Hsolved k Hk) as (A & (j & Hj & HA) & Hstep).
    exists j, A. split; [done|]. split; [done|]. split.
    { intros Hsame. destruct (lookup_lt_is_Some_2 (time_steps st') k Hk) as [dt Hdt].
      rewrite Hdt in Hsame. rewrite (getAdiag_in_range _ _ _ _ Hsame) in HA.
      by rewrite (getAdiag_in_range _ _ _ _ Hdt). }
    split; [done|]. intros Hexact. apply step_solved_equation; [|done..].
    intros u Hu. apply (Hcols k); [lia|done].
  - intros Hz Hs Hone.
    destruct (Hsolved 0%nat) as (A & _ & rhs & Asub & u & Hrhs & _ & _ & Hu & Hnext);
      [lia|].
    rewrite Hnext. f_equal.
    apply getRHS_silent in Hrhs; [|done..].
    apply getInitialFields_silent in Hu0; [|done..].
    rewrite H0 in Hu. simplify_eq.
    destruct Hz as (Hadd & Hsub & Hscale & Hmv & Hsolve).
    by rewrite zip_with_replicate, Hmv, Hsub, Hsolve.
Qed.

End ClaimsGeneral.

(** ** Concrete runs on the one-cell instance *)

Section ClaimsConcrete.
Import Scalar.

Lemma C7_getRHSDeriv_is_Zero_witness :
  cls (sim1 Simulation3DMagneticField 1 true 1 []) ≠ Simulation3DMagneticFluxDensity
  ∧ getRHSDeriv (sim1 Simulation3DMagneticField 1 true 1 []) (new_state [1; 1]) 2
      (src1 Simulation3DMagneticField inductive 1 []) 1 true = Ok Zero.
Proof.
  split; [discriminate|].
  apply (C7_getRHSDeriv_is_Zero (sim1 Simulation3DMagneticField 1 true 1 [])).
  simpl. discriminate.
Defined.

Lemma C8_Adcinv_capability_witness :
  (Adcinv (sim1 Simulation3DMagneticFluxDensity 1 true 1 []) (new_state [1; 1])).1
  = Raise (NotImplementedError
      "Support for galvanic sources has not been implemented for b-formulation")
  ∧ ∃ Adc, getAdc (sim1 Simulation3DElectricField 1 true 1 []) (new_state [1; 1])
           = Some Adc.
Proof.
  split.
  - rewrite (proj1 (C8_Adcinv_capability
               (sim1 Simulation3DMagneticFluxDensity 1 true 1 []) (new_state [1; 1])));
      reflexivity.
  - destruct (proj2 (C8_Adcinv_capability
               (sim1 Simulation3DElectricField 1 true 1 []) (new_state [1; 1])))
      as (Adc & HAdc & _); [simpl; discriminate|].
    exists Adc. exact HAdc.
Defined.

Lemma C9_getAdiag_range_witness :
  (∃ dt, getAdiag (sim1 Simulation3DCurrentDensity 1 true 1 []) (new_state [1; 1]) 1
         = Ok (Adiag_matrix (sim1 Simulation3DCurrentDensity 1 true 1 [])
                 (new_state [1; 1]) dt))
  ∧ getAdiag (sim1 Simulation3DCurrentDensity 1 true 1 []) (new_state [1; 1]) 2
    = Raise AssertionError
  ∧ getAdiag (sim1 Simulation3DCurrentDensity 1 true 1 []) (new_state [1; 1]) (-1)
    = Raise AssertionError.
Proof.
  split; [|split].
  - destruct (proj1 (C9_getAdiag_range (sim1 Simulation3DCurrentDensity 1 true 1 [])
                       (new_state [1; 1]) 1)) as (dt & _ & Hdt).
    + unfold nT. simpl. lia.
    + exists dt. exact Hdt.
  - apply (proj2 (C9_getAdiag_range (sim1 Simulation3DCurrentDensity 1 true 1 [])
                    (new_state [1; 1]) 2)).
    unfold nT. simpl. lia.
  - apply (proj2 (C9_getAdiag_range (sim1 Simulation3DCurrentDensity 1 true 1 [])
                    (new_state [1; 1]) (-1))).
    unfold nT. simpl. lia.
Defined.

Lemma QcLA_zero_laws : @zero_laws QcLA.
Proof.
  unfold zero_laws. cbn. repeat split; intros; unfold Qcdiv; ring.
Qed.

Lemma C2_fields_steps_with_operator_in_flight_witness :
  let S := sim1 Simulation3DMagneticFluxDensity 1 true thr_default
             [src1 Simulation3DMagneticFluxDensity inductive 0 (reads_node 1 1)] in
  sources_have_initial S ∧ fields_ready S (new_state [1]%list)
  ∧ ∃ f st' A,
      fields S 2 (new_state [1]%list) = (Ok f, st')
      ∧ getAdiag S st' 0 = Ok A
      ∧ step_solved_with S st' f 0 A
      ∧ f !! 1%nat = Some [0]%list.
Proof.
  intros S.
  assert (sources_have_initial S) as Hsrc by (repeat constructor; by eexists).
  assert (fields_ready S (new_state [1]%list)) as Hready by (intros H; discriminate H).
  split; [exact Hsrc|]. split; [exact Hready|].
  destruct (C2_fields_steps_with_operator_in_flight S 2 (new_state [1]%list) Hsrc Hready)
    as (f & st' & Hrun & Hm & Ht & Hsteps & Hzero).
  change (stepping_steps S (new_state [1]%list)) with [Q2Qc 1]%list in Ht.
  destruct (Hsteps 0%nat) as (j & A & [Hj _] & _ & HA & Hsolved & _).
  { rewrite Ht. simpl. lia. }
  exists f, st', A. split; [exact Hrun|].
  split.
  { apply HA. by replace j with 0%nat by lia. }
  split; [exact Hsolved|].
  apply Hzero.
  - exact QcLA_zero_laws.
  - constructor; [|constructor]. split; [intros m t; split; by left|].
    intros ? ? [= <-]. by right.
  - by rewrite Ht.
Defined.


Lemma C4_fields_repeatable_but_rebuilding_witness :
  let S := sim1 Simulation3DMagneticFluxDensity 1 false thr_default
             (survey1 Simulation3DMagneticFluxDensity inductive 3 1) in
  forward_only S = false ∧ cache_wf (new_state [1; 1; 2]) ∧ sources_have_initial S
  ∧ ∃ f st1 st2,
      fields S 2 (new_state [1; 1; 2]) = (Ok f, st1)
      ∧ fields S 2 st1 = (Ok f, st2)
      ∧ length (cache_facts (default [] (Ainv st2))) = length (Np.unique (time_steps st1)).
Proof.
  intros S.
  assert (sources_have_initial S) as Hsrc by (repeat constructor; by eexists).
  split; [reflexivity|]. split; [reflexivity|]. split; [exact Hsrc|].
  destruct (C4_fields_repeatable_but_rebuilding S 2 (new_state [1; 1; 2])
              eq_refl eq_refl Hsrc) as (f & st1 & Hrun & Hnext).
  destruct (Hnext 2) as (f' & st2 & evs & Hrun2 & Hsame & _ & _ & Hlen & _).
  exists f, st1, st2. rewrite <- (Hsame eq_refl) at 2. repeat split; assumption.
Defined.

(** C1 (code evaluated at a failing input). One inductive source, one
    receiver of the solved field whose time channel is the last node of a
    one-step time mesh, model [2], direction [v = 1], data vector [d = [1]].
    [Jvec] never stores the field derivative of the last node, so it returns
    [0], while [Jtvec] back-propagates the datum from that node and returns
    [1/9] (the derivative of [u_1 = m / (m + 1)] at [m = 2]): the two inner
    products differ. *)
Theorem C1_adjoint_fails_at_last_node :
  let S := sim1 Simulation3DMagneticFluxDensity 1 true thr_default
             (survey1 Simulation3DMagneticFluxDensity inductive 1 1) in
  ∃ Jv JTv,
    (Jvec S 2 1 None (new_state [1]%list)).1 = Ok [Jv]%list
    ∧ (Jtvec S 2 [1]%list None (new_state [1]%list)).1 = Ok JTv
    ∧ dot 1 Jv = 0 ∧ dot 1 JTv = Q2Qc (1 # 9)
    ∧ dot 1 Jv ≠ dot 1 JTv.
Proof.
  intros S. eexists _, _. split; [vm_compute; reflexivity|].
  split; [vm_compute; reflexivity|].
  split; [apply Qc_is_canon; reflexivity|].
  split; [apply Qc_is_canon; reflexivity|].
  intros H. apply (f_equal this) in H. vm_compute in H. discriminate.
Qed.

(** C3 (code evaluated at a failing input). [forward_only = True], the
    default [dt_threshold = 1e-10], step lengths [1e-5] and [1e-5 + 5e-11]:
    they differ by less than the threshold. [fields] goes through both
    steps with one factorization, as the claim says; [Jvec] and [Jtvec], run
    on the fields so obtained, compare the step lengths with [!=], release
    the factorization in flight and make a second one. *)
Theorem C3_sensitivity_loops_ignore_threshold :
  let S := sim1 Simulation3DMagneticFluxDensity 1 true thr_default
             (survey1 Simulation3DMagneticFluxDensity inductive 2 1) in
  let st := new_state [dt_a; dt_b] in
  step_changed S dt_b dt_a = false
  ∧ ∃ f, (fields S 2 st).1 = Ok f
    ∧ solver_log (fields S 2 st).2 = [EFactor (KAdiag 0) 0; EClean 0]
    ∧ (∃ Jv, (Jvec S 2 1 (Some f) st).1 = Ok Jv)
    ∧ solver_log (Jvec S 2 1 (Some f) st).2
      = [EFactor (KAdiag 0) 0; EClean 0; EFactor (KAdiag 1) 2; EClean 2]
    ∧ (∃ JTv, (Jtvec S 2 [1]%list (Some f) st).1 = Ok JTv)
    ∧ solver_log (Jtvec S 2 [1]%list (Some f) st).2
      = [EFactor (KAdiagT 1) 0; EClean 0; EFactor (KAdiagT 0) 2; EClean 2].
Proof.
  intros S st. split; [vm_compute; reflexivity|].
  eexists. split; [vm_compute; reflexivity|].
  split; [vm_compute; reflexivity|].
  split; [eexists; vm_compute; reflexivity|].
  split; [vm_compute; reflexivity|].
  split; [eexists; vm_compute; reflexivity|].
  vm_compute; reflexivity.
Qed.

(** C2, as stated, fails: with [forward_only = True], the default
    threshold and the step lengths [1e-5], [1e-5 + 5e-11], the second step
    reuses the factorization of [Adiag(0)]; the field it stores at [t_2]
    does not solve the system of [Adiag(1)], although the solver is exact
    on [Adiag(1)]. *)
Lemma C2_counterexample :
  let S := sim1 Simulation3DMagneticFluxDensity 1 true thr_default
             (survey1 Simulation3DMagneticFluxDensity inductive 2 1) in
  let st := new_state [dt_a; dt_b] in
  ∃ f A rhs Asubdiag u1 u2,
    (fields S 2 st).1 = Ok f
    ∧ getAdiag S (fields S 2 st).2 1 = Ok A
    ∧ getRHS S (fields S 2 st).2 2 = Ok [rhs]%list
    ∧ getAsubdiag S (fields S 2 st).2 1 = Ok Asubdiag
    ∧ f !! 1%nat = Some [u1]%list ∧ f !! 2%nat = Some [u2]%list
    ∧ (∀ b, mv A (solve A b) = b)
    ∧ mv A u2 ≠ vsub rhs (mv Asubdiag u1).
Proof.
  intros S st. eexists _, _, _, _, _, _.
  split; [vm_compute; reflexivity|].
  split; [vm_compute; reflexivity|].
  split; [vm_compute; reflexivity|].
  split; [vm_compute; reflexivity|].
  split; [vm_compute; reflexivity|].
  split; [vm_compute; reflexivity|].
  split.
  - intros b. cbn [mv solve QcLA]. unfold Qcdiv. rewrite (Qcmult_comm b), Qcmult_assoc.
    rewrite Qcmult_inv_r; [apply Qcmult_1_l|].
    intros H. apply (f_equal this) in H. vm_compute in H. discriminate.
  - intros H. apply (f_equal this) in H. vm_compute in H. discriminate.
Qed.

(** C4, as stated, fails: with [forward_only = False], a second
    [fields(m)] with the same model gives the same fields, but it releases
    the two persistent factorizations of the first call (numbers 0 and 1)
    and makes two new ones (numbers 4 and 5). *)
Lemma C4_counterexample :
  let S := sim1 Simulation3DMagneticFluxDensity 1 false thr_default
             (survey1 Simulation3DMagneticFluxDensity inductive 3 1) in
  let st := new_state [1; 1; 2] in
  let st1 := (fields S 2 st).2 in
  ∃ f, (fields S 2 st).1 = Ok f ∧ (fields S 2 st1).1 = Ok f
    ∧ solver_log st1 = [EFactor (KAdiag 0) 0; EFactor (KAdiag 2) 1]
    ∧ solver_log (fields S 2 st1).2
      = solver_log st1
        ++ [EClean 0; EClean 1; EFactor (KAdiag 0) 4; EFactor (KAdiag 2) 5]
    ∧ fid <$> cache_facts (default [] (Ainv st1)) = [0; 1]%nat
    ∧ fid <$> cache_facts (default [] (Ainv (fields S 2 st1).2)) = [4; 5]%nat.
Proof.
  intros S st st1. eexists. split; [vm_compute; reflexivity|].
  split; [vm_compute; reflexivity|].
  split; [vm_compute; reflexivity|].
  split; [vm_compute; reflexivity|].
  split; vm_compute; reflexivity.
Qed.



End ClaimsConcrete.

(** * Further properties of the code *)

(** ** The per-step operators and their derivatives *)

Section OperatorLemmas.
Context `{LA : LinAlg}.

Lemma py_index_wrap {A} (l : list A) (i : Z) :
  (- Z.of_nat (length l) ≤ i < 0)%Z →
  py_index l i = py_index l (i + Z.of_nat (length l)).
Proof.
  intros Hi. unfold py_index.
  rewrite (bool_decide_eq_false_2 (0 ≤ i < _)%Z) by lia.
  rewrite (bool_decide_eq_true_2 (- _ ≤ i < 0)%Z) by lia.
  rewrite (bool_decide_eq_true_2 (0 ≤ i + _ < _)%Z) by lia.
  f_equal. lia.
Qed.

Lemma py_index_out {A} (l : list A) (i : Z) :
  ¬ (- Z.of_nat (length l) ≤ i < Z.of_nat (length l))%Z → py_index l i = None.
Proof.
  intros Hi. unfold py_index. by rewrite !bool_decide_eq_false_2 by lia.
Qed.

Lemma in_range_true st k : in_range st k = true ↔ (0 ≤ k < nT st)%Z.
Proof.
  unfold in_range. rewrite andb_true_iff, !bool_decide_eq_true. tauto.
Qed.

Lemma in_range_false st k : ¬ (0 ≤ k < nT st)%Z → in_range st k = false.
Proof.
  intros Hk. destruct (in_range st k) eqn:E; [|done].
  apply in_range_true in E. lia.
Qed.

End OperatorLemmas.

Section Operators.
Context `{LA : LinAlg}.

(** X1. [getAsubdiag(k)]: the electric-field, magnetic-field and
    current-density classes assert [0 <= k < nT]; the magnetic-flux-density
    class does not, so there a negative index down to [-nT] is taken from
    the end of [time_steps] and an index outside [-nT, nT) is an
    [IndexError]. *)
Theorem getAsubdiag_range (S : Sim) (st : SimState) (k : Z) :
  ((0 ≤ k < nT st)%Z → ∃ A, getAsubdiag S st k = Ok A)
  ∧ (cls S ≠ Simulation3DMagneticFluxDensity → ¬ (0 ≤ k < nT st)%Z →
     getAsubdiag S st k = Raise AssertionError)
  ∧ (cls S = Simulation3DMagneticFluxDensity →
     ((- nT st ≤ k < 0)%Z →
      getAsubdiag S st k = getAsubdiag S st (k + nT st)
      ∧ ∃ A, getAsubdiag S st k = Ok A)
     ∧ (¬ (- nT st ≤ k < nT st)%Z → getAsubdiag S st k = Raise IndexError)).
Proof.
  assert (∀ j, (0 ≤ j < nT st)%Z → ∃ A, getAsubdiag S st j = Ok A) as Hin.
  { intros j Hj. rewrite <- (Z2Nat.id j) by lia. apply getAsubdiag_ok.
    unfold nT in Hj. lia. }
  split; [apply Hin|]. split.
  - intros Hcls Hk. unfold getAsubdiag. rewrite (in_range_false _ _ Hk).
    by destruct (cls S).
  - intros Hcls. split.
    + intros Hk.
      assert (getAsubdiag S st k = getAsubdiag S st (k + nT st)) as Heq.
      { unfold getAsubdiag, step_at, nT in *. rewrite Hcls.
        by rewrite (py_index_wrap _ k) by lia. }
      split; [done|]. rewrite Heq. apply Hin. lia.
    + intros Hk. unfold getAsubdiag, step_at, nT in *. rewrite Hcls.
      by rewrite py_index_out by lia.
Qed.

(** X2. [getSourceTerm(k)] returns one column of [s_m] and one of [s_e]
    per source for every index that [self.times] accepts,
    [-(nT + 1) <= k <= nT]; outside it raises [IndexError] as soon as there
    is a source to evaluate; with no source it returns the empty arrays
    whatever the index. *)
Theorem getSourceTerm_range (S : Sim) (st : SimState) (k : Z) :
  ((- nT st - 1 ≤ k ≤ nT st)%Z →
   ∃ s_m s_e, getSourceTerm S st k = Ok (s_m, s_e)
     ∧ length s_m = length (source_list S) ∧ length s_e = length (source_list S))
  ∧ (¬ (- nT st - 1 ≤ k ≤ nT st)%Z → source_list S ≠ [] →
     getSourceTerm S st k = Raise IndexError)
  ∧ (source_list S = [] → getSourceTerm S st k = Ok ([], [])).
Proof.
  split; [|split].
  - intros Hk. destruct (getSourceTerm_ok S st k Hk) as (t & _ & ->).
    eexists _, _. split; [done|]. by rewrite !length_fmap.
  - intros Hk Hne. unfold getSourceTerm, time_at, times.
    rewrite py_index_out by (rewrite nodes_length; unfold nT in Hk; lia).
    destruct (source_list S); done.
  - intros Hnil. unfold getSourceTerm. by rewrite Hnil.
Qed.

(** X3. The operators [getAdiag] and [getAsubdiag] depend on the object
    only through the model and the step length at the index: two objects
    with the same model give the same operators at any two indices with the
    same step length. (This is what allows a factorization to be stored
    under its step length and to be dropped when the model changes.) *)
Theorem operators_depend_on_step_length (S : Sim) (st st' : SimState) (j k : nat)
    (dt : Qc) :
  model st' = model st →
  time_steps st !! j = Some dt → time_steps st' !! k = Some dt →
  getAdiag S st (Z.of_nat j) = getAdiag S st' (Z.of_nat k)
  ∧ getAsubdiag S st (Z.of_nat j) = getAsubdiag S st' (Z.of_nat k).
Proof.
  intros Hm Hj Hk.
  pose proof (lookup_lt_Some _ _ _ Hj) as Hj'.
  pose proof (lookup_lt_Some _ _ _ Hk) as Hk'.
  split.
  - rewrite (getAdiag_in_range _ _ _ _ Hj), (getAdiag_in_range _ _ _ _ Hk).
    unfold Adiag_matrix. by rewrite Hm.
  - unfold getAsubdiag, step_at. rewrite !in_range_nat by done.
    rewrite !py_index_in_range by done. by rewrite Hj, Hk, Hm.
Qed.

End Operators.

(** ** Adjoint pairs *)

Section AdjointLemmas.
Context `{LA : LinAlg} (dot : vec → vec → Qc) (Hdot : inner_product dot).

Lemma dot_mvT A x y : dot (mv (mT A) x) y = dot x (mv A y).
Proof.
  destruct Hdot as (Hsym & _ & _ & Hmv & _).
  by rewrite Hsym, <- Hmv, Hsym.
Qed.

Lemma dot_val_mv A a w : dot_val dot (val_mv A a) w = dot_val dot a (mv (mT A) w).
Proof.
  destruct Hdot as (_ & _ & _ & Hmv & _). destruct a; simpl; [done|apply Hmv].
Qed.

Lemma dot_val_mvT A a w : dot_val dot (val_mv (mT A) a) w = dot_val dot a (mv A w).
Proof. destruct a; simpl; [done|apply dot_mvT]. Qed.

Lemma dot_val_mmul A B a w :
  dot_val dot (val_mv (mmul A B) a) w = dot_val dot a (mv (mT B) (mv (mT A) w)).
Proof.
  destruct Hdot as (_ & _ & _ & Hmv & Hmul). destruct a; simpl; [done|].
  by rewrite Hmul, !Hmv.
Qed.

Lemma dot_val_scale q a w : dot_val dot (val_scale q a) w = q * dot_val dot a w.
Proof.
  destruct Hdot as (_ & _ & Hsc & _). destruct a; simpl; [ring|apply Hsc].
Qed.

Lemma dot_val_add a b w :
  dot_val dot (val_add a b) w = dot_val dot a w + dot_val dot b w.
Proof.
  destruct Hdot as (_ & Hadd & _). destruct a, b; simpl; try ring. apply Hadd.
Qed.

End AdjointLemmas.

Section Adjoints.
Context `{LA : LinAlg}.

(** X4. [getAdiagDeriv] with [adjoint=True] is the adjoint of
    [getAdiagDeriv] with [adjoint=False], in each of the four formulations
    and with or without [_makeASymmetric]: the two calls fail together, and
    when they return, [<getAdiagDeriv(k, u, v), w> =
    <getAdiagDeriv(k, u, w, adjoint=True), v>]. *)
Theorem getAdiagDeriv_adjoint (dot : vec → vec → Qc) (S : Sim) (st : SimState)
    (k : Z) (u v w : vec) :
  inner_product dot → derivs_adjoint dot (props S) →
  adjoint_results dot (getAdiagDeriv S st k u v false) (getAdiagDeriv S st k u w true)
    v w.
Proof.
  intros Hdot Hd. unfold getAdiagDeriv, adjoint_results.
  destruct (cls S); simpl.
  - destruct (_makeASymmetric S); rewrite ?dot_val_mvT, ?dot_val_mv by done;
      apply Hd.
  - destruct (in_range st k); simpl; [|done].
    destruct (step_at st k) as [dt|e]; simpl; [|done].
    rewrite !dot_val_scale by done. f_equal. apply Hd.
  - destruct (in_range st k); simpl; [|done].
    rewrite dot_val_mvT by done. apply Hd.
  - destruct (in_range st k); simpl; [|done].
    destruct (_makeASymmetric S);
      rewrite ?dot_val_mvT by done;
      rewrite (dot_val_mv dot Hdot), (dot_val_mv dot Hdot), (dot_val_mvT dot Hdot);
      apply Hd.
Qed.

(** X5. [getAsubdiagDeriv] with [adjoint=True] is the adjoint of
    [getAsubdiagDeriv] with [adjoint=False]: the [Zero] sentinel on both
    sides for three formulations, [-1/dt * MeSigmaDeriv] for the
    electric-field one. *)
Theorem getAsubdiagDeriv_adjoint (dot : vec → vec → Qc) (S : Sim) (st : SimState)
    (k : Z) (u v w : vec) :
  inner_product dot → derivs_adjoint dot (props S) →
  adjoint_results dot (getAsubdiagDeriv S st k u v false)
    (getAsubdiagDeriv S st k u w true) v w.
Proof.
  intros Hdot Hd. unfold getAsubdiagDeriv, adjoint_results.
  destruct (cls S); simpl; try done.
  destruct (step_at st k) as [dt|e]; simpl; [|done].
  rewrite !dot_val_scale by done. f_equal. apply Hd.
Qed.

(** X6. [getRHSDeriv] with [adjoint=True] is the adjoint of [getRHSDeriv]
    with [adjoint=False] for a source whose [evalDeriv] callables are
    adjoint pairs: in the magnetic-flux-density formulation through the
    three terms of the derivative (with or without [_makeASymmetric]), in
    the others because both are the [Zero] sentinel. *)
Theorem getRHSDeriv_adjoint (dot : vec → vec → Qc) (S : Sim) (st : SimState)
    (k : Z) (src : Src) (v w : vec) :
  inner_product dot → derivs_adjoint dot (props S) → source_adjoint dot src →
  adjoint_results dot (getRHSDeriv S st k src v false) (getRHSDeriv S st k src w true)
    v w.
Proof.
  intros Hdot Hd Hsrc. unfold getRHSDeriv, getRHSDeriv_defs, class_attr, adjoint_results.
  destruct (cls S); simpl; try done.
  unfold getRHSDeriv_b. destruct (time_at S st k) as [t|e]; simpl; [|done].
  specialize (Hsrc (model st) t).
  destruct (src_evalDeriv src (model st) t false) as [smD seD].
  destruct (src_evalDeriv src (model st) t true) as [smDT seDT]. simpl in Hsrc.
  destruct (_makeASymmetric S); simpl;
    rewrite ?dot_val_mvT, !dot_val_add, ?dot_val_mmul, ?dot_val_mv by done.
  all: f_equal; [f_equal|]; try apply Hsrc.
  all: destruct ((src_eval src (model st) t).2); simpl; [done|apply Hd].
Qed.

(** X17. [getAdcDeriv] with [adjoint=True] is the adjoint of
    [getAdcDeriv] with [adjoint=False] in the three formulations that
    define it; in the magnetic-flux-density formulation both calls fail in
    the same way, the method being absent. *)
Theorem getAdcDeriv_adjoint (dot : vec → vec → Qc) (S : Sim)
    (MfRhoIDeriv : option vec → vec → vec → bool → val) (st : SimState) (u v w : vec) :
  inner_product dot → derivs_adjoint dot (props S) →
  (∀ m x y z, dot_val dot (MfRhoIDeriv m x y false) z
              = dot_val dot (MfRhoIDeriv m x z true) y) →
  adjoint_results dot (getAdcDeriv S MfRhoIDeriv st u v false)
    (getAdcDeriv S MfRhoIDeriv st u w true) v w.
Proof.
  intros Hdot Hd HI. unfold getAdcDeriv, adjoint_results.
  destruct (cls S); simpl; try done.
  - rewrite dot_val_mvT by done. apply Hd.
  - rewrite dot_val_mv by done. apply HI.
  - rewrite dot_val_mv by done. apply HI.
Qed.

End Adjoints.

(** ** Runs of [fields] *)

Section FieldsShape.
Context `{LA : LinAlg}.

(** X7. [getInitialFields] returns one column per source, the column of
    source [i] being what its [<fieldType>Initial] method returns added to
    zeros, when every source has that method; when some source lacks it
    ([getattr(src, ..., None)] is [None] and is called), it raises
    [TypeError]. *)
Theorem getInitialFields_columns (S : Sim) (st : SimState) :
  (sources_have_initial S →
   ∃ u0, getInitialFields S st = Ok u0
     ∧ length u0 = length (source_list S)
     ∧ ∀ i src init,
         source_list S !! i = Some src →
         src_Initial src (_fieldType (cls S)) = Some init →
         u0 !! i = Some (arr_add vzero (init (model st))))
  ∧ (¬ sources_have_initial S → getInitialFields S st = Raise TypeError).
Proof.
  unfold sources_have_initial, getInitialFields.
  induction (source_list S) as [|src l [IH1 IH2]]; simpl.
  { split; [|intros H; by destruct H]. intros _. exists []. by repeat split. }
  split.
  - intros Hall. apply Forall_cons in Hall as [[init Hinit] Hall].
    destruct (IH1 Hall) as (u0 & -> & Hlen & Hcols). rewrite Hinit. simpl.
    eexists. split; [done|]. split; [simpl; by rewrite Hlen|].
    intros [|i] src' init' Hsrc Hinit'; simpl in *.
    + by simplify_eq.
    + by eapply Hcols.
  - intros Hnot. destruct (src_Initial src (_fieldType (cls S))) as [init|] eqn:Hinit;
      simpl; [|done].
    rewrite IH2; [done|]. intros Hall. apply Hnot. constructor; [by eexists|done].
Qed.

Lemma fields_run_shaped (S : Sim) (m : vec) (st : SimState) :
  sources_have_initial S → fields_ready S st →
  ∃ f st' u0,
    fields S m st = (Ok f, st')
    ∧ length f = Datatypes.S (length (time_steps st'))
    ∧ Forall (λ cols, length cols = length (source_list S)) f
    ∧ getInitialFields S st' = Ok u0 ∧ model st' = Some m
    ∧ f !! 0%nat = Some u0.
Proof.
  intros Hsrc Hready.
  destruct (fields_run S m st Hsrc Hready)
    as (f & st' & u0 & cur' & Hrun & Hm & Ht & Hu0 & Hspec).
  exists f, st', u0. split; [done|].
  destruct (getInitialFields_ok S st' Hsrc) as (u0' & Hu0' & Hlen0).
  rewrite Hu0 in Hu0'. simplify_eq.
  destruct (fields_loop_spec_run S st' any_operator) with
    (steps := time_steps st') (tInd := 0%nat) (cur := @None mat)
    (f := <[0%nat := u0']> (new_fields (length (source_list S)) (length (time_steps st'))))
    as (c & f' & Hspec' & Hlen & Hpre & _ & Hsolved); try done.
  { apply new_fields_length. }
  rewrite Hspec in Hspec'. simplify_eq.
  rewrite new_fields_length in Hlen.
  assert (f' !! 0%nat = Some u0') as H0.
  { rewrite Hpre by lia. apply list_lookup_insert_eq. unfold new_fields.
    rewrite length_replicate. lia. }
  split; [done|]. split; [|done].
  apply Forall_forall. intros cols Hin.
  apply list_elem_of_lookup_1 in Hin as [k Hk].
  apply (solved_columns S st' f' u0') with (k := k); try done.
  - intros j Hj. destruct (Hsolved j) as (A & _ & HA); [lia|]. eauto.
  - apply lookup_lt_Some in Hk. lia.
Qed.

(** X8. When it returns, [fields(m)] gives a container with one entry per
    node of the time mesh ([nT + 1] of them), each holding one column per
    source; the entry of node 0 is what [getInitialFields] returns for the
    model [m]. *)
Theorem fields_shape (S : Sim) (m : vec) (st : SimState) :
  sources_have_initial S → fields_ready S st →
  ∃ f st' u0,
    fields S m st = (Ok f, st')
    ∧ length f = Datatypes.S (length (time_steps st'))
    ∧ Forall (λ cols, length cols = length (source_list S)) f
    ∧ getInitialFields S st' = Ok u0 ∧ model st' = Some m
    ∧ f !! 0%nat = Some u0.
Proof. apply fields_run_shaped. Qed.


End FieldsShape.

(** ** The solver log of a forward-only run *)

Section ForwardLog.
Context `{LA : LinAlg}.

Lemma fields_step_forward_log S tInd dt cur f st cur1 f1 st1 :
  forward_only S = true →
  time_steps st !! tInd = Some dt →
  match cur with None => tInd = 0%nat | Some _ => (0 < tInd)%nat end →
  fields_step S tInd dt cur f st = (Ok (cur1, f1), st1) →
  time_steps st1 = time_steps st
  ∧ is_Some cur1
  ∧ solver_log st1 ++ release_events cur1
    = solver_log st ++ release_events cur
      ++ forward_events (length (solver_log st ++ release_events cur))
           (run_starts S (time_steps st) tInd 1).
Proof.
  intros Hfo Hdt Hcur Hrun.
  pose proof (fields_step_forward S tInd dt cur f st Hfo) as [Hfr _].
  rewrite Hrun in Hfr. simpl in Hfr. destruct Hfr as ([_ Ht] & _).
  split; [done|].
  unfold fields_step in Hrun. rewrite Hfo in Hrun.
  unfold mbind, M_bind, read, get, raise, mret, M_ret, modify, solver, clean in Hrun.
  destruct cur as [F|]; simpl in Hrun.
  - destruct tInd as [|k]; [lia|].
    rewrite bool_decide_eq_true_2 in Hrun by lia.
    replace (Z.of_nat (Datatypes.S k) - 1)%Z with (Z.of_nat k) in Hrun by lia.
    destruct (step_at_ok st k) as (prev & Hprev & Hprev');
      [apply lookup_lt_Some in Hdt; lia|].
    rewrite Hprev in Hrun. simpl in Hrun.
    assert (run_starts S (time_steps st) (Datatypes.S k) 1
            = if step_changed S dt prev then Datatypes.S k :: [] else []) as ->.
    { unfold run_starts. simpl. rewrite filter_cons, filter_nil. simpl.
      rewrite Hprev', Hdt. by destruct (step_changed S dt prev). }
    destruct (step_changed S dt prev); simpl in Hrun;
      repeat (case_match; simplify_eq; simpl in * ); simplify_eq; simpl.
    + split; [by eexists|]. rewrite length_app. simpl.
      rewrite <- !app_assoc. simpl. do 4 f_equal; lia.
    + split; [by eexists|done].
  - subst tInd. simpl in Hrun.
    repeat (case_match; simplify_eq; simpl in * ); simplify_eq; simpl.
    split; [by eexists|]. rewrite app_nil_r. unfold run_starts. simpl.
    by rewrite <- app_assoc.
Qed.

Lemma run_starts_cons S ts tInd n :
  run_starts S ts tInd (Datatypes.S n)
  = run_starts S ts tInd 1 ++ run_starts S ts (Datatypes.S tInd) n.
Proof. unfold run_starts. simpl. by rewrite !filter_cons, filter_nil; case_decide. Qed.

Lemma forward_events_app base l1 l2 :
  forward_events base (l1 ++ l2)
  = forward_events base l1 ++ forward_events (base + 2 * length l1) l2.
Proof.
  revert base. induction l1 as [|j l1 IH]; intros base; simpl.
  - by rewrite Nat.add_0_r.
  - rewrite IH. by replace (base + 2 + 2 * length l1)%nat
      with (base + 2 * Datatypes.S (length l1))%nat by lia.
Qed.

Lemma forward_events_length base l : length (forward_events base l) = (2 * length l)%nat.
Proof. revert base. induction l as [|j l IH]; intros base; simpl; [done|]. rewrite IH. lia. Qed.

Lemma fields_loop_forward_log S steps tInd cur f st cur1 f1 st1 :
  forward_only S = true →
  drop tInd (time_steps st) = steps →
  match cur with None => tInd = 0%nat | Some _ => (0 < tInd)%nat end →
  fields_loop S tInd steps cur f st = (Ok (cur1, f1), st1) →
  solver_log st1 ++ release_events cur1
  = solver_log st ++ release_events cur
    ++ forward_events (length (solver_log st ++ release_events cur))
         (run_starts S (time_steps st) tInd (length steps)).
Proof.
  intros Hfo. revert tInd cur f st.
  induction steps as [|dt steps IH]; intros tInd cur f st Hdrop Hcur Hrun; simpl in *.
  { unfold mret, M_ret in Hrun. simplify_eq. by rewrite app_nil_r. }
  assert (time_steps st !! tInd = Some dt) as Hdt.
  { rewrite <- (Nat.add_0_r tInd), <- lookup_drop, Hdrop. done. }
  unfold mbind, M_bind in Hrun.
  destruct (fields_step S tInd dt cur f st) as [[[cur2 f2]|e] st2] eqn:Hstep; [|done].
  destruct (fields_step_forward_log _ _ _ _ _ _ _ _ _ Hfo Hdt Hcur Hstep)
    as (Ht & [F2 ->] & Hlog).
  apply IH in Hrun; [| |lia].
  2:{ rewrite Ht. replace (Datatypes.S tInd) with (tInd + 1)%nat by lia.
      by rewrite <- drop_drop, Hdrop. }
  rewrite Hrun, Ht. rewrite (app_assoc (solver_log st2)), Hlog.
  rewrite (run_starts_cons S _ tInd (length steps)), forward_events_app.
  rewrite <- !app_assoc. do 3 f_equal.
  rewrite !length_app, forward_events_length. f_equal. lia.
Qed.


End ForwardLog.

(** ** The sensitivities when factorizations persist *)

Section KeptLemmas.
Context `{LA : LinAlg}.

Global Instance Ainv_kept_preorder : PreOrder Ainv_kept.
Proof.
  split.
  - intros st. repeat split. reflexivity.
  - intros x y z (Ht & HA & Hl) (Ht' & HA' & Hl').
    split; [congruence|]. split; [congruence|]. by etrans.
Qed.

Global Instance caches_kept_preorder : PreOrder caches_kept.
Proof.
  split.
  - intros st. repeat split. reflexivity.
  - intros x y z (Ht & HA & HAT & Hl) (Ht' & HA' & HAT' & Hl').
    split; [congruence|]. split; [congruence|]. split; [congruence|]. by etrans.
Qed.

Lemma caches_kept_set_model m : respects caches_kept (set_model m).
Proof.
  intros st.
  destruct (set_model_run m st) as (sta & evs & -> & _ & Ht & HA & HAT & _ & Hlog & Hevs).
  simpl. repeat split; try done. by exists evs.
Qed.

Lemma caches_kept_Ainv_kept st st' : caches_kept st st' → Ainv_kept st st'.
Proof.
  intros (Ht & HA & _ & evs & Hlog & Hevs). repeat split; try done.
  exists evs. split; [done|]. eapply Forall_impl; [exact Hevs|]. by intros [].
Qed.

Lemma Ainv_kept_set_model m : respects Ainv_kept (set_model m).
Proof. intros st. apply caches_kept_Ainv_kept, caches_kept_set_model. Qed.

Lemma caches_kept_lookup_cache sel dt : respects caches_kept (lookup_cache sel dt).
Proof. unfold lookup_cache. frame. Qed.

Lemma Ainv_kept_lookup_cache sel dt : respects Ainv_kept (lookup_cache sel dt).
Proof. unfold lookup_cache. frame. Qed.

Lemma caches_kept_Jvec_source S g f v tInd Ad As acc isrc :
  respects caches_kept (Jvec_source S g f v tInd Ad As acc isrc).
Proof. unfold Jvec_source. frame. Qed.

Lemma caches_kept_Jvec_step S g f v tInd dt loc :
  forward_only S = false → respects caches_kept (Jvec_step S g f v tInd dt loc).
Proof.
  intros Hfo. unfold Jvec_step. rewrite Hfo. frame.
  all: try apply caches_kept_lookup_cache.
  apply caches_kept_Jvec_source.
Qed.

Lemma caches_kept_Jvec_loop S g f v steps tInd loc :
  forward_only S = false → respects caches_kept (Jvec_loop S g f v tInd steps loc).
Proof.
  intros Hfo. revert tInd loc. induction steps as [|dt steps IH]; intros; simpl; frame.
  - by apply caches_kept_Jvec_step.
  - apply IH.
Qed.

Lemma Ainv_kept_solver k A :
  (∀ id, no_direct_factor (EFactor k id)) → respects Ainv_kept (solver k A).
Proof.
  intros Hk st. repeat split. eexists. simpl. split; [done|]. by repeat constructor.
Qed.

Lemma Ainv_kept_clean F : respects Ainv_kept (clean F).
Proof.
  intros st. repeat split. eexists. simpl. split; [done|]. by repeat constructor.
Qed.

Lemma Ainv_kept_modify g :
  (∀ st, time_steps (g st) = time_steps st ∧ Ainv (g st) = Ainv st
         ∧ solver_log (g st) = solver_log st) →
  respects Ainv_kept (modify g).
Proof.
  intros Hg st. destruct (Hg st) as (Ht & HA & Hl). simpl. repeat split; try done.
  exists []. by rewrite Hl, app_nil_r.
Qed.

End KeptLemmas.

Ltac kept_frame_step :=
  lazymatch goal with
  | |- respects Ainv_kept (solver _ _) => apply Ainv_kept_solver; done
  | |- respects Ainv_kept (clean _) => apply Ainv_kept_clean
  | |- respects Ainv_kept (modify _) => apply Ainv_kept_modify; intros ?; done
  | _ => frame_step
  end.

Ltac kept_frame := repeat kept_frame_step.

Section KeptJtvec.
Context `{LA : LinAlg}.

Lemma Ainv_kept_factor_step S dt : respects Ainv_kept (factor_step S true dt).
Proof. unfold factor_step. simpl. kept_frame. Qed.

Lemma Ainv_kept_Jtvec_refactor S : respects Ainv_kept (Jtvec_refactor S).
Proof. unfold Jtvec_refactor. kept_frame. all: apply Ainv_kept_factor_step. Qed.

Lemma Ainv_kept_Adcinv S : respects Ainv_kept (Adcinv S).
Proof. unfold Adcinv. kept_frame. Qed.

Lemma Ainv_kept_Jtvec_source S f df tInd Ad As acc isrc :
  respects Ainv_kept (Jtvec_source S f df tInd Ad As acc isrc).
Proof. unfold Jtvec_source. kept_frame. Qed.

Lemma Ainv_kept_Jtvec_step S f df tInd loc :
  forward_only S = false → respects Ainv_kept (Jtvec_step S f df tInd loc).
Proof.
  intros Hfo. unfold Jtvec_step. rewrite Hfo. kept_frame.
  all: try apply Ainv_kept_lookup_cache.
  all: try apply Ainv_kept_Jtvec_source.
Qed.

Lemma Ainv_kept_Jtvec_adjoint_pass S m v f :
  forward_only S = false → respects Ainv_kept (Jtvec_adjoint_pass S m v (Some f)).
Proof.
  intros Hfo. unfold Jtvec_adjoint_pass. rewrite Hfo. kept_frame.
  all: try apply Ainv_kept_set_model.
  all: try apply Ainv_kept_Jtvec_refactor.
  all: try by apply Ainv_kept_Jtvec_step.
Qed.

Lemma Ainv_kept_Jtvec_galvanic S f df As acc isrc :
  respects Ainv_kept (Jtvec_galvanic S f df As acc isrc).
Proof. unfold Jtvec_galvanic. kept_frame. apply Ainv_kept_Adcinv. Qed.

End KeptJtvec.

Section Kept.
Context `{LA : LinAlg}.


(** X12. With [forward_only = False], [Jtvec(m, v, f)] called with the
    fields [f] never touches the factorizations of the direct operators:
    whether it returns or raises, it leaves [time_steps] and [Ainv] as they
    are and asks the solver for no direct per-step factorization (it may
    factorize transposes, and the steady-state operator in the
    electric-field formulation). *)
Theorem Jtvec_persistent_keeps_Ainv (S : Sim) (m : vec) (v : list vec) (f : Fields)
    (st : SimState) :
  forward_only S = false →
  Ainv_kept st (Jtvec S m v (Some f) st).2.
Proof.
  intros Hfo. revert st.
  change (respects Ainv_kept (Jtvec S m v (Some f))).
  unfold Jtvec, Jtvec_e, Jtvec_base. kept_frame.
  all: try by apply Ainv_kept_Jtvec_adjoint_pass.
  all: apply Ainv_kept_Jtvec_galvanic.
Qed.

End Kept.

(** ** Error behaviour of the sensitivities *)

Section SensitivityErrors.
Context `{LA : LinAlg}.

Lemma getInitialFieldsDeriv_ok S st v :
  sources_have_initial_deriv S →
  ∃ cols, res_map (λ src, getInitialFieldsDeriv S st src v) (source_list S) = Ok cols
          ∧ length cols = length (source_list S).
Proof.
  intros Hs. apply res_map_ok. eapply Forall_impl; [exact Hs|].
  intros src [deriv Hd]. unfold getInitialFieldsDeriv. rewrite Hd.
  destruct (deriv (model st) v); eauto.
Qed.

(** X13. With [forward_only = False], the sensitivities need the
    factorizations that [fields] stores: [Jvec(m, v, f)] on an object whose
    [Ainv] does not exist raises [AttributeError] at the first time step,
    and [Jtvec(m, v, f)] on an object whose [ATinv] does not exist raises
    [AttributeError] before any back-projection. *)
Theorem sensitivities_need_stored_factorizations (S : Sim) (m v : vec) (d : list vec)
    (f : Fields) (st : SimState) :
  forward_only S = false →
  (Ainv st = None → time_steps st ≠ [] → source_list S ≠ [] →
   sources_have_initial_deriv S →
   (Jvec S m v (Some f) st).1 = Raise AttributeError)
  ∧ (ATinv st = None → (Jtvec S m d (Some f) st).1 = Raise AttributeError).
Proof.
  intros Hfo.
  destruct (set_model_run m st) as (sta & evs & Hset & Hm & Ht & HA & HAT & _).
  split.
  - intros HNone Hsteps Hsrcs Hderiv. unfold Jvec, Jvec_gen.
    unfold mbind at 1, M_bind at 1, mret at 1, M_ret at 1. cbv beta iota.
    unfold mbind at 1, M_bind at 1. rewrite Hset. cbv beta iota.
    destruct (getInitialFieldsDeriv_ok S sta v Hderiv) as (cols & Hcols & Hlen).
    unfold mbind at 1, M_bind at 1, read at 1. rewrite Hcols.
    destruct cols as [|c cols]; [destruct (source_list S); simpl in *; done|].
    simpl. unfold mbind at 1, M_bind at 1, get at 1. cbv beta iota.
    rewrite Ht. destruct (time_steps st) as [|dt steps]; [done|]. simpl.
    unfold Jvec_step. rewrite Hfo. unfold lookup_cache.
    unfold mbind, M_bind, mret, M_ret, get, raise. by rewrite HA, HNone.
  - intros HNone.
    assert ((Jtvec_adjoint_pass S m d (Some f) st).1 = Raise AttributeError) as Hpass.
    { unfold Jtvec_adjoint_pass.
      unfold mbind at 1, M_bind at 1, mret at 1, M_ret at 1. cbv beta iota.
      unfold mbind at 1, M_bind at 1. rewrite Hset. cbv beta iota.
      unfold Jtvec_refactor. rewrite Hfo.
      unfold mbind, M_bind, get, raise. by rewrite HAT, HNone. }
    unfold Jtvec, Jtvec_e, Jtvec_base. destruct (cls S); unfold mbind, M_bind;
      destruct (Jtvec_adjoint_pass S m d (Some f) st) as [[r|e] st1]; simpl in Hpass;
      by simplify_eq.
Qed.

(** X14. A survey without sources: [Jvec(m, v, f)] raises [ValueError]
    ([np.hstack] of an empty list) and, with [forward_only = True],
    [Jtvec(m, v, f)] raises [IndexError] ([source_list[0]]), in every
    formulation. *)
Theorem sensitivities_of_empty_survey (S : Sim) (m v : vec) (d : list vec)
    (f : Fields) (st : SimState) :
  source_list S = [] →
  (Jvec S m v (Some f) st).1 = Raise ValueError
  ∧ (forward_only S = true → (Jtvec S m d (Some f) st).1 = Raise IndexError).
Proof.
  intros Hnil.
  destruct (set_model_run m st) as (sta & evs & Hset & _).
  split.
  - unfold Jvec, Jvec_gen.
    unfold mbind at 1, M_bind at 1, mret at 1, M_ret at 1. cbv beta iota.
    unfold mbind at 1, M_bind at 1. rewrite Hset. cbv beta iota.
    unfold mbind at 1, M_bind at 1, read at 1. by rewrite Hnil.
  - intros Hfo.
    assert ((Jtvec_adjoint_pass S m d (Some f) st).1 = Raise IndexError) as Hpass.
    { unfold Jtvec_adjoint_pass.
      unfold mbind at 1, M_bind at 1, mret at 1, M_ret at 1. cbv beta iota.
      unfold mbind at 1, M_bind at 1. rewrite Hset. cbv beta iota.
      unfold Jtvec_refactor. rewrite Hfo, Hnil.
      by unfold mbind, M_bind, mret, M_ret, read. }
    unfold Jtvec, Jtvec_e, Jtvec_base. destruct (cls S); unfold mbind, M_bind;
      destruct (Jtvec_adjoint_pass S m d (Some f) st) as [[r|e] st1]; simpl in Hpass;
      by simplify_eq.
Qed.

End SensitivityErrors.

(** ** The size of the output of [Jvec] *)

Section JvecSize.
Context `{LA : LinAlg}.

Lemma M_bind_Ok {A B} (c : M A) (k : A → M B) st b st' :
  (c ≫= k) st = (Ok b, st') →
  ∃ a st1, c st = (Ok a, st1) ∧ k a st1 = (Ok b, st').
Proof.
  unfold mbind, M_bind. destruct (c st) as [[a|e] st1]; [eauto|done].
Qed.

Lemma length_blocks (g : nat → Src → list (list vec)) (l : list Src) :
  (∀ i src, length <$> g i src = (λ rx, length (Pt rx)) <$> receiver_list src) →
  list_sum (length <$> mjoin (imap g l))
  = list_sum ((λ src, list_sum ((λ rx, length (Pt rx)) <$> receiver_list src)) <$> l).
Proof.
  revert g. induction l as [|src l IH]; intros g Hg; simpl; [done|].
  rewrite fmap_app, list_sum_app, Hg. f_equal. apply IH. intros i src'. apply Hg.
Qed.

(** X15. When [Jvec] returns, its result has one block per time channel
    of every receiver of every source, in the order of the survey: its
    length is the number of data [nD]. *)
Theorem Jvec_output_size (S : Sim) (m v : vec) (f : option Fields) (st st' : SimState)
    (Jv : list vec) :
  Jvec S m v f st = (Ok Jv, st') → length Jv = nD S.
Proof.
  unfold Jvec, Jvec_gen. intros Hrun.
  apply M_bind_Ok in Hrun as (f0 & st0 & _ & Hrun).
  apply M_bind_Ok in Hrun as (? & st1 & _ & Hrun).
  apply M_bind_Ok in Hrun as (dun & st2 & _ & Hrun).
  apply M_bind_Ok in Hrun as (? & st3 & _ & Hrun).
  apply M_bind_Ok in Hrun as ([[Ad df] dun'] & st4 & _ & Hrun).
  apply M_bind_Ok in Hrun as (? & st5 & _ & Hrun).
  apply M_bind_Ok in Hrun as (st6 & st7 & _ & Hrun).
  unfold read, hstack in Hrun.
  match type of Hrun with
  | (match ?L with _ => _ end, _) = _ =>
      remember L as blocks eqn:HL; destruct blocks as [|b bs]; [done|]
  end.
  injection Hrun as <- _. change (b ++ concat bs) with (concat (b :: bs)).
  rewrite HL, length_concat.
  change (map length ?L) with (length <$> L).
  unfold nD. apply length_blocks. intros i src.
  rewrite <- list_fmap_compose. apply list_fmap_ext. intros j rx _. simpl.
  unfold rx_evalDeriv. by rewrite length_fmap.
Qed.

End JvecSize.

(** ** Rounding the step lengths *)

Section Rounding.
Context `{LA : LinAlg}.

Lemma this_minus (x y : Qc) : (this (x - y) == this x - this y)%Q.
Proof. unfold Qcminus, Qcplus, Qcopp, Q2Qc. simpl. by rewrite !Qred_correct. Qed.

Lemma this_mult (x y : Qc) : (this (x * y) == this x * this y)%Q.
Proof. unfold Qcmult, Q2Qc. simpl. by rewrite !Qred_correct. Qed.

Lemma this_Q2Qc (q : Q) : (this (Q2Qc q) == q)%Q.
Proof. simpl. apply Qred_correct. Qed.

Lemma round_half_even_near (x : Qc) :
  (- (1 # 2) <= inject_Z (Np.round_half_even x) - x <= 1 # 2)%Q.
Proof.
  unfold Np.round_half_even, Qccompare.
  pose proof (Qfloor_le x) as Hlo. pose proof (Qlt_floor x) as Hhi.
  rewrite inject_Z_plus in Hhi. change (inject_Z 1) with 1%Q in Hhi.
  generalize dependent (Qfloor x). intros f Hlo Hhi.
  destruct (Qcompare_spec (this (x - Q2Qc (inject_Z f))) (this (Q2Qc (1 # 2)))) as [H|H|H];
    rewrite this_minus, !this_Q2Qc in H.
  - destruct (Z.even f); rewrite ?inject_Z_plus; change (inject_Z 1) with 1%Q; lra.
  - lra.
  - rewrite inject_Z_plus. change (inject_Z 1) with 1%Q. lra.
Qed.

Lemma round_near (x : Qc) : Qcabs (Np.round x - x) * 2 ≤ 1.
Proof.
  pose proof (round_half_even_near x) as [Hlo Hhi].
  assert (Qcabs (Np.round x - x) ≤ Q2Qc (1 # 2)) as H.
  { apply Qcabs_Qcle_condition. unfold Np.round, Qcle.
    rewrite this_minus, !this_Q2Qc.
    split.
    - unfold Qcopp. rewrite this_Q2Qc. simpl. rewrite Qred_correct. lra.
    - lra. }
  unfold Qcle in *. rewrite this_mult. rewrite this_Q2Qc in H.
  change (this 2) with 2%Q. change (this 1) with 1%Q. lra.
Qed.

Lemma round_integer (n : Z) : Np.round_half_even (Q2Qc (inject_Z n)) = n.
Proof.
  unfold Np.round_half_even, Qccompare.
  assert (Qfloor (Q2Qc (inject_Z n)) = n) as ->.
  { rewrite (Qfloor_comp _ (inject_Z n)) by apply this_Q2Qc. apply Qfloor_Z. }
  destruct (Qcompare_spec (this (Q2Qc (inject_Z n) - Q2Qc (inject_Z n)))
              (this (Q2Qc (1 # 2)))) as [H|H|H];
    rewrite this_minus, !this_Q2Qc in H; try done; lra.
Qed.

Lemma inject_Z_succ (n : Z) : Q2Qc (inject_Z (n + 1)) = Q2Qc (inject_Z n) + 1.
Proof.
  apply Qc_is_canon. unfold Qcplus. rewrite !this_Q2Qc, inject_Z_plus.
  change (this 1) with 1%Q. change (inject_Z 1) with 1%Q. reflexivity.
Qed.


End Rounding.

(** ** Receivers *)

Section Receivers.
Context `{LA : LinAlg} (dot : vec → vec → Qc).
Hypothesis Hdot : inner_product dot.
Hypothesis Hzero : ∀ y, dot vzero y = 0.

Lemma dot_vsum_l (l : list vec) (y : vec) :
  dot (vsum l) y = qsum ((λ x, dot x y) <$> l).
Proof.
  destruct Hdot as (_ & Hadd & _).
  induction l as [|x l IH]; simpl; [apply Hzero|]. by rewrite Hadd, IH.
Qed.

Lemma fmap_zip_with_both {A B C D} (g : C → D) (f : A → B → C) (l : list A)
    (k : list B) :
  g <$> zip_with f l k = zip_with (λ x y, g (f x y)) l k.
Proof.
  revert k. induction l as [|x l IH]; intros [|y k]; simpl; try done.
  by rewrite <- IH.
Qed.

Lemma qsum_zip_add {A B} (g h : A → B → Qc) (xs : list A) (ys : list B) :
  qsum (zip_with (λ x y, g x y + h x y) xs ys)
  = qsum (zip_with g xs ys) + qsum (zip_with h xs ys).
Proof.
  revert ys. induction xs as [|x xs IH]; intros [|y ys]; simpl; try ring.
  rewrite IH. ring.
Qed.

Lemma qsum_zip_zero {A B} (xs : list A) (ys : list B) :
  qsum (zip_with (λ _ _, 0) xs ys) = 0.
Proof.
  revert ys. induction xs as [|x xs IH]; intros [|y ys]; simpl; try done.
  rewrite IH. ring.
Qed.

Lemma qsum_row (b : vec → Qc) (row : list Qc) (F : list vec) (k : nat) :
  qsum (zip_with (λ Ft t, default 0 (row !! t) * b Ft) F (seq k (length F)))
  = qsum (zip_with (λ w Ft, w * b Ft) (drop k row) F).
Proof.
  revert k. induction F as [|Ft F IH]; intros k; simpl.
  { by destruct (drop k row). }
  rewrite IH. destruct (row !! k) as [w|] eqn:Hw.
  - rewrite (drop_S _ _ _ Hw). done.
  - apply lookup_ge_None in Hw. rewrite !drop_ge by lia. simpl. ring.
Qed.

End Receivers.

Section ReceiversAdjoint.
Context `{LA : LinAlg}.

(** X18. The projection [BaseRx.evalDeriv]: the call with [adjoint=True]
    ([P.T * d]) is the adjoint of the call with [adjoint=False] ([P * F]),
    for [P = kron(Pt, Ps)] acting block by block on the time nodes:
    [<evalDeriv(F), d> = <F, evalDeriv(d, adjoint=True)>]. *)
Theorem evalDeriv_adjoint (dot : vec → vec → Qc) (rx : Rx) (F d : list vec) :
  inner_product dot → (∀ y, dot vzero y = 0) →
  dots dot (rx_evalDeriv rx F) d
  = dots dot F (rx_evalDeriv_adjoint rx (length F) d).
Proof.
  intros Hdot Hzero. pose proof Hdot as (Hsym & Hadd & Hsc & Hmv & _).
  unfold dots, rx_evalDeriv, rx_evalDeriv_adjoint.
  rewrite zip_with_fmap_l, zip_with_fmap_r.
  transitivity (qsum (zip_with (λ row dr,
      qsum (zip_with (λ w Ft, w * dot (mv (Ps rx) Ft) dr) row F)) (Pt rx) d)).
  { f_equal. apply zip_with_ext; [|done..]. intros row dr.
    rewrite (dot_vsum_l dot Hdot Hzero), fmap_zip_with_both.
    f_equal. apply zip_with_ext; [|done..].
    intros w Ft. apply Hsc. }
  transitivity (qsum (zip_with (λ Ft t,
      qsum (zip_with (λ row dr, default 0 (row !! t) * dot (mv (Ps rx) Ft) dr)
                     (Pt rx) d)) F (seq 0 (length F)))).
  2:{ f_equal. apply zip_with_ext; [|done..]. intros Ft t.
      rewrite Hsym, (dot_vsum_l dot Hdot Hzero), fmap_zip_with_both. f_equal.
      apply zip_with_ext; [|done..]. intros row dr.
      rewrite Hsc. f_equal. rewrite (dot_mvT dot Hdot). apply Hsym. }
  generalize (Pt rx). intros rows. revert d.
  induction rows as [|row rows IH]; intros [|dr d]; simpl;
    rewrite ?qsum_zip_zero; try done.
  rewrite qsum_zip_add, <- IH. f_equal.
  rewrite (qsum_row (λ Ft, dot (mv (Ps rx) Ft) dr) row F 0). by rewrite drop_0.
Qed.

End ReceiversAdjoint.

(** ** The solver log of a forward-only [Jvec] *)

Section JvecLog.
Context `{LA : LinAlg}.

Global Instance unchanged_preorder : PreOrder unchanged.
Proof. split; [done|]. intros x y z Hxy Hyz. unfold unchanged in *. congruence. Qed.

Lemma unchanged_Jvec_source S g f v tInd Ad As acc isrc :
  respects unchanged (Jvec_source S g f v tInd Ad As acc isrc).
Proof. unfold Jvec_source. frame. Qed.

Lemma run_starts_exact_cons ts tInd n :
  run_starts_exact ts tInd (Datatypes.S n)
  = run_starts_exact ts tInd 1 ++ run_starts_exact ts (Datatypes.S tInd) n.
Proof.
  unfold run_starts_exact. simpl. by rewrite !filter_cons, filter_nil; case_decide.
Qed.

Lemma Jvec_step_forward_log S g f v tInd dt cur df dun st cur1 df1 dun1 st1 :
  forward_only S = true →
  time_steps st !! tInd = Some dt →
  match cur with None => tInd = 0%nat | Some _ => (0 < tInd)%nat end →
  Jvec_step S g f v tInd dt (cur, df, dun) st = (Ok (cur1, df1, dun1), st1) →
  time_steps st1 = time_steps st
  ∧ is_Some cur1
  ∧ solver_log st1 ++ release_events cur1
    = solver_log st ++ release_events cur
      ++ forward_events (length (solver_log st ++ release_events cur))
           (run_starts_exact (time_steps st) tInd 1).
Proof.
  intros Hfo Hdt Hcur Hrun. unfold Jvec_step in Hrun. rewrite Hfo in Hrun.
  apply M_bind_Ok in Hrun as (a1 & s1 & H1 & Hrun).
  apply M_bind_Ok in Hrun as (a2 & s2 & H2 & Hrun).
  apply M_bind_Ok in Hrun as (As & s3 & H3 & Hrun).
  apply M_bind_Ok in Hrun as ([df' dun'] & s4 & H4 & Hrun).
  unfold read in H3. unfold mret, M_ret in Hrun.
  assert (s4 = s3) as ->.
  { pose proof (respects_M_foldl unchanged _ (imap pair (source_list S)) (df, dun)
                  (λ b x, unchanged_Jvec_source S g f v tInd a2 As b x) s3) as Hu.
    by rewrite H4 in Hu. }
  assert (s3 = s2) as -> by (by destruct (getAsubdiag S s2 (Z.of_nat tInd)); simplify_eq).
  simplify_eq.
  unfold mbind, M_bind, read, get, raise, mret, M_ret, modify, solver, clean in H1, H2.
  destruct cur as [F|]; simpl in H1.
  - destruct tInd as [|k]; [lia|].
    rewrite bool_decide_eq_true_2 in H1 by lia.
    replace (Z.of_nat (Datatypes.S k) - 1)%Z with (Z.of_nat k) in H1 by lia.
    destruct (step_at_ok st k) as (prev & Hprev & Hprev');
      [apply lookup_lt_Some in Hdt; lia|].
    rewrite Hprev in H1. simpl in H1.
    assert (run_starts_exact (time_steps st) (Datatypes.S k) 1
            = if step_differs dt prev then Datatypes.S k :: [] else []) as ->.
    { unfold run_starts_exact. simpl. rewrite filter_cons, filter_nil. simpl.
      rewrite Hprev', Hdt. by destruct (step_differs dt prev). }
    destruct (step_differs dt prev); simpl in H1; simplify_eq; simpl in *;
      repeat (case_match; simplify_eq; simpl in * ); simplify_eq; simpl.
    + split; [done|]. split; [by eexists|]. rewrite length_app. simpl.
      rewrite <- !app_assoc. simpl. do 4 f_equal; lia.
    + split; [done|]. split; [by eexists|done].
  - subst tInd. simpl in H1. simplify_eq. simpl in *.
    repeat (case_match; simplify_eq; simpl in * ); simplify_eq; simpl.
    split; [done|]. split; [by eexists|]. rewrite app_nil_r.
    unfold run_starts_exact. simpl. by rewrite <- app_assoc.
Qed.

Lemma Jvec_loop_forward_log S g f v steps tInd cur df dun st cur1 df1 dun1 st1 :
  forward_only S = true →
  drop tInd (time_steps st) = steps →
  match cur with None => tInd = 0%nat | Some _ => (0 < tInd)%nat end →
  Jvec_loop S g f v tInd steps (cur, df, dun) st = (Ok (cur1, df1, dun1), st1) →
  solver_log st1 ++ release_events cur1
  = solver_log st ++ release_events cur
    ++ forward_events (length (solver_log st ++ release_events cur))
         (run_starts_exact (time_steps st) tInd (length steps)).
Proof.
  intros Hfo. revert tInd cur df dun st.
  induction steps as [|dt steps IH]; intros tInd cur df dun st Hdrop Hcur Hrun;
    simpl in *.
  { unfold mret, M_ret in Hrun. simplify_eq. by rewrite app_nil_r. }
  assert (time_steps st !! tInd = Some dt) as Hdt.
  { rewrite <- (Nat.add_0_r tInd), <- lookup_drop, Hdrop. done. }
  apply M_bind_Ok in Hrun as ([[cur2 df2] dun2] & st2 & Hstep & Hrun).
  destruct (Jvec_step_forward_log _ _ _ _ _ _ _ _ _ _ _ _ _ _ Hfo Hdt Hcur Hstep)
    as (Ht & [F2 ->] & Hlog).
  apply IH in Hrun; [| |lia].
  2:{ rewrite Ht. replace (Datatypes.S tInd) with (tInd + 1)%nat by lia.
      by rewrite <- drop_drop, Hdrop. }
  rewrite Hrun, Ht. rewrite (app_assoc (solver_log st2)), Hlog.
  rewrite (run_starts_exact_cons _ tInd (length steps)), forward_events_app.
  rewrite <- !app_assoc. do 3 f_equal.
  rewrite !length_app, forward_events_length. f_equal. lia.
Qed.


End JvecLog.

(** ** Receivers: the stored projections *)

Section GetP.
Context {P F : Type} (project : nat → nat → F → P).

(** X20. [BaseRx.getP] and its store: a projection found under the key
    [(mesh, time_mesh)] is returned as it is, whatever the fields object
    passed; with [storeProjections] set, a call stores what it computes, so
    that a further call with the same meshes returns the same projection
    and changes nothing, whatever fields object it is given; with
    [storeProjections] unset the store is never written; and no call
    touches the entry of another pair of meshes. *)
Theorem getP_store (mesh time_mesh : nat) (f f' : F) (rx : RxP.Receiver P) :
  let r := RxP.getP project mesh time_mesh f rx in
  (∀ P0, RxP._Ps rx !! (mesh, time_mesh) = Some P0 → r = (P0, rx))
  ∧ (RxP._Ps rx !! (mesh, time_mesh) = None → r.1 = project mesh time_mesh f)
  ∧ (RxP.storeProjections rx = true →
     RxP._Ps r.2 !! (mesh, time_mesh) = Some r.1
     ∧ RxP.getP project mesh time_mesh f' r.2 = r)
  ∧ (RxP.storeProjections rx = false → r.2 = rx)
  ∧ (∀ key, key ≠ (mesh, time_mesh) → RxP._Ps r.2 !! key = RxP._Ps rx !! key)
  ∧ RxP.storeProjections r.2 = RxP.storeProjections rx.
Proof.
  intros r. subst r. unfold RxP.getP.
  destruct (RxP._Ps rx !! (mesh, time_mesh)) as [P0|] eqn:Hkey; simpl.
  - split; [by intros ? [= <-]|]. split; [done|]. split.
    { intros _. by rewrite Hkey. }
    by repeat split.
  - split; [done|]. split; [by destruct (RxP.storeProjections rx)|].
    destruct (RxP.storeProjections rx) eqn:Hs; simpl.
    + split; [|split; [done|]].
      * intros _. by rewrite lookup_insert_eq.
      * split; [|done]. intros key Hne. by rewrite lookup_insert_ne.
    + split; [done|]. by repeat split.
Qed.

End GetP.

(** ** [Jvec] returns *)

Section JvecReturns.
Context `{LA : LinAlg}.

Lemma res_foldl_ok {A B} (g : B → A → Res B) (l : list A) (acc : B) :
  (∀ b x, x ∈ l → ∃ b', g b x = Ok b') → ∃ b', res_foldl g acc l = Ok b'.
Proof.
  revert acc. induction l as [|x l IH]; intros acc Hg; simpl; [eauto|].
  destruct (Hg acc x) as [b' ->]; [left|]. simpl.
  apply IH. intros b y Hy. apply Hg. by right.
Qed.

Lemma field_at_ok S st f tInd i :
  fields_shaped S st f → (tInd ≤ length (time_steps st))%nat →
  (i < length (source_list S))%nat →
  ∃ u, field_at f tInd i = Ok u.
Proof.
  intros [Hlen Hcols] Ht Hi. unfold field_at, fields_get.
  destruct (lookup_lt_is_Some_2 f tInd) as [cols Hc]; [lia|]. rewrite Hc. simpl.
  eapply Forall_lookup_1 in Hcols; [|exact Hc]. simpl in Hcols.
  destruct (lookup_lt_is_Some_2 cols i) as [u Hu]; [lia|]. rewrite Hu. eauto.
Qed.

Lemma getAdiagDeriv_ok S st (k : nat) u v adjoint :
  (k < length (time_steps st))%nat →
  ∃ a, getAdiagDeriv S st (Z.of_nat k) u v adjoint = Ok a.
Proof.
  intros Hk. unfold getAdiagDeriv. rewrite (in_range_nat _ _ Hk).
  destruct (step_at_ok st k Hk) as (dt & -> & _). simpl.
  destruct (cls S), adjoint, (_makeASymmetric S); simpl; eauto.
Qed.

Lemma getAsubdiagDeriv_ok S st (k : nat) u v adjoint :
  (k < length (time_steps st))%nat →
  ∃ a, getAsubdiagDeriv S st (Z.of_nat k) u v adjoint = Ok a.
Proof.
  intros Hk. unfold getAsubdiagDeriv.
  destruct (step_at_ok st k Hk) as (dt & -> & _). simpl.
  destruct (cls S), adjoint; simpl; eauto.
Qed.

Lemma getRHSDeriv_ok S st (k : nat) src v adjoint :
  (k < length (time_steps st))%nat →
  ∃ a, getRHSDeriv S st (Z.of_nat k + 1) src v adjoint = Ok a.
Proof.
  intros Hk. unfold getRHSDeriv, getRHSDeriv_defs, class_attr.
  destruct (cls S); simpl; eauto.
  unfold getRHSDeriv_b, time_at, times.
  destruct (py_index_valid (Np.nodes (t0 S) (time_steps st)) (Z.of_nat k + 1)) as [t ->].
  { rewrite nodes_length. lia. }
  simpl. destruct (src_evalDeriv _ _ _ _), adjoint, (_makeASymmetric S); simpl; eauto.
Qed.

Lemma Jvec_source_ok S g f v tInd F As df dun i src st :
  source_list S !! i = Some src → length dun = length (source_list S) →
  (tInd < length (time_steps st))%nat → fields_shaped S st f → accessors_defined S →
  ∃ df' dun',
    Jvec_source S g f v tInd (Some F) As (df, dun) (i, src) st = (Ok (df', dun'), st)
    ∧ length dun' = length dun.
Proof.
  intros Hsrc Hdun Ht Hf Hacc.
  pose proof (lookup_lt_Some _ _ _ Hsrc) as Hi.
  destruct (lookup_lt_is_Some_2 dun i) as [du Hdu]; [lia|].
  unfold Jvec_source, mbind, M_bind, read, get, mret, M_ret.
  match goal with
  | |- context [res_foldl ?g ?a ?l] => destruct (res_foldl_ok g l a) as [df' ->]
  end.
  { intros d pf Hpf. apply elem_of_remove_dups, list_elem_of_fmap in Hpf as (rx & -> & Hrx).
    eapply Forall_lookup_1 in Hacc; [|exact Hsrc].
    eapply Forall_forall in Hacc as [a ->]; [|exact Hrx]. rewrite Hdu. simpl. eauto. }
  destruct (field_at_ok S st f (Datatypes.S tInd) i Hf) as [un ->]; [lia|done|].
  destruct (getAdiagDeriv_ok S st tInd un v false Ht) as [dA ->].
  destruct (getRHSDeriv_ok S st tInd src v false Ht) as [dR ->].
  destruct (field_at_ok S st f tInd i Hf) as [u ->]; [lia|done|].
  destruct (getAsubdiagDeriv_ok S st tInd u v false Ht) as [dAs ->].
  rewrite Jvec_guard_in_range by done. rewrite Hdu. simpl.
  destruct g; eexists _, _; (split; [done|]); by rewrite length_insert.
Qed.

Lemma Jvec_sources_ok S g f v tInd F As st (l : list (nat * Src)) df dun :
  Forall (λ isrc, source_list S !! isrc.1 = Some isrc.2) l →
  length dun = length (source_list S) →
  (tInd < length (time_steps st))%nat → fields_shaped S st f → accessors_defined S →
  ∃ df' dun',
    M_foldl (Jvec_source S g f v tInd (Some F) As) (df, dun) l st = (Ok (df', dun'), st)
    ∧ length dun' = length (source_list S).
Proof.
  intros Hl. revert df dun. induction Hl as [|[i src] l Hsrc _ IH];
    intros df dun Hdun Ht Hf Hacc; cbn [M_foldl].
  { by eexists _, _. }
  destruct (Jvec_source_ok S g f v tInd F As df dun i src st) as (df1 & dun1 & Hrun & Hlen);
    try done.
  unfold mbind, M_bind. rewrite Hrun. apply IH; try done. congruence.
Qed.

Lemma imap_pair_lookup (l : list Src) :
  Forall (λ isrc : nat * Src, l !! isrc.1 = Some isrc.2) (imap pair l).
Proof.
  apply Forall_forall. intros [i src] Hin.
  by apply elem_of_lookup_imap in Hin as (i' & src' & [= -> ->] & Hlk).
Qed.

Lemma blocks_nonempty {A} (g : nat → Src → list A) (l : list Src) (src : Src) :
  src ∈ l → (∀ i, g i src ≠ []) → mjoin (imap g l) ≠ [].
Proof.
  revert g. induction l as [|x l IH]; intros g Hin Hg; [by apply elem_of_nil in Hin|].
  simpl. apply elem_of_cons in Hin as [->|Hin].
  - specialize (Hg 0%nat). by destruct (g 0%nat x).
  - intros Hnil. apply app_eq_nil in Hnil as [_ Hnil].
    by apply (IH (g ∘ Datatypes.S) Hin (λ i, Hg (Datatypes.S i))).
Qed.

Lemma fields_shaped_view S st st' f :
  time_steps st' = time_steps st → fields_shaped S st f → fields_shaped S st' f.
Proof. unfold fields_shaped. by intros ->. Qed.

Lemma Jvec_step_forward_ok S g f v tInd dt cur df dun st :
  forward_only S = true →
  time_steps st !! tInd = Some dt →
  length dun = length (source_list S) → fields_shaped S st f → accessors_defined S →
  ∃ F df' dun' st',
    Jvec_step S g f v tInd dt (cur, df, dun) st = (Ok (Some F, df', dun'), st')
    ∧ same_view st st' ∧ length dun' = length (source_list S).
Proof.
  intros Hfo Hdt Hdun Hf Hacc.
  pose proof (lookup_lt_Some _ _ _ Hdt) as Ht.
  unfold Jvec_step. rewrite Hfo.
  (* the factorization this step works with, and the state it leaves *)
  assert (∃ F st1, same_view st st1 ∧ ∀ B (k : option Fact → M B),
    ((match cur with
      | Some F =>
          changed ← (if bool_decide (0 < tInd)%nat then
                       prev ← read (λ st, step_at st (Z.of_nat tInd - 1));
                       mret (step_differs dt prev)
                     else mret false);
          if changed : bool then clean F;; mret None else mret (Some F)
      | None => mret None
      end ≫= λ Ad,
      match Ad with
      | Some F => mret (Some F)
      | None => A ← read (λ st, getAdiag S st (Z.of_nat tInd));
                F ← solver (KAdiag tInd) A; mret (Some F)
      end ≫= k) st) = k (Some F) st1) as (F & st1 & Hv & Hpre).
  { unfold mbind, M_bind, read, get, mret, M_ret, clean, modify, solver.
    destruct cur as [F0|]; simpl.
    - destruct (bool_decide (0 < tInd)%nat) eqn:E; simpl.
      + apply bool_decide_eq_true_1 in E.
        destruct (step_at_ok st (tInd - 1)) as (prev & Hprev & _); [lia|].
        replace (Z.of_nat (tInd - 1)) with (Z.of_nat tInd - 1)%Z in Hprev by lia.
        rewrite Hprev. simpl. destruct (step_differs dt prev); simpl.
        * rewrite (getAdiag_view _ _ _ _ (with_log_view _ _)).
          rewrite (getAdiag_in_range _ _ _ _ Hdt).
          eexists _, _. split; [|intros; reflexivity]. done.
        * by exists F0, st.
      + by exists F0, st.
    - rewrite (getAdiag_in_range _ _ _ _ Hdt).
      eexists _, _. split; [|intros; reflexivity]. done. }
  rewrite Hpre. destruct Hv as [Hvm Hvt].
  destruct (getAsubdiag_ok S st1 tInd) as [As HAs]; [by rewrite Hvt|].
  unfold mbind at 1, M_bind at 1, read at 1. rewrite HAs.
  destruct (Jvec_sources_ok S g f v tInd F As st1 (imap pair (source_list S)) df dun)
    as (df' & dun' & Hrun & Hlen); try done.
  { apply imap_pair_lookup. }
  { by rewrite Hvt. }
  { by apply (fields_shaped_view S st). }
  unfold mbind, M_bind. rewrite Hrun. by exists F, df', dun', st1.
Qed.

Lemma Jvec_loop_forward_ok S g f v steps tInd cur df dun st :
  forward_only S = true →
  drop tInd (time_steps st) = steps → steps ≠ [] →
  length dun = length (source_list S) → fields_shaped S st f → accessors_defined S →
  ∃ F df' dun' st',
    Jvec_loop S g f v tInd steps (cur, df, dun) st = (Ok (Some F, df', dun'), st')
    ∧ same_view st st'.
Proof.
  intros Hfo. revert tInd cur df dun st.
  induction steps as [|dt steps IH]; intros tInd cur df dun st Hdrop Hne Hdun Hf Hacc;
    [done|]. cbn [Jvec_loop].
  assert (time_steps st !! tInd = Some dt) as Hdt.
  { rewrite <- (Nat.add_0_r tInd), <- lookup_drop, Hdrop. done. }
  destruct (Jvec_step_forward_ok S g f v tInd dt cur df dun st)
    as (F & df1 & dun1 & st1 & Hstep & Hv & Hlen); try done.
  unfold mbind, M_bind. rewrite Hstep.
  destruct steps as [|dt' steps'].
  { cbn [Jvec_loop]. by exists F, df1, dun1, st1. }
  destruct (IH (Datatypes.S tInd) (Some F) df1 dun1 st1)
    as (F' & df' & dun' & st' & Hrun & Hv'); try done.
  { destruct Hv as [_ ->]. replace (Datatypes.S tInd) with (tInd + 1)%nat by lia.
    by rewrite <- drop_drop, Hdrop. }
  { destruct Hv as [_ Hvt]. by apply (fields_shaped_view S st). }
  exists F', df', dun', st'. split; [done|]. by etrans.
Qed.

Lemma Jvec_returns_given (S : Sim) (m v : vec) (f : Fields) (st : SimState) :
  forward_only S = true → time_steps st ≠ [] →
  fields_shaped S st f → sources_have_initial_deriv S → accessors_defined S →
  has_receiver S →
  ∃ Jv st', Jvec S m v (Some f) st = (Ok Jv, st')
            ∧ model st' = Some m ∧ time_steps st' = time_steps st.
Proof.
  intros Hfo Hsteps Hf Hderiv Hacc Hrx.
  assert (∃ Jv st', Jvec S m v (Some f) st = (Ok Jv, st')
                    ∧ model st' = Some m ∧ time_steps st' = time_steps st)
    as (Jv & st' & Hrun & Hm & Ht).
  { unfold Jvec, Jvec_gen. rewrite Hfo.
    destruct (set_model_run m st) as (sta & evs & Hset & Hm & Ht & _).
    unfold mbind at 1, M_bind at 1, mret at 1, M_ret at 1. cbv beta iota.
    unfold mbind at 1, M_bind at 1. rewrite Hset. cbv beta iota.
    destruct (getInitialFieldsDeriv_ok S sta v Hderiv) as (cols & Hcols & Hlen).
    unfold mbind at 1, M_bind at 1, read at 1. rewrite Hcols.
    assert (source_list S ≠ []) as Hsrcs.
    { intros Hnil. unfold has_receiver in Hrx. rewrite Hnil in Hrx.
      by apply Exists_nil in Hrx. }
    destruct cols as [|c cols]; [destruct (source_list S); simpl in *; done|].
    simpl. unfold mbind at 1, M_bind at 1, get at 1. cbv beta iota.
    destruct (Jvec_loop_forward_ok S true f v (time_steps sta) 0 None ∅ (c :: cols) sta)
      as (F & df & dun & stb & Hloop & Hvm & Hvt); try done.
    { by rewrite Ht. }
    { by apply (fields_shaped_view S st). }
    unfold mbind at 1, M_bind at 1. rewrite Hloop.
    unfold mbind, M_bind, clean, modify, get, read, hstack. simpl.
    match goal with
    | |- context [match ?L with [] => _ | _ => _ end] =>
        assert (L ≠ []) as HL; [|destruct L; [done|]]
    end.
    { apply Exists_exists in Hrx as (src & Hin & Hne).
      apply (blocks_nonempty _ _ src); [done|].
      intros i. by destruct (receiver_list src). }
    eexists _, _. split; [done|]. simpl. split; congruence. }
  by exists Jv, st'.
Qed.

(** X21. With [forward_only = True], [Jvec] returns whenever there is a
    time step, every source has an [<fieldType>InitialDeriv] method, the
    fields object has the derivative accessor of every receiver, the survey
    has a receiver, and either the fields passed have the shape that
    [fields] gives them or no fields are passed and every source has an
    [<fieldType>Initial] method (so that [fields] returns). *)
Theorem Jvec_returns (S : Sim) (m v : vec) (f : option Fields) (st : SimState) :
  forward_only S = true → time_steps st ≠ [] →
  match f with
  | Some f => fields_shaped S st f
  | None => sources_have_initial S
  end →
  sources_have_initial_deriv S → accessors_defined S → has_receiver S →
  ∃ Jv st', Jvec S m v f st = (Ok Jv, st')
            ∧ model st' = Some m ∧ time_steps st' = time_steps st.
Proof.
  intros Hfo Hsteps Hf Hderiv Hacc Hrx. destruct f as [f|].
  { by apply Jvec_returns_given. }
  destruct (fields_run_shaped S m st) as (f & st1 & u0 & Hrun & Hlen & Hcols & _);
    [done|by unfold fields_ready; rewrite Hfo|].
  destruct (fields_run_forward S m st Hfo Hf Hsteps)
    as (f' & st1' & _ & _ & Hrun' & _ & Ht & _).
  assert (f' = f ∧ st1' = st1) as [-> ->] by (split; congruence).
  destruct (Jvec_returns_given S m v f st1) as (Jv & st' & HJ & Hm & Ht'); try done.
  { by rewrite Ht. }
  exists Jv, st'. split; [|split; congruence].
  rewrite <- HJ. unfold Jvec, Jvec_gen.
  unfold mbind at 1, M_bind at 1. rewrite Hrun.
  by unfold mbind at 2, M_bind at 2, mret at 1, M_ret at 1.
Qed.

End JvecReturns.

(** ** [Jtvec] returns *)

Section JtvecReturns.
Context `{LA : LinAlg}.

Lemma res_foldl_inv {A B} (I : B → Prop) (g : B → A → Res B) (l : list A) (acc : B) :
  I acc → (∀ b x, x ∈ l → I b → ∃ b', g b x = Ok b' ∧ I b') →
  ∃ b', res_foldl g acc l = Ok b' ∧ I b'.
Proof.
  revert acc. induction l as [|x l IH]; intros acc Hacc Hg; simpl; [eauto|].
  destruct (Hg acc x) as (b' & -> & Hb'); [left|done|]. simpl.
  apply IH; [done|]. intros b y Hy. apply Hg. by right.
Qed.

Lemma Jtvec_rx_ok S f n_nodes i row JTv rest rx :
  is_Some (fields_Deriv S (projField rx)) → length row = n_nodes →
  ∃ row' JTv' rest',
    Jtvec_rx S f n_nodes i (row, JTv, rest) rx = Ok (row', JTv', rest')
    ∧ length row' = n_nodes.
Proof.
  intros [a Ha] Hrow. unfold Jtvec_rx.
  match goal with
  | |- context [res_foldl ?g ?acc ?l] =>
      destruct (res_foldl_inv (λ rj : list vec * vec, length rj.1 = n_nodes) g l acc)
        as ([row' JTv'] & -> & Hlen)
  end; [done| |].
  { intros [r j] tInd Hin Hr. apply elem_of_seq in Hin. simpl in *. rewrite Ha.
    destruct (lookup_lt_is_Some_2
      (rx_evalDeriv_adjoint rx n_nodes (take (length (Pt rx)) rest)) tInd) as [pt ->].
    { unfold rx_evalDeriv_adjoint. rewrite length_fmap, length_seq. lia. }
    destruct (lookup_lt_is_Some_2 r tInd) as [old ->]; [lia|]. simpl.
    eexists. split; [done|]. simpl. by rewrite length_insert. }
  simpl. by eexists _, _, _.
Qed.

Lemma Jtvec_backproject_ok S st f v JTv :
  fields_shaped S st f → accessors_defined S →
  ∃ rows JTv', Jtvec_backproject S st f v JTv = Ok (rows, JTv') ∧ rows_shaped S st rows.
Proof.
  intros [Hlen _] Hacc. unfold Jtvec_backproject, rows_shaped.
  set (n := Datatypes.S (length (time_steps st))) in *.
  assert (∀ (l : list (nat * Src)) rows0 J0 rest0,
    Forall (λ isrc, Forall (λ rx, is_Some (fields_Deriv S (projField rx)))
                           (receiver_list isrc.2)) l →
    Forall (λ row, length row = n) rows0 →
    ∃ rows J rest,
      res_foldl (λ (acc : list (list vec) * vec * list vec) isrc,
          let '(rows, JTv, rest) := acc in
          let '(i, src) := isrc in
          let row := replicate (length f) vzero in
          '(row, JTv, rest) ← res_foldl (Jtvec_rx S f n i) (row, JTv, rest)
                                         (receiver_list src);
          Ok (rows ++ [row], JTv, rest)) (rows0, J0, rest0) l
      = Ok (rows, J, rest)
      ∧ length rows = (length rows0 + length l)%nat
      ∧ Forall (λ row, length row = n) rows) as Hfold.
  { induction l as [|[i src] l IH]; intros rows0 J0 rest0 Hl Hrows; simpl.
    { eexists _, _, _. split; [done|]. split; [lia|done]. }
    apply Forall_cons in Hl as [Hsrc Hl]. simpl in Hsrc.
    destruct (res_foldl_inv
      (λ acc : list vec * vec * list vec, length acc.1.1 = n)
      (Jtvec_rx S f n i) (receiver_list src) (replicate (length f) vzero, J0, rest0))
      as ([[row J1] rest1] & Hrx & Hrow).
    { simpl. by rewrite length_replicate. }
    { intros [[r j] rs] rx Hrx Hr. simpl in Hr.
      destruct (Jtvec_rx_ok S f n i r j rs rx) as (r' & j' & rs' & -> & Hr'); [|done|].
      - eapply Forall_forall in Hsrc; [exact Hsrc|done].
      - by eexists. }
    destruct (IH (rows0 ++ [row]) J1 rest1 Hl) as (rows & J & rest & Hrun & Hlen' & Hall).
    { apply Forall_app. split; [done|]. by constructor. }
    cbn [res_foldl]. rewrite Hrx.
    exists rows, J, rest. split; [exact Hrun|]. split; [|done].
    rewrite Hlen', length_app. simpl. lia. }
  destruct (Hfold (imap pair (source_list S)) [] JTv v) as (rows & J & rest & Hrun & Hl & Hall).
  { apply Forall_forall. intros [i src] Hin.
    apply elem_of_lookup_imap in Hin as (i' & src' & [= -> ->] & Hlk). simpl.
    eapply Forall_lookup_1 in Hacc; [exact Hacc|exact Hlk]. }
  { constructor. }
  exists rows, J. split; [|split; [by rewrite Hl, length_imap|done]].
  subst n. cbv zeta in Hrun |- *. by rewrite Hrun.
Qed.


Lemma deriv_at_ok S st rows i k :
  rows_shaped S st rows → (i < length (source_list S))%nat →
  (k ≤ length (time_steps st))%nat → ∃ x, deriv_at rows i k = Ok x.
Proof.
  intros [Hlen Hrows] Hi Hk. unfold deriv_at.
  destruct (lookup_lt_is_Some_2 rows i) as [row Hrow]; [lia|]. rewrite Hrow. simpl.
  eapply Forall_lookup_1 in Hrows; [|exact Hrow]. simpl in Hrows.
  destruct (lookup_lt_is_Some_2 row k) as [x ->]; [lia|]. eauto.
Qed.

Lemma Jtvec_source_ok S f rows tInd F As X JTv i src st :
  source_list S !! i = Some src → length X = length (source_list S) →
  (tInd < length (time_steps st))%nat →
  ((tInd + 1 < length (time_steps st))%nat → is_Some As) →
  fields_shaped S st f → rows_shaped S st rows →
  ∃ X' JTv',
    Jtvec_source S f rows tInd (Some F) As (X, JTv) (i, src) st = (Ok (X', JTv'), st)
    ∧ length X' = length X.
Proof.
  intros Hsrc HX Ht HAs Hf Hrows.
  pose proof (lookup_lt_Some _ _ _ Hsrc) as Hi.
  destruct (lookup_lt_is_Some_2 X i) as [old Hold]; [lia|].
  destruct (deriv_at_ok S st rows i (Datatypes.S tInd) Hrows Hi) as [x Hx]; [lia|].
  unfold Jtvec_source, mbind, M_bind, read, get, mret, M_ret.
  match goal with
  | |- context [if bool_decide (nT st - 1 ≤ _)%Z then ?a else ?b] =>
      assert (∃ new, (if bool_decide (nT st - 1 ≤ Z.of_nat tInd)%Z then a else b) = Ok new)
        as [new ->]
  end.
  { rewrite Hx, Hold. simpl. case_bool_decide as Hc; [eauto|].
    destruct HAs as [A ->]; [unfold nT in Hc; lia|]. simpl. eauto. }
  destruct (field_at_ok S st f tInd i Hf) as [u ->]; [lia|done|].
  destruct (getAsubdiagDeriv_ok S st tInd u new true Ht) as [dAs ->].
  destruct (getRHSDeriv_ok S st tInd src new true Ht) as [dR ->].
  destruct (field_at_ok S st f (Datatypes.S tInd) i Hf) as [un ->]; [lia|done|].
  destruct (getAdiagDeriv_ok S st tInd un new true Ht) as [dA ->].
  eexists _, _. split; [done|]. by rewrite length_insert.
Qed.

Lemma Jtvec_sources_ok S f rows tInd F As st (l : list (nat * Src)) X JTv :
  Forall (λ isrc, source_list S !! isrc.1 = Some isrc.2) l →
  length X = length (source_list S) →
  (tInd < length (time_steps st))%nat →
  ((tInd + 1 < length (time_steps st))%nat → is_Some As) →
  fields_shaped S st f → rows_shaped S st rows →
  ∃ X' JTv',
    M_foldl (Jtvec_source S f rows tInd (Some F) As) (X, JTv) l st = (Ok (X', JTv'), st)
    ∧ length X' = length (source_list S).
Proof.
  intros Hl. revert X JTv. induction Hl as [|[i src] l Hsrc _ IH];
    intros X JTv HX Ht HAs Hf Hrows; cbn [M_foldl].
  { by eexists _, _. }
  destruct (Jtvec_source_ok S f rows tInd F As X JTv i src st)
    as (X1 & J1 & Hrun & Hlen); try done.
  unfold mbind, M_bind. rewrite Hrun. apply IH; try done. congruence.
Qed.

Lemma rows_shaped_view S st st' rows :
  time_steps st' = time_steps st → rows_shaped S st rows → rows_shaped S st' rows.
Proof. unfold rows_shaped. by intros ->. Qed.

Lemma Jtvec_step_forward_ok S f rows tInd cur As X JTv st :
  forward_only S = true →
  (tInd < length (time_steps st))%nat →
  (is_Some cur → (tInd + 1 < length (time_steps st))%nat) →
  length X = length (source_list S) → fields_shaped S st f → rows_shaped S st rows →
  ∃ F As' X' JTv' st',
    Jtvec_step S f rows tInd (cur, As, X, JTv) st = (Ok (Some F, As', X', JTv'), st')
    ∧ same_view st st' ∧ length X' = length (source_list S).
Proof.
  intros Hfo Ht Hcur HX Hf Hrows.
  unfold Jtvec_step. rewrite Hfo.
  destruct (step_at_ok st tInd Ht) as (dt & Hstep & Hdt).
  assert (∃ F st1, same_view st st1 ∧ ∀ B (k : option Fact → M B),
    ((match cur with
      | Some F =>
          st ← get;
          changed ← (if bool_decide (Z.of_nat tInd ≤ nT st)%Z then
                       a ← read (λ st, step_at st (Z.of_nat tInd));
                       b ← read (λ st, step_at st (Z.of_nat tInd + 1));
                       mret (step_differs a b)
                     else mret false);
          if changed : bool then clean F;; mret None else mret (Some F)
      | None => mret None
      end ≫= λ Ad,
      match Ad with
      | Some F => mret (Some F)
      | None => Adiag ← read (λ st, getAdiag S st (Z.of_nat tInd));
                F ← solver (KAdiagT tInd) (mT Adiag); mret (Some F)
      end ≫= k) st) = k (Some F) st1) as (F & st1 & Hv & Hpre).
  { unfold mbind, M_bind, read, get, mret, M_ret, clean, modify, solver.
    destruct cur as [F0|]; simpl.
    - specialize (Hcur (mk_is_Some _ _ eq_refl)).
      rewrite bool_decide_eq_true_2 by (unfold nT; lia). simpl. rewrite Hstep. simpl.
      destruct (step_at_ok st (tInd + 1)) as (nxt & Hnxt & _); [lia|].
      replace (Z.of_nat (tInd + 1)) with (Z.of_nat tInd + 1)%Z in Hnxt by lia.
      rewrite Hnxt. simpl. destruct (step_differs dt nxt); simpl.
      + rewrite (getAdiag_view _ _ _ _ (with_log_view _ _)).
        rewrite (getAdiag_in_range _ _ _ _ Hdt).
        eexists _, _. split; [|intros; reflexivity]. done.
      + by exists F0, st.
    - rewrite (getAdiag_in_range _ _ _ _ Hdt).
      eexists _, _. split; [|intros; reflexivity]. done. }
  rewrite Hpre. destruct Hv as [Hvm Hvt].
  unfold mbind at 1, M_bind at 1, get at 1. cbv beta iota.
  assert (∃ As1, (∀ B (k : option mat → M B),
      ((if bool_decide (Z.of_nat tInd < nT st1 - 1)%Z
        then A ← read (λ st, getAsubdiag S st (Z.of_nat tInd + 1)); mret (Some A)
        else mret As) ≫= k) st1 = k As1 st1)
    ∧ ((tInd + 1 < length (time_steps st1))%nat → is_Some As1)) as (As1 & HAs & HAs1).
  { unfold mbind, M_bind, read, mret, M_ret, nT. case_bool_decide as Hc.
    - destruct (getAsubdiag_ok S st1 (tInd + 1)) as [A HA]; [lia|].
      replace (Z.of_nat (tInd + 1)) with (Z.of_nat tInd + 1)%Z in HA by lia.
      rewrite HA. exists (Some A). split; [done|]. by eexists.
    - exists As. split; [done|]. lia. }
  rewrite HAs.
  destruct (Jtvec_sources_ok S f rows tInd F As1 st1 (imap pair (source_list S)) X JTv)
    as (X' & J' & Hrun & Hlen); try done.
  { apply imap_pair_lookup. }
  { by rewrite Hvt. }
  { by apply (fields_shaped_view S st). }
  { by apply (rows_shaped_view S st). }
  unfold mbind, M_bind. rewrite Hrun. by exists F, As1, X', J', st1.
Qed.

Lemma reverse_seq_S (k : nat) : reverse (seq 0 (Datatypes.S k)) = k :: reverse (seq 0 k).
Proof. by rewrite seq_S, reverse_app. Qed.

Lemma Jtvec_loop_forward_ok S f rows (k : nat) cur As X JTv st :
  forward_only S = true →
  (k ≤ length (time_steps st))%nat →
  (is_Some cur → (k < length (time_steps st))%nat) →
  length X = length (source_list S) → fields_shaped S st f → rows_shaped S st rows →
  ∃ cur' As' X' JTv' st',
    M_foldl (λ loc tInd, Jtvec_step S f rows tInd loc) (cur, As, X, JTv)
            (reverse (seq 0 k)) st = (Ok (cur', As', X', JTv'), st')
    ∧ same_view st st' ∧ ((0 < k)%nat → is_Some cur').
Proof.
  intros Hfo. revert cur As X JTv st.
  induction k as [|k IH]; intros cur As X JTv st Hk Hcur HX Hf Hrows.
  { cbn [seq reverse M_foldl]. exists cur, As, X, JTv, st. split; [done|]. split; [done|lia]. }
  rewrite reverse_seq_S. cbn [M_foldl].
  destruct (Jtvec_step_forward_ok S f rows k cur As X JTv st)
    as (F & As1 & X1 & J1 & st1 & Hstep & Hv & Hlen); try done; try lia.
  { intros H. specialize (Hcur H). lia. }
  unfold mbind, M_bind. rewrite Hstep.
  pose proof Hv as [Hvm Hvt].
  destruct (IH (Some F) As1 X1 J1 st1)
    as (cur' & As' & X' & J' & st' & Hrun & Hv' & Hsome); try done.
  { rewrite Hvt. lia. }
  { intros _. rewrite Hvt. lia. }
  { by apply (fields_shaped_view S st). }
  { by apply (rows_shaped_view S st). }
  exists cur', As', X', J', st'. split; [done|]. split.
  { by etrans. }
  intros _. destruct k; [|apply Hsome; lia].
  cbn [seq reverse M_foldl] in Hrun. unfold mret, M_ret in Hrun.
  injection Hrun as <- _ _ _ _. by eexists.
Qed.

Lemma Jtvec_adjoint_pass_ok (S : Sim) (m : vec) (v : list vec) (f : Fields) (st : SimState) :
  forward_only S = true → time_steps st ≠ [] → source_list S ≠ [] →
  fields_shaped S st f → accessors_defined S →
  ∃ rows loc st', Jtvec_adjoint_pass S m v (Some f) st = (Ok (f, rows, loc), st')
                  ∧ model st' = Some m ∧ time_steps st' = time_steps st.
Proof.
  intros Hfo Hsteps Hsrcs Hf Hacc.
  unfold Jtvec_adjoint_pass, Jtvec_refactor. rewrite Hfo.
  destruct (set_model_run m st) as (sta & evs & Hset & Hm & Ht & _).
  unfold mbind at 1, M_bind at 1, mret at 1, M_ret at 1. cbv beta iota.
  unfold mbind at 1, M_bind at 1. rewrite Hset. cbv beta iota.
  unfold mbind at 1, M_bind at 1, mret at 1, M_ret at 1. cbv beta iota.
  assert (fields_shaped S sta f) as Hfa by by apply (fields_shaped_view S st).
  destruct (field_at_ok S sta f 0 0 Hfa) as [u0 Hu0]; [lia| |].
  { destruct (source_list S); simpl; [done|lia]. }
  unfold mbind at 1, M_bind at 1, read at 1. rewrite Hu0.
  destruct (source_list S) as [|src0 srcs] eqn:Esrc; [done|]. rewrite <- Esrc. simpl.
  destruct (Jtvec_backproject_ok S sta f v vzero Hfa Hacc) as (rows & J0 & Hbp & Hrows).
  unfold mbind at 1, M_bind at 1, read at 1. rewrite Hbp. cbv beta iota.
  unfold mbind at 1, M_bind at 1, get at 1. cbv beta iota.
  destruct (Jtvec_loop_forward_ok S f rows (length (time_steps sta)) None None
              (replicate (length (source_list S)) vzero) J0 sta)
    as (cur & As & X & J & stb & Hloop & [Hvm Hvt] & Hcur); try done.
  { by rewrite length_replicate. }
  unfold mbind at 1, M_bind at 1. rewrite Hloop. cbv beta iota.
  destruct Hcur as [F ->].
  { rewrite Ht. destruct (time_steps st); simpl; [done|lia]. }
  unfold mbind, M_bind, clean, modify, mret, M_ret. simpl.
  eexists _, _, _. split; [done|]. simpl. split; congruence.
Qed.

Lemma Jtvec_returns_given (S : Sim) (m : vec) (v : list vec) (f : Fields) (st : SimState) :
  forward_only S = true → time_steps st ≠ [] → source_list S ≠ [] →
  fields_shaped S st f → accessors_defined S →
  (cls S = Simulation3DElectricField →
   Forall (λ src, srcType src = inductive) (source_list S)) →
  ∃ JTv st', Jtvec S m v (Some f) st = (Ok JTv, st')
             ∧ model st' = Some m ∧ time_steps st' = time_steps st.
Proof.
  intros Hfo Hsteps Hsrcs Hf Hacc Hind.
  destruct (Jtvec_adjoint_pass_ok S m v f st)
    as (rows & [[[cur As] X] J] & st' & Hrun & Hm & Ht); try done.
  assert (Jtvec_base S m v (Some f) st = (Ok J, st')) as Hbase.
  { unfold Jtvec_base, mbind, M_bind. by rewrite Hrun. }
  unfold Jtvec. destruct (cls S) eqn:Ecls; try by exists J, st'.
  exists J, st'. split; [|done].
  unfold Jtvec_e, mbind, M_bind. rewrite Hrun.
  rewrite galvanic_fold_inductive; [done|].
  specialize (Hind eq_refl). apply Forall_forall. intros [i src] Hin.
  apply elem_of_lookup_imap in Hin as (i' & src' & [= -> ->] & Hlk). simpl.
  eapply Forall_lookup_1 in Hind; [exact Hind|exact Hlk].
Qed.

(** X22. With [forward_only = True], [Jtvec] returns whenever there is a
    time step and a source, the fields object has the derivative accessor
    of every receiver, in the electric-field formulation every source is
    inductive, and either the fields passed have the shape that [fields]
    gives them or no fields are passed and every source has an
    [<fieldType>Initial] method. The model is then the current model and
    the time steps are as before. *)
Theorem Jtvec_returns (S : Sim) (m : vec) (v : list vec) (f : option Fields)
    (st : SimState) :
  forward_only S = true → time_steps st ≠ [] → source_list S ≠ [] →
  match f with
  | Some f => fields_shaped S st f
  | None => sources_have_initial S
  end →
  accessors_defined S →
  (cls S = Simulation3DElectricField →
   Forall (λ src, srcType src = inductive) (source_list S)) →
  ∃ JTv st', Jtvec S m v f st = (Ok JTv, st')
             ∧ model st' = Some m ∧ time_steps st' = time_steps st.
Proof.
  intros Hfo Hsteps Hsrcs Hf Hacc Hind. destruct f as [f|].
  { by apply Jtvec_returns_given. }
  destruct (fields_run_shaped S m st) as (f & st1 & u0 & Hrun & Hlen & Hcols & _);
    [done|by unfold fields_ready; rewrite Hfo|].
  destruct (fields_run_forward S m st Hfo Hf Hsteps)
    as (f' & st1' & _ & _ & Hrun' & _ & Ht & _).
  assert (f' = f ∧ st1' = st1) as [-> ->] by (split; congruence).
  destruct (Jtvec_returns_given S m v f st1) as (J & st' & HJ & Hm & Ht'); try done.
  { by rewrite Ht. }
  exists J, st'. split; [|split; congruence].
  rewrite <- HJ. unfold Jtvec, Jtvec_e, Jtvec_base, Jtvec_adjoint_pass.
  destruct (cls S).
  all: unfold mbind at 1, M_bind at 1; unfold mbind at 1, M_bind at 1; rewrite Hrun.
  all: by unfold mbind at 3, M_bind at 3, mret at 1, M_ret at 1.
Qed.

End JtvecReturns.

(** ** The solver log of a forward-only [Jtvec] *)

Section JtvecLog.
Context `{LA : LinAlg}.

Lemma unchanged_Jtvec_source S f rows tInd Ad As acc isrc :
  respects unchanged (Jtvec_source S f rows tInd Ad As acc isrc).
Proof. unfold Jtvec_source. frame. Qed.

Lemma backward_events_app base l1 l2 :
  backward_events base (l1 ++ l2)
  = backward_events base l1 ++ backward_events (base + 2 * length l1) l2.
Proof.
  revert base. induction l1 as [|j l1 IH]; intros base; simpl.
  - by rewrite Nat.add_0_r.
  - rewrite IH. by replace (base + 2 + 2 * length l1)%nat
      with (base + 2 * Datatypes.S (length l1))%nat by lia.
Qed.

Lemma backward_events_length base l :
  length (backward_events base l) = (2 * length l)%nat.
Proof. revert base. induction l as [|j l IH]; intros base; simpl; [done|]. rewrite IH. lia. Qed.

Lemma run_ends_exact_snoc ts (k : nat) :
  reverse (run_ends_exact ts 0 (Datatypes.S k))
  = run_ends_exact ts k 1 ++ reverse (run_ends_exact ts 0 k).
Proof.
  unfold run_ends_exact. rewrite seq_S, filter_app, reverse_app. simpl.
  rewrite !filter_cons, filter_nil. by case_decide.
Qed.

Lemma Jtvec_step_forward_log S f rows tInd cur As X JTv st cur1 As1 X1 J1 st1 :
  forward_only S = true →
  (tInd < length (time_steps st))%nat →
  match cur with
  | None => Datatypes.S tInd = length (time_steps st)
  | Some _ => (Datatypes.S tInd < length (time_steps st))%nat
  end →
  Jtvec_step S f rows tInd (cur, As, X, JTv) st = (Ok (cur1, As1, X1, J1), st1) →
  time_steps st1 = time_steps st
  ∧ is_Some cur1
  ∧ solver_log st1 ++ release_events cur1
    = solver_log st ++ release_events cur
      ++ backward_events (length (solver_log st ++ release_events cur))
           (run_ends_exact (time_steps st) tInd 1).
Proof.
  intros Hfo Ht Hcur Hrun. unfold Jtvec_step in Hrun. rewrite Hfo in Hrun.
  apply M_bind_Ok in Hrun as (a1 & s1 & H1 & Hrun).
  apply M_bind_Ok in Hrun as (a2 & s2 & H2 & Hrun).
  apply M_bind_Ok in Hrun as (? & s3 & H3 & Hrun).
  unfold get in H3. injection H3 as <- <-.
  apply M_bind_Ok in Hrun as (As' & s3 & H3 & Hrun).
  apply M_bind_Ok in Hrun as ([X' J'] & s4 & H4 & Hrun).
  unfold mret, M_ret in Hrun.
  assert (s4 = s3) as ->.
  { pose proof (respects_M_foldl unchanged _ (imap pair (source_list S)) (X, JTv)
                  (λ b x, unchanged_Jtvec_source S f rows tInd a2 As' b x) s3) as Hu.
    by rewrite H4 in Hu. }
  assert (s3 = s2) as ->.
  { unfold mbind, M_bind, read, mret, M_ret in H3.
    destruct (bool_decide (Z.of_nat tInd < nT s2 - 1)%Z);
      [destruct (getAsubdiag S s2 (Z.of_nat tInd + 1))|]; congruence. }
  injection Hrun as <- <- <- <- <-. clear H3 H4.
  destruct (step_at_ok st tInd Ht) as (dt & Hstep & Hdt).
  unfold mbind, M_bind, read, get, raise, mret, M_ret, modify, solver, clean in H1, H2.
  destruct cur as [F|]; simpl in H1.
  - rewrite bool_decide_eq_true_2 in H1 by (unfold nT; lia).
    destruct (step_at_ok st (Datatypes.S tInd) Hcur) as (nxt & Hnxt & Hnxt').
    replace (Z.of_nat (Datatypes.S tInd)) with (Z.of_nat tInd + 1)%Z in Hnxt by lia.
    rewrite Hstep in H1. simpl in H1. rewrite Hnxt in H1. simpl in H1.
    assert (run_ends_exact (time_steps st) tInd 1
            = if step_differs dt nxt then tInd :: [] else []) as ->.
    { unfold run_ends_exact, ends_run_exact. simpl. rewrite filter_cons, filter_nil.
      rewrite Hnxt', Hdt. by destruct (step_differs dt nxt). }
    destruct (step_differs dt nxt); simpl in H1; simplify_eq; simpl in *;
      repeat (case_match; simplify_eq; simpl in * ); simplify_eq; simpl.
    + split; [done|]. split; [by eexists|]. rewrite length_app. simpl.
      rewrite <- !app_assoc. simpl. do 4 f_equal; lia.
    + split; [done|]. split; [by eexists|done].
  - simpl in H1. simplify_eq. simpl in *.
    assert (run_ends_exact (time_steps s1) tInd 1 = tInd :: []) as ->.
    { unfold run_ends_exact, ends_run_exact. simpl. rewrite filter_cons, filter_nil.
      rewrite Hdt, (lookup_ge_None_2 (time_steps s1) (Datatypes.S tInd)) by lia. done. }
    repeat (case_match; simplify_eq; simpl in * ); simplify_eq; simpl.
    split; [done|]. split; [by eexists|]. rewrite app_nil_r.
    by rewrite <- app_assoc.
Qed.

Lemma Jtvec_loop_forward_log S f rows (k : nat) cur As X JTv st cur1 As1 X1 J1 st1 :
  forward_only S = true →
  (k ≤ length (time_steps st))%nat →
  match cur with
  | None => k = length (time_steps st)
  | Some _ => (k < length (time_steps st))%nat
  end →
  M_foldl (λ loc tInd, Jtvec_step S f rows tInd loc) (cur, As, X, JTv)
          (reverse (seq 0 k)) st = (Ok (cur1, As1, X1, J1), st1) →
  solver_log st1 ++ release_events cur1
  = solver_log st ++ release_events cur
    ++ backward_events (length (solver_log st ++ release_events cur))
         (reverse (run_ends_exact (time_steps st) 0 k)).
Proof.
  intros Hfo. revert cur As X JTv st.
  induction k as [|k IH]; intros cur As X JTv st Hk Hcur Hrun.
  { cbn [seq reverse M_foldl] in Hrun. unfold mret, M_ret in Hrun.
    injection Hrun as <- _ _ _ <-. simpl. by rewrite app_nil_r. }
  rewrite reverse_seq_S in Hrun. cbn [M_foldl] in Hrun.
  apply M_bind_Ok in Hrun as ([[[cur2 As2] X2] J2] & st2 & Hstep & Hrun).
  assert (k < length (time_steps st))%nat as Hlt by lia.
  assert (match cur with
          | None => Datatypes.S k = length (time_steps st)
          | Some _ => (Datatypes.S k < length (time_steps st))%nat
          end) as Hcur' by (destruct cur; lia).
  destruct (Jtvec_step_forward_log _ _ _ _ _ _ _ _ _ _ _ _ _ _ Hfo Hlt Hcur' Hstep)
    as (Ht & [F2 ->] & Hlog).
  apply IH in Hrun; [|rewrite Ht; lia..].
  rewrite Hrun, Ht. rewrite (app_assoc (solver_log st2)), Hlog.
  rewrite run_ends_exact_snoc, backward_events_app.
  rewrite <- !app_assoc. do 3 f_equal.
  rewrite !length_app, backward_events_length. f_equal. lia.
Qed.

(** X23. With [forward_only = True], a call [Jtvec(m, v, f)] with the
    fields given that returns (in the electric-field formulation: on
    inductive sources) has made exactly one factorization of the transposed
    operator per run of equal step lengths, going through the runs from the
    last to the first (a run ends at the last step and wherever the step
    length is not equal to the one after: the comparison is [!=], without
    [dt_threshold]), and has released each before making the next. *)
Theorem Jtvec_forward_log (S : Sim) (m : vec) (v : list vec) (f : Fields)
    (st : SimState) (JTv : vec) (st' : SimState) :
  forward_only S = true →
  (cls S = Simulation3DElectricField →
   Forall (λ src, srcType src = inductive) (source_list S)) →
  Jtvec S m v (Some f) st = (Ok JTv, st') →
  ∃ cleans,
    Forall is_clean cleans
    ∧ solver_log st'
      = solver_log st ++ cleans
        ++ backward_events (length (solver_log st ++ cleans))
             (reverse (run_ends_exact (time_steps st) 0 (length (time_steps st)))).
Proof.
  intros Hfo Hind Hrun.
  assert (∃ r st1, Jtvec_adjoint_pass S m v (Some f) st = (Ok r, st1) ∧ st' = st1)
    as (r & st1 & Hpass & ->).
  { unfold Jtvec in Hrun.
    destruct (cls S) eqn:Ecls; unfold Jtvec_base, Jtvec_e in Hrun;
      apply M_bind_Ok in Hrun as ([[f' rows] [[[cur As] X] J]] & st1 & Hpass & Hrun).
    1,3,4: unfold mret, M_ret in Hrun; injection Hrun as _ <-; eauto.
    unfold mbind, M_bind in Hrun. rewrite galvanic_fold_inductive in Hrun.
    { unfold mret, M_ret in Hrun. injection Hrun as _ <-. eauto. }
    specialize (Hind eq_refl). apply Forall_forall. intros [i src] Hin.
    apply elem_of_lookup_imap in Hin as (i' & src' & [= -> ->] & Hlk). simpl.
    eapply Forall_lookup_1 in Hind; [exact Hind|exact Hlk]. }
  clear Hrun. unfold Jtvec_adjoint_pass, Jtvec_refactor in Hpass. rewrite Hfo in Hpass.
  apply M_bind_Ok in Hpass as (f0 & st0 & H0 & Hrun).
  unfold mret, M_ret in H0. injection H0 as <- <-.
  apply M_bind_Ok in Hrun as (? & sta & Hset & Hrun).
  destruct (set_model_run m st) as (sta' & evs & Hset' & Hm & Ht & _ & _ & _ & Hlog & Hevs).
  assert (sta' = sta) as -> by congruence.
  apply M_bind_Ok in Hrun as (? & st2 & H2 & Hrun).
  unfold mret, M_ret in H2. injection H2 as _ <-.
  apply M_bind_Ok in Hrun as (X0 & st2 & H2 & Hrun).
  unfold read in H2. injection H2 as _ <-.
  apply M_bind_Ok in Hrun as ([rows J0] & st3 & H3 & Hrun).
  unfold read in H3. injection H3 as _ <-.
  apply M_bind_Ok in Hrun as (? & st3 & H3 & Hrun).
  unfold get in H3. injection H3 as <- <-.
  apply M_bind_Ok in Hrun as ([[[Ad As] X] J] & st4 & Hloop & Hrun).
  apply Jtvec_loop_forward_log in Hloop; [|done..].
  apply M_bind_Ok in Hrun as (? & st5 & H5 & Hrun).
  unfold mret, M_ret in Hrun. injection Hrun as _ <-.
  exists evs. split; [done|].
  destruct Ad as [F|]; unfold clean, modify, mret, M_ret in H5; injection H5 as H5;
    subst st5; simpl in *; rewrite ?app_nil_r in Hloop.
  - rewrite Hloop, Hlog, Ht. by rewrite <- app_assoc.
  - rewrite Hloop, Hlog, Ht. by rewrite <- app_assoc.
Qed.

End JtvecLog.

(** ** The properties above on the one-cell instance *)

Section FurtherConcrete.
Import Scalar.

Lemma Qcmult_inner_product : inner_product (LA := QcLA) Qcmult.
Proof. unfold inner_product. cbn. repeat split; intros; ring. Qed.

Lemma props1_derivs_adjoint (S : Sim) :
  props S = props1 → derivs_adjoint (LA := QcLA) Qcmult (props S).
Proof.
  intros ->. intros m u v w. cbn. unfold Qcdiv. repeat split; ring.
Qed.

Lemma src1_adjoint c ty u0 pt : source_adjoint (LA := QcLA) Qcmult (src1 c ty u0 pt).
Proof. intros m t v w. by cbn. Qed.

Lemma getAsubdiag_range_witness :
  getAsubdiag (sim1 Simulation3DElectricField 1 true 1 []) (new_state [1; 1]) 5
  = Raise AssertionError
  ∧ getAsubdiag (sim1 Simulation3DMagneticFluxDensity 1 true 1 []) (new_state [1; 1]) (-1)
    = getAsubdiag (sim1 Simulation3DMagneticFluxDensity 1 true 1 []) (new_state [1; 1]) 1
  ∧ getAsubdiag (sim1 Simulation3DMagneticFluxDensity 1 true 1 []) (new_state [1; 1]) 7
    = Raise IndexError.
Proof.
  split; [|split].
  - apply (proj1 (proj2 (getAsubdiag_range (sim1 Simulation3DElectricField 1 true 1 [])
                           (new_state [1; 1]) 5))).
    + discriminate.
    + unfold nT. simpl. lia.
  - apply (proj1 (proj2 (proj2 (getAsubdiag_range
             (sim1 Simulation3DMagneticFluxDensity 1 true 1 []) (new_state [1; 1]) (-1)))
             eq_refl)).
    unfold nT. simpl. lia.
  - apply (proj2 (proj2 (proj2 (getAsubdiag_range
             (sim1 Simulation3DMagneticFluxDensity 1 true 1 []) (new_state [1; 1]) 7))
             eq_refl)).
    unfold nT. simpl. lia.
Defined.

Lemma getSourceTerm_range_witness :
  let S := sim1 Simulation3DMagneticFluxDensity 1 true 1
             (survey1 Simulation3DMagneticFluxDensity inductive 2 1) in
  (∃ s_m s_e, getSourceTerm S (new_state [1; 1]) (-3) = Ok (s_m, s_e))
  ∧ getSourceTerm S (new_state [1; 1]) 3 = Raise IndexError.
Proof.
  intros S. split.
  - destruct (proj1 (getSourceTerm_range S (new_state [1; 1]) (-3)))
      as (s_m & s_e & H & _); [unfold nT; simpl; lia|].
    by exists s_m, s_e.
  - apply (proj1 (proj2 (getSourceTerm_range S (new_state [1; 1]) 3))).
    + unfold nT. simpl. lia.
    + discriminate.
Defined.

Lemma operators_depend_on_step_length_witness :
  let S := sim1 Simulation3DCurrentDensity 1 true 1 [] in
  getAdiag S (new_state [1; 2; 1]) 0 = getAdiag S (new_state [2; 1]) 1
  ∧ getAsubdiag S (new_state [1; 2; 1]) 0 = getAsubdiag S (new_state [2; 1]) 1.
Proof.
  intros S.
  exact (operators_depend_on_step_length S (new_state [1; 2; 1]) (new_state [2; 1])
           0 1 1 eq_refl eq_refl eq_refl).
Defined.

Lemma getAdiagDeriv_adjoint_witness :
  let S := sim1 Simulation3DMagneticFluxDensity 1 true 1 [] in
  inner_product (LA := QcLA) Qcmult ∧ derivs_adjoint (LA := QcLA) Qcmult (props S)
  ∧ adjoint_results (LA := QcLA) Qcmult
      (getAdiagDeriv S (new_state [1; 1]) 0 2 (Q2Qc 3) false)
      (getAdiagDeriv S (new_state [1; 1]) 0 2 (Q2Qc 5) true) (Q2Qc 3) (Q2Qc 5).
Proof.
  intros S. split; [exact Qcmult_inner_product|].
  split; [by apply props1_derivs_adjoint|].
  apply getAdiagDeriv_adjoint; [exact Qcmult_inner_product|by apply props1_derivs_adjoint].
Defined.

Lemma getAsubdiagDeriv_adjoint_witness :
  let S := sim1 Simulation3DElectricField 1 true 1 [] in
  inner_product (LA := QcLA) Qcmult ∧ derivs_adjoint (LA := QcLA) Qcmult (props S)
  ∧ adjoint_results (LA := QcLA) Qcmult
      (getAsubdiagDeriv S (new_state [1; 1]) 0 2 (Q2Qc 3) false)
      (getAsubdiagDeriv S (new_state [1; 1]) 0 2 (Q2Qc 5) true) (Q2Qc 3) (Q2Qc 5).
Proof.
  intros S. split; [exact Qcmult_inner_product|].
  split; [by apply props1_derivs_adjoint|].
  apply getAsubdiagDeriv_adjoint;
    [exact Qcmult_inner_product|by apply props1_derivs_adjoint].
Defined.

Lemma getRHSDeriv_adjoint_witness :
  let S := sim1 Simulation3DMagneticFluxDensity 1 true 1 [] in
  let src := src1 Simulation3DMagneticFluxDensity inductive 1 [] in
  inner_product (LA := QcLA) Qcmult ∧ derivs_adjoint (LA := QcLA) Qcmult (props S)
  ∧ source_adjoint (LA := QcLA) Qcmult src
  ∧ adjoint_results (LA := QcLA) Qcmult
      (getRHSDeriv S (new_state [1; 1]) 1 src (Q2Qc 3) false)
      (getRHSDeriv S (new_state [1; 1]) 1 src (Q2Qc 5) true) (Q2Qc 3) (Q2Qc 5).
Proof.
  intros S src. split; [exact Qcmult_inner_product|].
  split; [by apply props1_derivs_adjoint|]. split; [apply src1_adjoint|].
  apply getRHSDeriv_adjoint;
    [exact Qcmult_inner_product|by apply props1_derivs_adjoint|apply src1_adjoint].
Defined.

Lemma getAdcDeriv_adjoint_witness :
  let S := sim1 Simulation3DMagneticField 1 true 1 [] in
  let D : option Qc → Qc → Qc → bool → val := λ _ x y _, Arr (x * y) in
  inner_product (LA := QcLA) Qcmult ∧ derivs_adjoint (LA := QcLA) Qcmult (props S)
  ∧ adjoint_results (LA := QcLA) Qcmult
      (getAdcDeriv S D (new_state [1; 1]) 2 (Q2Qc 3) false)
      (getAdcDeriv S D (new_state [1; 1]) 2 (Q2Qc 5) true) (Q2Qc 3) (Q2Qc 5).
Proof.
  intros S D. split; [exact Qcmult_inner_product|].
  split; [by apply props1_derivs_adjoint|].
  apply getAdcDeriv_adjoint;
    [exact Qcmult_inner_product|by apply props1_derivs_adjoint|].
  intros m x y z. cbn. ring.
Defined.

Lemma evalDeriv_adjoint_witness :
  inner_product (LA := QcLA) Qcmult ∧ (∀ y : Qc, 0 * y = 0)
  ∧ dots (LA := QcLA) Qcmult
      (rx_evalDeriv (rx1 Simulation3DMagneticFluxDensity [[1; 2]; [0; 1]]) [2; 1]) [1; 1]
    = dots (LA := QcLA) Qcmult [2; 1]
        (rx_evalDeriv_adjoint (rx1 Simulation3DMagneticFluxDensity [[1; 2]; [0; 1]]) 2
           [1; 1]).
Proof.
  split; [exact Qcmult_inner_product|]. split; [intros; ring|].
  apply (evalDeriv_adjoint (LA := QcLA) Qcmult
           (rx1 Simulation3DMagneticFluxDensity [[1; 2]; [0; 1]]) [2; 1] [1; 1]).
  - exact Qcmult_inner_product.
  - intros y. cbn. ring.
Defined.

Lemma getInitialFields_columns_witness :
  let S := sim1 Simulation3DMagneticFluxDensity 1 true 1
             (survey1 Simulation3DMagneticFluxDensity inductive 2 1) in
  sources_have_initial S
  ∧ ∃ u0, getInitialFields S (new_state [1; 1]) = Ok u0
          ∧ length u0 = length (source_list S).
Proof.
  intros S.
  assert (sources_have_initial S) as Hsrc by (repeat constructor; by eexists).
  split; [exact Hsrc|].
  destruct (proj1 (getInitialFields_columns S (new_state [1; 1])) Hsrc)
    as (u0 & Hu0 & Hlen & _).
  exists u0. split; [exact Hu0|exact Hlen].
Defined.

Lemma fields_shape_witness :
  let S := sim1 Simulation3DMagneticFluxDensity 1 false thr_default
             (survey1 Simulation3DMagneticFluxDensity inductive 3 1) in
  sources_have_initial S ∧ fields_ready S (new_state [1; 1; 2])
  ∧ ∃ f st', fields S 2 (new_state [1; 1; 2]) = (Ok f, st')
             ∧ length f = Datatypes.S (length (time_steps st')).
Proof.
  intros S.
  assert (sources_have_initial S) as Hsrc by (repeat constructor; by eexists).
  assert (fields_ready S (new_state [1; 1; 2])) as Hready by reflexivity.
  split; [exact Hsrc|]. split; [exact Hready|].
  destruct (fields_shape S 2 (new_state [1; 1; 2]) Hsrc Hready)
    as (f & st' & u0 & Hrun & Hlen & _).
  exists f, st'. split; [exact Hrun|exact Hlen].
Defined.





Lemma Jtvec_persistent_keeps_Ainv_witness :
  let S := sim1 Simulation3DElectricField 1 false thr_default
             (survey1 Simulation3DElectricField galvanic 2 1) in
  forward_only S = false
  ∧ Ainv_kept (new_state [1; 1])
      (Jtvec S 2 [1]%list (Some fields3) (new_state [1; 1])).2.
Proof.
  intros S. split; [reflexivity|].
  exact (Jtvec_persistent_keeps_Ainv S 2 [1]%list fields3 (new_state [1; 1])
           eq_refl).
Defined.

Lemma sensitivities_need_stored_factorizations_witness :
  let S := sim1 Simulation3DMagneticFluxDensity 1 false thr_default
             (survey1 Simulation3DMagneticFluxDensity inductive 2 1) in
  forward_only S = false ∧ sources_have_initial_deriv S
  ∧ (Jvec S 2 1 (Some fields3) (new_state [1; 1])).1 = Raise AttributeError
  ∧ (Jtvec S 2 [1]%list (Some fields3) (new_state [1; 1])).1
    = Raise AttributeError.
Proof.
  intros S.
  assert (sources_have_initial_deriv S) as Hd by (repeat constructor; by eexists).
  split; [reflexivity|]. split; [exact Hd|].
  destruct (sensitivities_need_stored_factorizations S 2 1 [1]%list fields3
              (new_state [1; 1]) eq_refl) as [HJ HJt].
  split.
  - apply HJ; [reflexivity|discriminate|discriminate|exact Hd].
  - apply HJt. reflexivity.
Defined.

Lemma sensitivities_of_empty_survey_witness :
  let S := sim1 Simulation3DCurrentDensity 1 true thr_default [] in
  source_list S = []
  ∧ (Jvec S 2 1 (Some fields0) (new_state [1])).1 = Raise ValueError
  ∧ (Jtvec S 2 [] (Some fields0) (new_state [1])).1 = Raise IndexError.
Proof.
  intros S. split; [reflexivity|].
  destruct (sensitivities_of_empty_survey S 2 1 [] fields0 (new_state [1]) eq_refl)
    as [HJ HJt].
  split; [exact HJ|exact (HJt eq_refl)].
Defined.

Lemma Jvec_output_size_witness :
  let S := sim1 Simulation3DMagneticFluxDensity 1 true thr_default
             (survey1 Simulation3DMagneticFluxDensity inductive 2 1) in
  ∃ Jv st', Jvec S 2 1 None (new_state [1; 1]) = (Ok Jv, st') ∧ length Jv = nD S.
Proof.
  intros S.
  assert (∃ Jv st', Jvec S 2 1 None (new_state [1; 1]) = (Ok Jv, st'))
    as (Jv & st' & Hrun) by (eexists _, _; vm_compute; reflexivity).
  exists Jv, st'. split; [exact Hrun|].
  exact (Jvec_output_size S 2 1 None (new_state [1; 1]) st' Jv Hrun).
Defined.


Lemma Jvec_returns_witness :
  let S := sim1 Simulation3DMagneticFluxDensity 1 true thr_default
             (survey1 Simulation3DMagneticFluxDensity inductive 2 1) in
  forward_only S = true ∧ sources_have_initial S ∧ sources_have_initial_deriv S
  ∧ accessors_defined S ∧ has_receiver S
  ∧ ∃ Jv st', Jvec S 2 1 None (new_state [1; 1]) = (Ok Jv, st').
Proof.
  intros S.
  assert (sources_have_initial S) as Hsrc by (repeat constructor; by eexists).
  assert (sources_have_initial_deriv S) as Hd by (repeat constructor; by eexists).
  assert (accessors_defined S) as Hacc by (repeat constructor; by eexists).
  assert (has_receiver S) as Hrx by (constructor; discriminate).
  split; [reflexivity|]. split; [exact Hsrc|]. split; [exact Hd|].
  split; [exact Hacc|]. split; [exact Hrx|].
  destruct (Jvec_returns S 2 1 None (new_state [1; 1]) eq_refl) as (Jv & st' & Hrun & _);
    [discriminate|exact Hsrc|exact Hd|exact Hacc|exact Hrx|].
  exists Jv, st'. exact Hrun.
Defined.

Lemma Jtvec_returns_witness :
  let S := sim1 Simulation3DElectricField 1 true thr_default
             (survey1 Simulation3DElectricField inductive 2 1) in
  forward_only S = true ∧ sources_have_initial S ∧ accessors_defined S
  ∧ Forall (λ src, srcType src = inductive) (source_list S)
  ∧ ∃ JTv st', Jtvec S 2 (1 :: []) None (new_state [1; 1]) = (Ok JTv, st').
Proof.
  intros S.
  assert (sources_have_initial S) as Hsrc by (repeat constructor; by eexists).
  assert (accessors_defined S) as Hacc by (repeat constructor; by eexists).
  assert (Forall (λ src, srcType src = inductive) (source_list S)) as Hind
    by (repeat constructor).
  split; [reflexivity|]. split; [exact Hsrc|]. split; [exact Hacc|]. split; [exact Hind|].
  destruct (Jtvec_returns S 2 (1 :: []) None (new_state [1; 1]) eq_refl)
    as (JTv & st' & Hrun & _);
    [discriminate|discriminate|exact Hsrc|exact Hacc|intros _; exact Hind|].
  exists JTv, st'. exact Hrun.
Defined.

Lemma Jtvec_forward_log_witness :
  let S := sim1 Simulation3DMagneticFluxDensity 1 true thr_default
             (survey1 Simulation3DMagneticFluxDensity inductive 2 1) in
  let f : Fields := fields3 in
  forward_only S = true
  ∧ ∃ JTv st' cleans,
      Jtvec S 2 (1 :: []) (Some f) (new_state [dt_a; dt_b]) = (Ok JTv, st')
      ∧ solver_log st'
        = solver_log (new_state [dt_a; dt_b]) ++ cleans
          ++ backward_events (length (solver_log (new_state [dt_a; dt_b]) ++ cleans))
               (reverse (run_ends_exact [dt_a; dt_b] 0 2)).
Proof.
  intros S f. split; [reflexivity|].
  assert (∃ JTv st', Jtvec S 2 (1 :: []) (Some f) (new_state [dt_a; dt_b]) = (Ok JTv, st'))
    as (JTv & st' & Hrun) by (eexists _, _; vm_compute; reflexivity).
  destruct (Jtvec_forward_log S 2 (1 :: []) f (new_state [dt_a; dt_b]) JTv st' eq_refl)
    as (cleans & _ & Hlog); [discriminate|exact Hrun|].
  exists JTv, st', cleans. split; [exact Hrun|exact Hlog].
Defined.

End FurtherConcrete.
